(** * SPARE scores: a model of [spare_scores.py] and its properties

    A shallow embedding of [spare_train] and [spare_test]
    (src/spare_scores/spare_scores.py).  Data frames are tables of rows with
    labelled, typed columns; Python objects that the code mutates (the
    caller's data frame and predictor list) live in an explicit store; the
    logging calls, the [return logging.error(...)] exits and the exceptions
    are threaded through a small state-and-error monad.

    Numbers: float64 cells are modelled by exact rationals with a separate
    not-a-number, so rounding, infinities and signed zeros are outside the
    model; [np.exp] is the real exponential. *)

From Stdlib Require Import String Ascii List Bool Arith ZArith QArith Qround.
From Stdlib Require Import Reals Qreals Lra Lia Sorting.Sorted.
Import ListNotations.

Set Implicit Arguments.

Close Scope Q_scope.
Close Scope R_scope.
Open Scope nat_scope.

(** ** Outcomes of a call *)

Inductive exn : Type :=
| ValueError | KeyError | TypeError | IndexError | UnboundLocalError.

(** [Failed] is the [return logging.error(...)] exit: the message is in the
    log and the function returns [None]. *)
Inductive result (A : Type) : Type :=
| Ok (a : A)
| Failed
| Raised (e : exn).

Arguments Ok {A} a.
Arguments Failed {A}.
Arguments Raised {A} e.

(** ** The exponential grid ([_expspace], lines 24-25) *)

(** [int(x)] on a float truncates toward zero. *)
Definition py_int (q : Q) : Z := Z.quot (Qnum q) (Zpos (Qden q)).

(** [np.linspace(start, stop, num)] with the default [endpoint=True]:
    [arange(0, num) * step + start] with [step = (stop - start) / (num - 1)],
    the last entry overwritten by [stop]; a negative [num] raises. *)
Definition linspace (start stop : Q) (num : Z) : result (list Q) :=
  if (num <? 0)%Z then Raised ValueError
  else match Z.to_nat num with
       | O => Ok []
       | S O => Ok [start]
       | S div =>
           let step := ((stop - start) / inject_Z (Z.of_nat div))%Q in
           Ok (map (fun i => (inject_Z (Z.of_nat i) * step + start)%Q)
                   (seq 0 div)
                 ++ [stop])
       end.

Definition np_exp (q : Q) : R := exp (Q2R q).

Definition _expspace (span : Q * Q) : result (list R) :=
  match linspace (fst span) (snd span)
          (py_int (snd span) - py_int (fst span) + 1) with
  | Ok l => Ok (map np_exp l)
  | Failed => Failed
  | Raised e => Raised e
  end.

(** The span as the callers write it: a Python list of two integers. *)
Definition int_span (lo hi : Z) : Q * Q := (inject_Z lo, inject_Z hi).

(** ** Tables

    A data frame is a list of labelled, typed columns over a list of rows.
    Column labels are strings or integers (the integer ROI ids of the
    reconciliation step); cells are numbers, strings or missing.  The
    labels of a frame are taken to be pairwise distinct when a single
    column is selected: a selection by label picks the first match. *)

Inductive label : Type :=
| LStr (s : string)
| LInt (z : Z).

Definition label_eqb (a b : label) : bool :=
  match a, b with
  | LStr s, LStr t => String.eqb s t
  | LInt x, LInt y => Z.eqb x y
  | _, _ => false
  end.

Inductive value : Type :=
| VNum (q : Q)
| VStr (s : string)
| VNaN.

(** Equality of cell contents as the hash tables behind [unique], [isin]
    and [duplicated] see it: missing values are identified. *)
Definition value_eqb (a b : value) : bool :=
  match a, b with
  | VNum p, VNum q => Qeq_bool p q
  | VStr s, VStr t => String.eqb s t
  | VNaN, VNaN => true
  | _, _ => false
  end.

Inductive dtype : Type := Int64 | Float64 | Object | OtherDtype.

Definition dtype_eqb (a b : dtype) : bool :=
  match a, b with
  | Int64, Int64 | Float64, Float64 | Object, Object
  | OtherDtype, OtherDtype => true
  | _, _ => false
  end.

Record table : Type := {
  columns : list (label * dtype);
  rows : list (list value)
}.

Definition labels (df : table) : list label := map fst (columns df).

(** [len(df.index)] *)
Definition nrows (df : table) : nat := length (rows df).

Definition mem_label (l : label) (ls : list label) : bool :=
  existsb (label_eqb l) ls.

(** [set(names).issubset(df.columns)] *)
Definition issubset (names : list label) (df : table) : bool :=
  forallb (fun l => mem_label l (labels df)) names.

Fixpoint index_of (l : label) (ls : list label) : option nat :=
  match ls with
  | [] => None
  | x :: rest =>
      if label_eqb l x then Some O
      else match index_of l rest with
           | Some i => Some (S i)
           | None => None
           end
  end.

(** [df[l]] as a series of values. *)
Definition series (df : table) (l : label) : option (list value) :=
  match index_of l (labels df) with
  | Some i => Some (map (fun r => nth i r VNaN) (rows df))
  | None => None
  end.

Definition col_dtype (df : table) (l : label) : option dtype :=
  match index_of l (labels df) with
  | Some i => option_map snd (nth_error (columns df) i)
  | None => None
  end.

Fixpoint replace_nth (A : Type) (i : nat) (x : A) (l : list A) : list A :=
  match l, i with
  | [], _ => []
  | _ :: t, O => x :: t
  | h :: t, S j => h :: replace_nth j x t
  end.

(** [df[l] = vals]: overwrite the column in place, or append a new one. *)
Definition set_column (df : table) (l : label) (d : dtype)
    (vals : list value) : table :=
  match index_of l (labels df) with
  | Some i =>
      {| columns := replace_nth i (l, d) (columns df);
         rows := map (fun rv => replace_nth i (snd rv) (fst rv))
                     (combine (rows df) vals) |}
  | None =>
      {| columns := columns df ++ [(l, d)];
         rows := map (fun rv => fst rv ++ [snd rv]) (combine (rows df) vals) |}
  end.

(** One row of [df[names]]: the cells of the named columns, in that order;
    [None] when a name is not a column (pandas raises [KeyError]). *)
Fixpoint select_row (ls : list label) (names : list label) (r : list value)
    : option (list value) :=
  match names with
  | [] => Some []
  | n :: rest =>
      match index_of n ls, select_row ls rest r with
      | Some i, Some vs => Some (nth i r VNaN :: vs)
      | _, _ => None
      end
  end.

Fixpoint select_rows (ls names : list label) (rs : list (list value))
    : option (list (list value)) :=
  match rs with
  | [] => if forallb (fun n => mem_label n ls) names then Some [] else None
  | r :: rest =>
      match select_row ls names r, select_rows ls names rest with
      | Some v, Some vs => Some (v :: vs)
      | _, _ => None
      end
  end.

(** [df[names]] as a matrix of rows. *)
Definition frame_values (df : table) (names : list label)
    : option (list (list value)) :=
  select_rows (labels df) names (rows df).

Fixpoint select_columns (cols : list (label * dtype)) (names : list label)
    : option (list (label * dtype)) :=
  match names with
  | [] => Some []
  | n :: rest =>
      match index_of n (map fst cols), select_columns cols rest with
      | Some i, Some cs => Some (nth i cols (n, OtherDtype) :: cs)
      | _, _ => None
      end
  end.

(** [df[names]] as a new frame. *)
Definition subframe (df : table) (names : list label) : option table :=
  match select_columns (columns df) names, frame_values df names with
  | Some cs, Some rs => Some {| columns := cs; rows := rs |}
  | _, _ => None
  end.

(** ** Series operations *)

Definition isna (v : value) : bool :=
  match v with VNaN => true | _ => false end.

Definition isin (v : value) (l : list value) : bool :=
  existsb (value_eqb v) l.

(** [s.unique()]: the distinct values in first-seen order, a missing value
    counting as one of them. *)
Fixpoint unique_from (seen : list value) (l : list value) : list value :=
  match l with
  | [] => []
  | x :: rest =>
      if isin x seen then unique_from seen rest
      else x :: unique_from (x :: seen) rest
  end.

Definition unique (l : list value) : list value := unique_from [] l.

Definition count_of (v : value) (l : list value) : nat :=
  length (filter (value_eqb v) l).

(** [s.value_counts()]: the count of each distinct value, missing values
    left out ([dropna=True]).  Only the counts are read, so the order of
    the entries is immaterial. *)
Definition value_counts (l : list value) : list nat :=
  map (fun v => count_of v l) (filter (fun v => negb (isna v)) (unique l)).

(** [np.min] of a non-empty array of counts; the empty array raises. *)
Definition np_min_nat (l : list nat) : option nat :=
  match l with
  | [] => None
  | x :: rest => Some (fold_left Nat.min rest x)
  end.

(** [np.sum(s.duplicated())]: the entries equal to an earlier entry. *)
Fixpoint duplicated_from (seen : list value) (l : list value) : nat :=
  match l with
  | [] => O
  | x :: rest =>
      if isin x seen then S (duplicated_from seen rest)
      else duplicated_from (x :: seen) rest
  end.

Definition duplicated_count (l : list value) : nat := duplicated_from [] l.

(** [a + b] on two cells of a series: strings concatenate, numbers add, a
    missing operand gives a missing result, a string and a number raise
    [TypeError]. *)
Definition value_add (a b : value) : option value :=
  match a, b with
  | VNaN, _ | _, VNaN => Some VNaN
  | VStr s, VStr t => Some (VStr (s ++ t))
  | VNum p, VNum q => Some (VNum (p + q)%Q)
  | _, _ => None
  end.

Fixpoint series_add (a b : list value) : option (list value) :=
  match a, b with
  | x :: a', y :: b' =>
      match value_add x y, series_add a' b' with
      | Some v, Some vs => Some (v :: vs)
      | _, _ => None
      end
  | _, _ => Some []
  end.

(** ** Python dictionaries with insertion order *)

Section Dict.
Variables (K V : Type) (keqb : K -> K -> bool).

Fixpoint dict_get (k : K) (d : list (K * V)) : option V :=
  match d with
  | [] => None
  | (k', v) :: rest => if keqb k k' then Some v else dict_get k rest
  end.

(** [d[k] = v]: an existing key keeps its position. *)
Fixpoint dict_set (k : K) (v : V) (d : list (K * V)) : list (K * V) :=
  match d with
  | [] => [(k, v)]
  | (k', v') :: rest =>
      if keqb k k' then (k', v) :: rest else (k', v') :: dict_set k v rest
  end.

(** [dict(pairs)] *)
Definition dict_of (pairs : list (K * V)) : list (K * V) :=
  fold_left (fun d kv => dict_set (fst kv) (snd kv) d) pairs [].
End Dict.

(** The stored encoding of one two-valued column: value to code. *)
Definition cat_map : Type := list (value * Z).

(** [s.map(m)]: each value replaced by its code, an unmapped value by a
    missing value. *)
Definition series_map (m : cat_map) (l : list value) : list value :=
  map (fun v => match dict_get value_eqb v m with
                | Some z => VNum (inject_Z z)
                | None => VNaN
                end) l.

(** ** Float cells *)

(** A float64 cell of a score array: [None] is not-a-number. *)
Definition cell : Type := option Q.

Definition cell_of_value (v : value) : cell :=
  match v with VNum q => Some q | _ => None end.

Definition cell_isnan (c : cell) : bool :=
  match c with None => true | Some _ => false end.

Definition fadd (a b : cell) : cell :=
  match a, b with Some p, Some q => Some (p + q)%Q | _, _ => None end.

Definition fsub (a b : cell) : cell :=
  match a, b with Some p, Some q => Some (p - q)%Q | _, _ => None end.

Definition fmul (a b : cell) : cell :=
  match a, b with Some p, Some q => Some (p * q)%Q | _, _ => None end.

(** Division; a zero divisor (an infinity or a NaN in IEEE arithmetic) is
    outside the rational model. *)
Definition fdiv (a b : cell) : cell :=
  match a, b with Some p, Some q => Some (p / q)%Q | _, _ => None end.

Definition Qsum (l : list Q) : Q := fold_right Qplus 0%Q l.

(** [np.nanmean(row)]: the NaNs are replaced by zero and summed over, and
    the total is divided by the number of non-NaN entries; with none, the
    result is NaN. *)
Definition nanmean (row : list cell) : cell :=
  let cnt := length (filter (fun c => negb (cell_isnan c)) row) in
  let tot :=
    Qsum (map (fun c => match c with Some q => q | None => 0%Q end) row) in
  match cnt with
  | O => None
  | S _ => Some (tot / inject_Z (Z.of_nat cnt))%Q
  end.




(** Minimum and maximum of a column as [np.min(df[c])] computes them:
    missing values are skipped and nothing left gives NaN; a string in the
    column makes the numeric use of the result raise [TypeError]. *)
Fixpoint numeric_values (l : list value) : option (list Q) :=
  match l with
  | [] => Some []
  | VNum q :: rest => option_map (cons q) (numeric_values rest)
  | VNaN :: rest => numeric_values rest
  | VStr _ :: _ => None
  end.

Definition Qmin' (a b : Q) : Q := if Qle_bool a b then a else b.
Definition Qmax' (a b : Q) : Q := if Qle_bool a b then b else a.

Definition np_min (l : list Q) : option Q :=
  match l with [] => None | x :: rest => Some (fold_left Qmin' rest x) end.

Definition np_max (l : list Q) : option Q :=
  match l with [] => None | x :: rest => Some (fold_left Qmax' rest x) end.

Definition np_floor (c : cell) : cell :=
  option_map (fun q => inject_Z (Qfloor q)) c.

(** [a < b] on floats: false when either side is NaN. *)
Definition flt (a b : cell) : bool :=
  match a, b with
  | Some p, Some q => negb (Qle_bool q p)
  | _, _ => false
  end.

(** ** Strings *)

Definition underscore : ascii := "_"%char.

(** ['_' in a] *)
Fixpoint has_underscore (s : string) : bool :=
  match s with
  | EmptyString => false
  | String c rest => Ascii.eqb c underscore || has_underscore rest
  end.

(** [a.split('_')[-1]]: what follows the last underscore. *)
Fixpoint last_field_from (acc : string) (s : string) : string :=
  match s with
  | EmptyString => acc
  | String c rest =>
      if Ascii.eqb c underscore then last_field_from EmptyString rest
      else last_field_from (acc ++ String c EmptyString) rest
  end.

Definition last_field (s : string) : string := last_field_from EmptyString s.

Definition is_space (c : ascii) : bool :=
  let n := nat_of_ascii c in
  ((9 <=? n) && (n <=? 13)) || ((28 <=? n) && (n <=? 32)).

Definition is_digit (c : ascii) : bool :=
  let n := nat_of_ascii c in (48 <=? n) && (n <=? 57).

Fixpoint lstrip (l : list ascii) : list ascii :=
  match l with
  | c :: rest => if is_space c then lstrip rest else l
  | [] => []
  end.

Definition strip (l : list ascii) : list ascii :=
  rev (lstrip (rev (lstrip l))).

Definition digits_value (ds : list ascii) : Z :=
  fold_left (fun acc c => (10 * acc + Z.of_nat (nat_of_ascii c - 48))%Z) ds 0%Z.

(** [int(s)] on an ASCII string that holds no underscore: optional
    surrounding white space, an optional sign, at least one decimal digit;
    [None] is [ValueError]. *)
Definition int_of_string (s : string) : option Z :=
  let body := strip (list_ascii_of_string s) in
  let signed :=
    match body with
    | c :: rest =>
        if Ascii.eqb c "-"%char then (true, rest)
        else if Ascii.eqb c "+"%char then (false, rest)
        else (false, body)
    | [] => (false, body)
    end in
  match snd signed with
  | [] => None
  | ds =>
      if forallb is_digit ds
      then Some (if fst signed then (- digits_value ds)%Z else digits_value ds)
      else None
  end.

(** [sorted(set(names))] for strings: insertion into a strictly increasing
    list. *)
Fixpoint insert_sorted (x : string) (l : list string) : list string :=
  match l with
  | [] => [x]
  | y :: rest =>
      if String.eqb x y then l
      else if String.ltb x y then x :: l
      else y :: insert_sorted x rest
  end.

Definition sorted_set (l : list string) : list string :=
  fold_right insert_sorted [] l.

(** [list.remove(x)]: the first occurrence goes. *)
Fixpoint remove_first (x : string) (l : list string) : list string :=
  match l with
  | [] => []
  | y :: rest => if String.eqb x y then rest else y :: remove_first x rest
  end.

(** [list(dict.fromkeys(l))] *)
Fixpoint dedup (l : list string) : list string :=
  match l with
  | [] => []
  | x :: rest => x :: filter (fun y => negb (String.eqb x y)) (dedup rest)
  end.

(** ** The artifact *)

(** The external primitives of the fitted ensemble: a scaler and a support
    vector machine per fold, both acting row by row.  Exceptions raised
    inside them are outside the model. *)
Record scaler : Type := { transform : list value -> list cell }.

Record svm : Type := {
  coef_ : list Q;
  intercept_ : Q;
  decision_function : list cell -> cell
}.

Record bias_terms : Type := { bias_int : list Q; bias_slope : list Q }.

(** [mdl]: the keys ['scaler'], ['mdl'], ['cv_folds'] (a pair of training
    and held-out row indices per fold) and, for regression,
    ['bias_correct']. *)
Record model : Type := {
  mdl_scaler : list scaler;
  mdl_mdl : list svm;
  mdl_cv_folds : list (list nat * list nat);
  mdl_bias_correct : option bias_terms
}.

Inductive spare_type : Type := Classification | Regression.

Definition param_grid : Type := list (string * list R).

(** The table of per-fold optimal hyperparameter values a trainer returns,
    read under the keys [<par>_optimal]. *)
Definition params_table : Type := list (string * list Q).

Record metaData : Type := {
  md_spare_type : spare_type;
  md_kernel : string;
  md_n : nat;
  md_age_range : cell * cell;
  md_to_predict : string;
  md_predictors : list string;
  md_categorical_var_map : option (list (string * option cat_map));
  md_pos_group : option string;
  md_perf : list Q;
  md_params : params_table;
  md_cv_results : table
}.

(** What [run_SVC] and [run_SVR] return: the out-of-fold predictions, the
    fitted ensemble, the performance list and the table of optima. *)
Record trainer_output : Type := {
  out_predicted : list value;
  out_mdl : model;
  out_perf : list Q;
  out_params : params_table
}.

(** ** The store, the log and the monad *)

Inductive level : Type := ERROR | WARNING | INFO.

Inductive message : Type :=
| PredictorsNotInFrame
    (* 'Not all predictors exist in the input dataframe.' *)
| PosGroupNotProvided
    (* '"pos_group" not provided (group to assign a positive score).' *)
| PosGroupNoMatch
    (* '"pos_group" does not match one of the two groups ...' *)
| GroupTooSmall
    (* 'At least one of the groups to classify is too small (n<10).' *)
| GroupMaybeTooSmall
    (* '... may be too small to build a robust SPARE classification
       model (n<100).' *)
| DuplicateParticipants
    (* 'Training dataset has duplicate participants.' *)
| TargetNotBinaryOrNumeric
    (* 'Variable to predict must be either binary or numeric.' *)
| SampleTooSmall
    (* 'Sample size is too small (n<10).' *)
| SampleMaybeTooSmall
    (* 'Sample size may be too small to build a robust SPARE regression
       model (n<100).' *)
| PosGroupIgnored
    (* 'SPARE regression model does not need a "pos_group". ...' *)
| NoVariance
    (* 'Variable to predict has no variance.' *)
| TargetInPredictors
    (* 'Variable to predict is in the predictor set. ...' *)
| InvalidPredictorsExcluded
    (* 'Some participants have invalid predictor variables (such as n/a).
       They will be excluded from the training set.' *)
| PredictorsNotFound (cols_not_found : list string)
    (* f'Not all predictors exist in the input dataframe: {cols_not_found}' *)
| ROINamesChanged (alter : label) (name : string)
    (* f'ROI names changed to match the model (e.g. {alter} to {name}).' *)
| OutsideAgeRange
    (* 'Some participants fall outside of the age range of the SPARE model.' *)
| InvalidPredictors
    (* 'Some participants have invalid predictor variables.' *)
| MatchingTrainingIDs (n_training : nat)
    (* f'{n_training} participants have matching IDs to IDs from the
       training sample. ...' *)
| UnexpectedCategory (var : string) (expected_var : list value).
    (* f'Column "{var}" contains value(s) other than expected:
       {expected_var}' *)

(** A call of one of the two trainers, with its arguments. *)
Inductive trainer_call : Type :=
| CallSVC (df : table) (predictors : list string) (to_predict : string)
          (groups_to_classify : list value) (grid : param_grid)
          (kernel : string) (n_repeats verbose : option nat)
| CallSVR (df : table) (predictors : list string) (to_predict : string)
          (grid : param_grid) (n_repeats verbose : option nat).

Definition ref : Type := nat.

(** The Python objects a call can share with its caller (data frames and
    lists, by reference), the log, and the trainer calls made so far. *)
Record world : Type := {
  frames : list table;
  lists : list (list string);
  log : list (level * message);
  calls : list trainer_call
}.

Definition M (A : Type) : Type := world -> world * result A.

Definition ret (A : Type) (a : A) : M A := fun w => (w, Ok a).

Definition bind (A B : Type) (m : M A) (k : A -> M B) : M B :=
  fun w =>
    match m w with
    | (w', Ok a) => k a w'
    | (w', Failed) => (w', Failed)
    | (w', Raised e) => (w', Raised e)
    end.

Declare Scope py_scope.
Delimit Scope py_scope with py.
Notation "x <- m ;; k" := (bind m (fun x => k))
  (at level 61, m at next level, right associativity) : py_scope.
Notation "m ;;; k" := (bind m (fun _ => k))
  (at level 61, right associativity) : py_scope.
Open Scope py_scope.

Definition raise (A : Type) (e : exn) : M A := fun w => (w, Raised e).
Arguments raise {A} e.

Definition add_log (w : world) (entries : list (level * message)) : world :=
  {| frames := frames w; lists := lists w;
     log := log w ++ entries; calls := calls w |}.

Definition logging (lv : level) (msg : message) : M unit :=
  fun w => (add_log w [(lv, msg)], Ok tt).

(** [return logging.error(msg)] *)
Definition fail (A : Type) (msg : message) : M A :=
  fun w => (add_log w [(ERROR, msg)], Failed).
Arguments fail {A} msg.

(** A partial operation whose failure is the exception [e]. *)
Definition try_ (A : Type) (e : exn) (o : option A) : M A :=
  match o with Some a => ret a | None => raise e end.

Definition lift (A : Type) (r : result A) : M A := fun w => (w, r).

(** A handle that names no object of the store cannot arise in Python;
    the model answers it with [KeyError]. *)
Definition get_frame (r : ref) : M table :=
  fun w => (w, match nth_error (frames w) r with
               | Some t => Ok t
               | None => Raised KeyError
               end).

Definition put_frame (r : ref) (t : table) (w : world) : world :=
  {| frames := replace_nth r t (frames w); lists := lists w;
     log := log w; calls := calls w |}.

Definition set_frame (r : ref) (t : table) : M unit :=
  fun w => (put_frame r t w, Ok tt).

Definition push_frame (t : table) (w : world) : world :=
  {| frames := frames w ++ [t]; lists := lists w;
     log := log w; calls := calls w |}.

Definition alloc_frame (t : table) : M ref :=
  fun w => (push_frame t w, Ok (length (frames w))).

Definition get_list (r : ref) : M (list string) :=
  fun w => (w, match nth_error (lists w) r with
               | Some l => Ok l
               | None => Raised KeyError
               end).

Definition put_list (r : ref) (l : list string) (w : world) : world :=
  {| frames := frames w; lists := replace_nth r l (lists w);
     log := log w; calls := calls w |}.

Definition set_list (r : ref) (l : list string) : M unit :=
  fun w => (put_list r l w, Ok tt).

Definition add_calls (w : world) (cs : list trainer_call) : world :=
  {| frames := frames w; lists := lists w; log := log w;
     calls := calls w ++ cs |}.

Definition record_call (c : trainer_call) : M unit :=
  fun w => (add_calls w [c], Ok tt).

Definition when (b : bool) (m : M unit) : M unit :=
  if b then m else ret tt.

Definition rbind (A B : Type) (r : result A) (k : A -> result B)
    : result B :=
  match r with
  | Ok a => k a
  | Failed => Failed
  | Raised e => Raised e
  end.

(** ** [spare_train] *)

(** Lines 32-58: the kind of model, from the target column, with its
    checks.  For a classification the groups to classify are returned as
    well, the positive group last. *)
Definition determine_spare_type (df : table) (to_predict pos_group : string)
    : M (spare_type * list value) :=
  target <- try_ KeyError (series df (LStr to_predict)) ;;
  let u := unique target in
  if length u =? 2 then
    if String.eqb pos_group "" then fail PosGroupNotProvided
    else if negb (isin (VStr pos_group) u) then fail PosGroupNoMatch
    else
      smallest <- try_ ValueError (np_min_nat (value_counts target)) ;;
      (if smallest <? 10 then fail GroupTooSmall
       else when (smallest <? 100) (logging WARNING GroupMaybeTooSmall)) ;;;
      ptid <- try_ KeyError (series df (LStr "PTID")) ;;
      keys <- try_ TypeError (series_add ptid target) ;;
      when (0 <? duplicated_count keys)
           (logging WARNING DuplicateParticipants) ;;;
      ret (Classification,
           filter (fun a => negb (value_eqb a (VStr pos_group))) u
             ++ [VStr pos_group])
  else if 2 <? length u then
    dt <- try_ KeyError (col_dtype df (LStr to_predict)) ;;
    if negb (dtype_eqb dt Int64 || dtype_eqb dt Float64)
    then fail TargetNotBinaryOrNumeric
    else
      (if nrows df <? 10 then fail SampleTooSmall
       else when (nrows df <? 100) (logging WARNING SampleMaybeTooSmall)) ;;;
      ptid <- try_ KeyError (series df (LStr "PTID")) ;;
      when (0 <? duplicated_count ptid)
           (logging WARNING DuplicateParticipants) ;;;
      when (negb (String.eqb pos_group "")) (logging INFO PosGroupIgnored) ;;;
      ret (Regression, [])
  else fail NoVariance.

(** Line 65: the rows without a missing predictor, as a new frame; [X] is
    [df[predictors]]. *)
Definition dropna (df : table) (X : list (list value)) : table :=
  {| columns := columns df;
     rows := map fst (filter (fun rx => negb (existsb isna (snd rx)))
                             (combine (rows df) X)) |}.

Definition is_object (df : table) (var : string) : bool :=
  match col_dtype df (LStr var) with
  | Some Object => true
  | _ => false
  end.

(** Lines 80-83, on the frame object [d]: every listed column with exactly
    two distinct values gets its map, first-seen value to 1 and second to
    2, and is overwritten in place by its codes. *)
Definition two_codes (u : list value) : cat_map :=
  [(nth 0 u VNaN, 1%Z); (nth 1 u VNaN, 2%Z)].

Fixpoint encode_categoricals (d : ref) (vars : list string)
    (cmap : list (string * option cat_map))
    : M (list (string * option cat_map)) :=
  match vars with
  | [] => ret cmap
  | var :: rest =>
      df <- get_frame d ;;
      col <- try_ KeyError (series df (LStr var)) ;;
      let u := unique col in
      if length u =? 2 then
        let m := two_codes u in
        set_frame d (set_column df (LStr var) Int64 (series_map m col)) ;;;
        encode_categoricals d rest (dict_set String.eqb var (Some m) cmap)
      else encode_categoricals d rest cmap
  end.

(** Lines 76-83: the predictor columns of dtype [object] are the
    categorical variables; each starts with no map. *)
Definition convert_categoricals (d : ref) (predictors : list string)
    : M (list (string * option cat_map)) :=
  df <- get_frame d ;;
  let var_categorical := filter (is_object df) predictors in
  encode_categoricals d var_categorical
    (dict_of String.eqb (map (fun v => (v, None)) var_categorical)).

(** A frame is rectangular: every row has one cell per column. *)
Definition wf_table (df : table) : Prop :=
  Forall (fun r => length r = length (columns df)) (rows df).

(** Lines 89, 91 and 102: the coarse grids.  A classification kernel other
    than ['linear'] and ['rbf'] leaves [param_grid] unbound, and its first
    use raises. *)
Definition coarse_grid (ty : spare_type) (kernel : string)
    : result param_grid :=
  match ty with
  | Classification =>
      if String.eqb kernel "linear" then
        rbind (_expspace (int_span (-9) 5)) (fun c => Ok [("C"%string, c)])
      else if String.eqb kernel "rbf" then
        rbind (_expspace (int_span (-9) 5)) (fun c =>
        rbind (_expspace (int_span (-5) 5)) (fun g =>
        Ok [("C"%string, c); ("gamma"%string, g)]))
      else Raised UnboundLocalError
  | Regression =>
      rbind (_expspace (int_span (-5) 5)) (fun c =>
      rbind (_expspace (int_span (-5) 5)) (fun e =>
      Ok [("C"%string, c); ("epsilon"%string, e)]))
  end.

(** Lines 96 and 107, for one hyperparameter:
    [_expspace([np.min(params[f'{par}_optimal']),
                np.max(params[f'{par}_optimal'])])]. *)
Definition refine_entry (params : params_table) (par : string)
    : result (list R) :=
  match dict_get String.eqb (par ++ "_optimal")%string params with
  | None => Raised KeyError
  | Some optimal =>
      match np_min optimal, np_max optimal with
      | Some lo, Some hi => _expspace (lo, hi)
      | _, _ => Raised ValueError
      end
  end.

Fixpoint refine_grid (params : params_table) (grid : param_grid)
    : result param_grid :=
  match grid with
  | [] => Ok []
  | (par, _) :: rest =>
      rbind (refine_entry params par) (fun g =>
      rbind (refine_grid params rest) (fun rest' => Ok ((par, g) :: rest')))
  end.

Section Training.

(** Modelled from the spec: the ensemble trainers [run_SVC] and [run_SVR]
    of the module [svm], and the seeded row sampling [df.sample] of pandas,
    are not part of the source at hand.  By section 4.4 of the
    specification a trainer takes the table, the predictors, the target,
    the grid, the kernel and the repeat count, and returns the out-of-fold
    predictions, the ensemble, the performance list and the per-fold
    optima; they are taken as functions that leave their arguments
    untouched. *)
Variable run_SVC :
  table -> list string -> string -> list value -> param_grid -> string ->
  option nat -> option nat -> trainer_output.
Variable run_SVR :
  table -> list string -> string -> param_grid ->
  option nat -> option nat -> trainer_output.
Variable df_sample : table -> nat -> Z -> table.

(** The trainer of each kind of model, its result and the record of its
    call. *)
Definition trainer_result (ty : spare_type) (df : table)
    (predictors : list string) (to_predict : string) (groups : list value)
    (grid : param_grid) (kernel : string) (n_repeats verbose : option nat)
    : trainer_output :=
  match ty with
  | Classification =>
      run_SVC df predictors to_predict groups grid kernel n_repeats verbose
  | Regression =>
      run_SVR df predictors to_predict grid n_repeats verbose
  end.

Definition trainer_event (ty : spare_type) (df : table)
    (predictors : list string) (to_predict : string) (groups : list value)
    (grid : param_grid) (kernel : string) (n_repeats verbose : option nat)
    : trainer_call :=
  match ty with
  | Classification =>
      CallSVC df predictors to_predict groups grid kernel n_repeats verbose
  | Regression =>
      CallSVR df predictors to_predict grid n_repeats verbose
  end.

Definition call_trainer (ty : spare_type) (df : table)
    (predictors : list string) (to_predict : string) (groups : list value)
    (grid : param_grid) (kernel : string) (n_repeats verbose : option nat)
    : M trainer_output :=
  record_call (trainer_event ty df predictors to_predict groups grid kernel
                             n_repeats verbose) ;;;
  ret (trainer_result ty df predictors to_predict groups grid kernel
                      n_repeats verbose).

(** Lines 86-109: the coarse grid, its refinement on a subsample when the
    frame has more than 1000 rows, and the fit on the whole frame. *)
Definition fit (ty : spare_type) (d : ref) (predictors : list string)
    (to_predict : string) (groups : list value) (kernel : string)
    : M trainer_output :=
  grid <- lift (coarse_grid ty kernel) ;;
  df <- get_frame d ;;
  grid <- (if 1000 <? nrows df then
             coarse <- call_trainer ty (df_sample df 500 2022) predictors
                         to_predict groups grid kernel (Some 1) (Some 0) ;;
             lift (refine_grid (out_params coarse) grid)
           else ret grid) ;;
  call_trainer ty df predictors to_predict groups grid kernel None None.

(** Lines 60-62: the target is taken out of the caller's list object. *)
Definition remove_target (predictors : ref) (to_predict : string)
    (preds : list string) : M (list string) :=
  if existsb (String.eqb to_predict) preds then
    logging INFO TargetInPredictors ;;;
    set_list predictors (remove_first to_predict preds) ;;;
    ret (remove_first to_predict preds)
  else ret preds.

(** Lines 63-65: with a missing predictor value somewhere, [df] is rebound
    to a new frame without the rows concerned; otherwise it stays the
    caller's object. *)
Definition drop_invalid (df0 : ref) (df : table) (preds : list string)
    : M ref :=
  X <- try_ KeyError (frame_values df (map LStr preds)) ;;
  if existsb (existsb isna) X then
    logging INFO InvalidPredictorsExcluded ;;;
    alloc_frame (dropna df X)
  else ret df0.

(** Lines 97 and 108: [df['predicted'] = ...] on the frame object [d]. *)
Definition store_predicted (d : ref) (predicted : list value) : M unit :=
  df <- get_frame d ;;
  if length predicted =? nrows df
  then set_frame d (set_column df (LStr "predicted") Float64 predicted)
  else raise ValueError.

(** Lines 60-120, once the kind of model is known. *)
Definition train_validated (df0 predictors : ref) (df : table)
    (preds : list string) (tg : spare_type * list value)
    (to_predict pos_group kernel : string) : M (model * metaData) :=
  preds <- remove_target predictors to_predict preds ;;
  d <- drop_invalid df0 df preds ;;
  df <- get_frame d ;;
  age <- try_ KeyError (series df (LStr "Age")) ;;
  age <- try_ TypeError (numeric_values age) ;;
  cmap <- convert_categoricals d preds ;;
  out <- fit (fst tg) d preds to_predict (snd tg) kernel ;;
  store_predicted d (out_predicted out) ;;;
  df' <- get_frame d ;;
  cv <- try_ KeyError
          (subframe df' (map LStr (dedup ["PTID"; "Age"; "Sex"; to_predict;
                                          "predicted"]%string))) ;;
  ret (out_mdl out,
       {| md_spare_type := fst tg;
          md_kernel := kernel;
          md_n := nrows df;
          md_age_range := (np_floor (np_min age), np_floor (np_max age));
          md_to_predict := to_predict;
          md_predictors := preds;
          md_categorical_var_map := Some cmap;
          md_pos_group :=
            match fst tg with
            | Classification =>
                if String.eqb kernel "linear" then Some pos_group else None
            | Regression => None
            end;
          md_perf := out_perf out;
          md_params := out_params out;
          md_cv_results := cv |}).

(** [spare_train] on the caller's frame object [df0] and list object
    [predictors].  Writing the artifact to disk ([save_mdl]) is left out. *)
Definition spare_train (df0 predictors : ref)
    (to_predict pos_group kernel : string) : M (model * metaData) :=
  df <- get_frame df0 ;;
  preds <- get_list predictors ;;
  if negb (issubset (map LStr preds) df) then fail PredictorsNotInFrame
  else
    tg <- determine_spare_type df to_predict pos_group ;;
    train_validated df0 predictors df preds tg to_predict pos_group kernel.

End Training.

(** ** [spare_test] *)

(** [sorted(set(metaData['predictors']) - set(df.columns))] *)
Definition missing_predictors (predictors : list string) (df : table)
    : list string :=
  sorted_set (filter (fun p => negb (mem_label (LStr p) (labels df)))
                     predictors).

(** [df.rename(columns=mapper)]: every column label that is a key of the
    mapper is replaced, all at once. *)
Definition rename (df : table) (mapper : list (label * string)) : table :=
  {| columns := map (fun c => (match dict_get label_eqb (fst c) mapper with
                               | Some name => LStr name
                               | None => fst c
                               end, snd c)) (columns df);
     rows := rows df |}.

(** Lines 142-145, one pass of the loop: the alternate names are used only
    when every one of them is a column, and the loop goes on to the next
    convention either way. *)
Definition try_convention (roi_name : list string) (roi_alter : list label)
    (df : table) : M table :=
  if issubset roi_alter df then
    logging INFO (ROINamesChanged (nth 0 roi_alter (LInt 0))
                                  (nth 0 roi_name ""%string)) ;;;
    ret (rename df (dict_of label_eqb (combine roi_alter roi_name)))
  else ret df.

(** The frame after one pass of the loop. *)
Definition apply_convention (roi_name : list string) (roi_alter : list label)
    (df : table) : table :=
  if issubset roi_alter df
  then rename df (dict_of label_eqb (combine roi_alter roi_name))
  else df.

(** [[int(a.split('_')[-1]) for a in roi_name]]; [None] when one of the
    conversions raises. *)
Fixpoint int_fields (names : list string) : option (list Z) :=
  match names with
  | [] => Some []
  | a :: rest =>
      match int_of_string (last_field a), int_fields rest with
      | Some z, Some zs => Some (z :: zs)
      | _, _ => None
      end
  end.

Definition raw_fields (names : list string) : list label :=
  map (fun a => LStr (last_field a)) names.

Definition R_fields (names : list string) : list label :=
  map (fun a => LStr ("R" ++ last_field a)) names.

(** The frame after the three passes, in the order of the loop. *)
Definition conventions_applied (roi_name : list string) (ids : list Z)
    (df : table) : table :=
  apply_convention roi_name (R_fields roi_name)
    (apply_convention roi_name (raw_fields roi_name)
       (apply_convention roi_name (map LInt ids) df)).

(** Lines 133-150.  The three lists of alternate names are built before
    the loop starts, inside the [try]; the only operation there that can
    raise is [int]. *)
Definition reconcile_predictors (predictors : list string) (df : table)
    : M table :=
  if issubset (map LStr predictors) df then ret df
  else
    let cols_not_found := missing_predictors predictors df in
    if existsb (fun a => negb (has_underscore a)) cols_not_found
    then fail (PredictorsNotFound cols_not_found)
    else
      let roi_name := filter has_underscore predictors in
      match int_fields roi_name with
      | None => fail (PredictorsNotFound cols_not_found)
      | Some ids =>
          df <- try_convention roi_name (map LInt ids) df ;;
          df <- try_convention roi_name (raw_fields roi_name) df ;;
          df <- try_convention roi_name (R_fields roi_name) df ;;
          let cols_not_found := missing_predictors predictors df in
          if 0 <? length cols_not_found
          then fail (PredictorsNotFound cols_not_found)
          else ret df
      end.

(** Lines 165-171: the stored maps are replayed in the order of the
    dictionary. *)
Fixpoint replay_categoricals (entries : list (string * option cat_map))
    (df : table) : M table :=
  match entries with
  | [] => ret df
  | (var, None) :: rest => replay_categoricals rest df
  | (var, Some m) :: rest =>
      col <- try_ KeyError (series df (LStr var)) ;;
      if forallb (fun v => isin v (map fst m)) col then
        replay_categoricals rest
          (set_column df (LStr var) Int64 (series_map m col))
      else fail (UnexpectedCategory var (map fst m))
  end.

(** [X * coef_] on one row, with the broadcasting of numpy. *)
Definition broadcast_mul (X : list cell) (coef : list Q)
    : option (list cell) :=
  if length X =? length coef then
    Some (map (fun xc => fmul (fst xc) (Some (snd xc))) (combine X coef))
  else if length coef =? 1 then
    Some (map (fun x => fmul x (Some (nth 0 coef 0%Q))) X)
  else if length X =? 1 then
    Some (map (fun c => fmul (nth 0 X None) (Some c)) coef)
  else None.

(** Line 187: [np.sum(X * coef_, axis=1) + intercept_], one row. *)
Definition linear_decision (m : svm) (X : list cell) : option cell :=
  match broadcast_mul X (coef_ m) with
  | Some prods => Some (fadd (fold_right fadd (Some 0%Q) prods)
                             (Some (intercept_ m)))
  | None => None
  end.

Fixpoint all_some (A : Type) (l : list (option A)) : option (list A) :=
  match l with
  | [] => Some []
  | Some a :: rest => option_map (cons a) (all_some rest)
  | None :: _ => None
  end.

(** Lines 185-189: the decision values of fold [i], one per row. *)
Definition raw_scores (mdl : model) (md : metaData)
    (X : list (list value)) (i : nat) : result (list cell) :=
  match nth_error (mdl_scaler mdl) i, nth_error (mdl_mdl mdl) i with
  | Some sc, Some m =>
      let Xi := map (transform sc) X in
      if String.eqb (md_kernel md) "linear" then
        match all_some (map (linear_decision m) Xi) with
        | Some raw => Ok raw
        | None => Raised ValueError
        end
      else Ok (map (decision_function m) Xi)
  | _, _ => Raised IndexError
  end.

(** Lines 190-191: regression scores are bias-corrected, fold by fold. *)
Definition bias_correct (mdl : model) (md : metaData) (i : nat)
    (raw : list cell) : result (list cell) :=
  match md_spare_type md with
  | Classification => Ok raw
  | Regression =>
      match mdl_bias_correct mdl with
      | None => Raised KeyError
      | Some b =>
          match nth_error (bias_int b) i, nth_error (bias_slope b) i with
          | Some int_i, Some slope_i =>
              Ok (map (fun s => fdiv (fsub s (Some int_i)) (Some slope_i))
                      raw)
          | _, _ => Raised IndexError
          end
      end
  end.

(** [series[idx]] with integer positions; an absent position raises. *)
Definition take (l : list value) (idx : list nat) : option (list value) :=
  all_some (map (nth_error l) idx).

(** Line 192: the identifiers of the training partition of fold [i]. *)
Definition training_ids (mdl : model) (md : metaData) (i : nat)
    : result (list value) :=
  match series (md_cv_results md) (LStr "PTID") with
  | None => Raised KeyError
  | Some train_ptid =>
      match nth_error (mdl_cv_folds mdl) i with
      | None => Raised IndexError
      | Some fold =>
          match take train_ptid (fst fold) with
          | Some ids => Ok ids
          | None => Raised KeyError
          end
      end
  end.

(** Line 192: the rows whose identifier is among [ids] become NaN. *)
Definition mask (ptid : list value) (ids : list value) (scores : list cell)
    : list cell :=
  map (fun ps => if isin (fst ps) ids then None else snd ps)
      (combine ptid scores).

(** Lines 185-192: column [i] of [ss]. *)
Definition fold_column (mdl : model) (md : metaData) (df : table) (i : nat)
    : result (list cell) :=
  match frame_values df (map LStr (md_predictors md)) with
  | None => Raised KeyError
  | Some X =>
      rbind (raw_scores mdl md X i) (fun raw =>
      rbind (bias_correct mdl md i raw) (fun corrected =>
      match series df (LStr "PTID") with
      | None => Raised KeyError
      | Some ptid =>
          rbind (training_ids mdl md i) (fun ids =>
          Ok (mask ptid ids corrected))
      end))
  end.

Fixpoint fold_columns (mdl : model) (md : metaData) (df : table)
    (folds : list nat) : result (list (list cell)) :=
  match folds with
  | [] => Ok []
  | i :: rest =>
      rbind (fold_column mdl md df i) (fun col =>
      rbind (fold_columns mdl md df rest) (fun cols => Ok (col :: cols)))
  end.

(** Row [r] of [ss]. *)
Definition ss_row (cols : list (list cell)) (r : nat) : list cell :=
  map (fun col => nth r col None) cols.

(** Lines 182-194: the scores, [np.nanmean(ss, axis=1)]. *)
Definition spare_scores (mdl : model) (md : metaData) (df : table)
    : result (list cell) :=
  let n_ensemble := length (mdl_scaler mdl) in
  rbind (fold_columns mdl md df (seq 0 n_ensemble)) (fun cols =>
  Ok (map (fun r => nanmean (ss_row cols r)) (seq 0 (nrows df)))).

(** Lines 152-194, on the reconciled frame.  The printing of the model
    description appears only as far as it can raise: [int] of a NaN age
    bound. *)
Definition test_reconciled (loaded : model * metaData) (df : table)
    : M (list cell) :=
  let mdl := fst loaded in
  let md := snd loaded in
  age <- try_ KeyError (series df (LStr "Age")) ;;
  age <- try_ TypeError (numeric_values age) ;;
  when (flt (np_min age) (fst (md_age_range md))
        || flt (snd (md_age_range md)) (np_max age))
       (logging WARNING OutsideAgeRange) ;;;
  X <- try_ KeyError (frame_values df (map LStr (md_predictors md))) ;;
  when (existsb (existsb isna) X) (logging WARNING InvalidPredictors) ;;;
  ptid <- try_ KeyError (series df (LStr "PTID")) ;;
  train_ptid <- try_ KeyError (series (md_cv_results md) (LStr "PTID")) ;;
  let n_training := length (filter (fun v => isin v train_ptid) ptid) in
  when (0 <? n_training) (logging INFO (MatchingTrainingIDs n_training)) ;;;
  df <- match md_categorical_var_map md with
        | Some entries => replay_categoricals entries df
        | None => ret df
        end ;;
  when (cell_isnan (fst (md_age_range md))
        || cell_isnan (snd (md_age_range md))) (raise ValueError) ;;;
  lift (spare_scores mdl md df).

(** [spare_test] on the artifact that [load_model] returned.  The frame is
    copied on entry (line 130), so from there on it is a private value of
    the call.  Writing the scores to disk ([save_csv]) is left out. *)
Definition spare_test (df0 : ref) (loaded : model * metaData)
    : M (list cell) :=
  df <- get_frame df0 ;;
  df <- reconcile_predictors (md_predictors (snd loaded)) df ;;
  test_reconciled loaded df.

(** ** Vocabulary of the statements *)

Definition no_error (entries : list (level * message)) : Prop :=
  Forall (fun e => fst e <> ERROR) entries.

(** A computation that logs no error and does not take the
    [return logging.error(...)] exit. *)
Definition quiet (A : Type) (m : M A) : Prop :=
  forall w, exists entries,
    no_error entries /\
    log (fst (m w)) = log w ++ entries /\
    snd (m w) <> Failed.






(** A computation that touches nothing but the log. *)
Definition logs_only (A : Type) (m : M A) : Prop :=
  forall w, exists entries, fst (m w) = add_log w entries.

(** A computation that leaves the frames and the lists of the store
    alone. *)
Definition keeps_objects (A : Type) (m : M A) : Prop :=
  forall w, frames (fst (m w)) = frames w /\ lists (fst (m w)) = lists w.

(** A computation that leaves the lists of the store alone. *)
Definition keeps_lists (A : Type) (m : M A) : Prop :=
  forall w, lists (fst (m w)) = lists w.

(** ** File names

    Writing the artifact (lines 113-118) and the scores (lines 197-201) is
    outside the model; the names of the two files are computed as
    follows. *)

(** [to_predict.replace('.', '_')] *)
Fixpoint replace_dots (s : string) : string :=
  match s with
  | EmptyString => EmptyString
  | String c rest =>
      String (if Ascii.eqb c "."%char then "_"%char else c) (replace_dots rest)
  end.

Definition spare_type_name (ty : spare_type) : string :=
  match ty with
  | Classification => "classification"
  | Regression => "regression"
  end.

(** Lines 114-116: the name of the model, the given one or
    [f'SPARE_{spare_type}_{to_predict_}']. *)
Definition model_name (mdl_name : string) (ty : spare_type)
    (to_predict : string) : string :=
  if String.eqb mdl_name "" then
    ("SPARE_" ++ spare_type_name ty ++ "_" ++ replace_dots to_predict)%string
  else mdl_name.

(** Line 117: [f'{out_path}/mdl_{mdl_name}.pkl.gz'] *)
Definition mdl_file (out_path mdl_name : string) (ty : spare_type)
    (to_predict : string) : string :=
  (out_path ++ "/mdl_" ++ model_name mdl_name ty to_predict
     ++ ".pkl.gz")%string.

(** [c in s] for a character. *)
Fixpoint has_char (c : ascii) (s : string) : bool :=
  match s with
  | EmptyString => false
  | String x rest => Ascii.eqb x c || has_char c rest
  end.

(** [s.split(sep)] for a separator of one character. *)
Fixpoint split (sep : ascii) (s : string) : list string :=
  match s with
  | EmptyString => [EmptyString]
  | String c rest =>
      if Ascii.eqb c sep then EmptyString :: split sep rest
      else match split sep rest with
           | h :: t => String c h :: t
           | [] => [String c EmptyString]
           end
  end.

(** Lines 198 and 201: [mdl_path.split('/')[-1].split('.')[0]] and
    [f'{out_path}/SPAREs_from_{mdl_name}.csv']. *)
Definition csv_file (out_path mdl_path : string) : string :=
  let mdl_name :=
    hd EmptyString
       (split "."%char (last (split "/"%char mdl_path) EmptyString)) in
  (out_path ++ "/SPAREs_from_" ++ mdl_name ++ ".csv")%string.

(** The entries that lines 152-160 log on the frame [df]: the age-range
    warning, the invalid-predictors warning and the note on matching
    training identifiers, each when its condition holds. *)
Definition test_notes (md : metaData) (ages : list Q)
    (X : list (list value)) (ptid train_ptid : list value)
    : list (level * message) :=
  (if flt (np_min ages) (fst (md_age_range md))
      || flt (snd (md_age_range md)) (np_max ages)
   then [(WARNING, OutsideAgeRange)] else [])
  ++ (if existsb (existsb isna) X then [(WARNING, InvalidPredictors)] else [])
  ++ (if 0 <? length (filter (fun v => isin v train_ptid) ptid)
      then [(INFO, MatchingTrainingIDs
                     (length (filter (fun v => isin v train_ptid) ptid)))]
      else []).

(** A computation that reads nothing of the world: its log entries and
    its outcome are the same in every world. *)
Definition reads_nothing (A : Type) (m : M A) : Prop :=
  exists es r, forall w, m w = (add_log w es, r).

(** A computation that logs an error exactly when it takes the
    [return logging.error(...)] exit, and then once, as its last entry. *)
Definition error_iff_failed (A : Type) (m : M A) : Prop :=
  forall w, exists es,
    log (fst (m w)) = log w ++ es /\
    match snd (m w) with
    | Failed => exists es' msg, es = es' ++ [(ERROR, msg)] /\ no_error es'
    | _ => no_error es
    end.

(** ** Sample inputs *)

Module Sample.

Local Open Scope string_scope.

(** A training table: identifier, age, sex, one region and a diagnosis. *)
Definition columns_dx : list (label * dtype) :=
  [(LStr "PTID", Object); (LStr "Age", Float64); (LStr "Sex", Object);
   (LStr "ROI_1", Float64); (LStr "DX", Object)].

Definition row_dx (id sex dx : string) (roi : Z) : list value :=
  [VStr id; VNum (inject_Z 70); VStr sex; VNum (inject_Z roi); VStr dx].

(** 12 controls and 10 patients. *)
Definition train_dx : table :=
  {| columns := columns_dx;
     rows := repeat (row_dx "s1" "F" "CN" 1) 6
             ++ repeat (row_dx "s2" "M" "CN" 1) 6
             ++ repeat (row_dx "s3" "F" "AD" 2) 10 |}.



Definition no_model : model :=
  {| mdl_scaler := []; mdl_mdl := []; mdl_cv_folds := [];
     mdl_bias_correct := None |}.

(** A trainer that predicts zero everywhere and reports the optima 1/2 and
    5/2 for C. *)
Definition trained (df : table) : trainer_output :=
  {| out_predicted := repeat (VNum (inject_Z 0)) (nrows df);
     out_mdl := no_model;
     out_perf := [];
     out_params := [("C_optimal", [(1 # 2)%Q; (5 # 2)%Q])] |}.

Definition run_SVC (df : table) (predictors : list string)
    (to_predict : string) (groups : list value) (grid : param_grid)
    (kernel : string) (n_repeats verbose : option nat) : trainer_output :=
  trained df.

Definition run_SVR (df : table) (predictors : list string)
    (to_predict : string) (grid : param_grid)
    (n_repeats verbose : option nat) : trainer_output :=
  trained df.

Definition df_sample (df : table) (n : nat) (seed : Z) : table :=
  {| columns := columns df; rows := firstn n (rows df) |}.

Definition store (df : table) (predictors : list string) : world :=
  {| frames := [df]; lists := [predictors]; log := []; calls := [] |}.

Definition dx_predictors : list string := ["Sex"; "ROI_1"; "DX"].

Definition dx_target : list value :=
  repeat (VStr "CN") 12 ++ repeat (VStr "AD") 10.


Definition dx_run : world * result (model * metaData) :=
  spare_train run_SVC run_SVR df_sample 0 0 "DX" "AD" "linear"
              (store train_dx dx_predictors).


Definition outcome (run : world * result (model * metaData))
    : model * metaData :=
  match snd run with
  | Ok out => out
  | _ => (no_model,
          {| md_spare_type := Classification; md_kernel := "";
             md_n := 0; md_age_range := (None, None); md_to_predict := "";
             md_predictors := []; md_categorical_var_map := None;
             md_pos_group := None; md_perf := []; md_params := [];
             md_cv_results := {| columns := []; rows := [] |} |})
  end.



(** An artifact with two folds on one predictor, a regression. *)
Definition identity_scaler : scaler := {| transform := map cell_of_value |}.

Definition linear_svm (c : Q) : svm :=
  {| coef_ := [c]; intercept_ := 1%Q; decision_function := fun _ => None |}.

Definition two_folds : model :=
  {| mdl_scaler := [identity_scaler; identity_scaler];
     mdl_mdl := [linear_svm 1; linear_svm 2];
     mdl_cv_folds := [([0], [1]); ([1], [0])];
     mdl_bias_correct :=
       Some {| bias_int := [1%Q; 1%Q]; bias_slope := [2%Q; 4%Q] |} |}.

Definition meta (predictors : list string) : metaData :=
  {| md_spare_type := Regression;
     md_kernel := "linear";
     md_n := 2;
     md_age_range := (Some (inject_Z 60), Some (inject_Z 80));
     md_to_predict := "Score";
     md_predictors := predictors;
     md_categorical_var_map := Some [];
     md_pos_group := None;
     md_perf := [];
     md_params := [];
     md_cv_results := {| columns := [(LStr "PTID", Object)];
                         rows := [[VStr "a"]; [VStr "b"]] |} |}.

(** An inference table that names the region of [ROI_101] by its suffix;
    its first row is a training participant, its last has no value. *)
Definition test_table : table :=
  {| columns := [(LStr "PTID", Object); (LStr "Age", Float64);
                 (LStr "101", Float64)];
     rows := [[VStr "a"; VNum (inject_Z 70); VNum (inject_Z 3)];
              [VStr "c"; VNum (inject_Z 71); VNum (inject_Z 5)];
              [VStr "b"; VNum (inject_Z 71); VNaN]] |}.



(** A frame with a two-valued column and its stored map. *)
Definition sex_table : table :=
  {| columns := [(LStr "PTID", Object); (LStr "Sex", Object)];
     rows := [[VStr "a"; VStr "F"]; [VStr "b"; VStr "M"];
              [VStr "c"; VStr "F"]] |}.


End Sample.

(** ** More sample inputs *)

Module Cases.

Local Open Scope string_scope.

(** [Sample.train_dx] with one more patient, whose region has no value. *)
Definition train_gap : table :=
  {| columns := Sample.columns_dx;
     rows := rows Sample.train_dx
             ++ [[VStr "s4"; VNum (inject_Z 70); VStr "F"; VNaN;
                  VStr "AD"]] |}.

Definition gap_run : world * result (model * metaData) :=
  spare_train Sample.run_SVC Sample.run_SVR Sample.df_sample 0 0
              "DX" "AD" "linear"
              (Sample.store train_gap Sample.dx_predictors).

(** [df[['Sex', 'ROI_1']]] of that table. *)
Definition gap_X : list (list value) :=
  Eval vm_compute in
    match frame_values train_gap [LStr "Sex"; LStr "ROI_1"] with
    | Some X => X
    | None => []
    end.

(** 30 rows of one sex. *)
Definition one_sex : table :=
  {| columns := Sample.columns_dx;
     rows := repeat (Sample.row_dx "s1" "F" "CN" 1) 30 |}.

(** [Sample.test_table] with the region under its expected name. *)
Definition test_named : table :=
  {| columns := [(LStr "PTID", Object); (LStr "Age", Float64);
                 (LStr "ROI_101", Float64)];
     rows := rows Sample.test_table |}.

Definition named_run : world * result (list cell) :=
  spare_test 0 (Sample.two_folds, Sample.meta ["ROI_101"])
             (Sample.store test_named []).

Definition named_scores : list cell :=
  Eval vm_compute in
    match snd named_run with Ok scores => scores | _ => [] end.

(** The same call on an artifact without folds. *)
Definition empty_run : world * result (list cell) :=
  spare_test 0 (Sample.no_model, Sample.meta ["ROI_101"])
             (Sample.store test_named []).

(** The frame [Sample.test_table] after the reconciliation with the
    expected predictor [ROI_101]. *)
Definition reconciled : world * result table :=
  reconcile_predictors ["ROI_101"] Sample.test_table
                       (Sample.store Sample.test_table []).

Definition reconciled_table : table :=
  Eval vm_compute in
    match snd reconciled with Ok t => t | _ => Sample.test_table end.

End Cases.

(* ================================================================== *)
(** * Properties *)

(** ** Properties of the grid *)







(** ** Running the monad *)

Lemma add_log_nil (w : world) : add_log w [] = w.
Proof. destruct w; unfold add_log; cbn. rewrite app_nil_r. reflexivity. Qed.

Lemma add_log_app (w : world) (a b : list (level * message)) :
  add_log (add_log w a) b = add_log w (a ++ b).
Proof. unfold add_log; cbn. rewrite app_assoc. reflexivity. Qed.

Lemma bind_ok (A B : Type) (m : M A) (k : A -> M B) (w w1 : world) (a : A) :
  m w = (w1, Ok a) -> bind m k w = k a w1.
Proof. intros E. unfold bind. rewrite E. reflexivity. Qed.
Arguments bind_ok {A B m} k {w w1 a} _.

Lemma bind_failed (A B : Type) (m : M A) (k : A -> M B) (w w1 : world) :
  m w = (w1, Failed) -> bind m k w = (w1, Failed).
Proof. intros E. unfold bind. rewrite E. reflexivity. Qed.
Arguments bind_failed {A B m} k {w w1} _.

Lemma bind_raised (A B : Type) (m : M A) (k : A -> M B) (w w1 : world)
    (e : exn) :
  m w = (w1, Raised e) -> bind m k w = (w1, Raised e).
Proof. intros E. unfold bind. rewrite E. reflexivity. Qed.
Arguments bind_raised {A B m} k {w w1 e} _.

Lemma bind_ret_run (A B : Type) (a : A) (k : A -> M B) (w : world) :
  bind (ret a) k w = k a w.
Proof. reflexivity. Qed.

Lemma bind_logging_run (B : Type) (lv : level) (msg : message)
    (k : unit -> M B) (w : world) :
  bind (logging lv msg) k w = k tt (add_log w [(lv, msg)]).
Proof. reflexivity. Qed.

(** A successful sequence has a successful first half. *)
Lemma bind_inv_ok (A B : Type) (m : M A) (k : A -> M B) (w w2 : world)
    (b : B) :
  bind m k w = (w2, Ok b) ->
  exists w1 a, m w = (w1, Ok a) /\ k a w1 = (w2, Ok b).
Proof.
  unfold bind. destruct (m w) as [w1 [a| |e]]; intros E; try discriminate.
  exists w1, a. split; [reflexivity | exact E].
Qed.

Lemma try_inv_ok (A : Type) (e : exn) (o : option A) (w w1 : world) (a : A) :
  try_ e o w = (w1, Ok a) -> o = Some a /\ w1 = w.
Proof.
  destruct o as [x|]; cbn; intros E; inversion E; subst; auto.
Qed.

(** ** Labels, sets of names and dictionaries *)

Lemma label_eqb_eq (a b : label) : label_eqb a b = true <-> a = b.
Proof.
  destruct a as [s|x], b as [t|y]; cbn; split; intros H;
    try discriminate; try congruence.
  - apply String.eqb_eq in H. congruence.
  - inversion H. apply String.eqb_refl.
  - apply Z.eqb_eq in H. congruence.
  - inversion H. apply Z.eqb_refl.
Qed.

Lemma mem_label_In (l : label) (ls : list label) :
  mem_label l ls = true <-> In l ls.
Proof.
  unfold mem_label. rewrite existsb_exists. split.
  - intros (x & Hx & E). apply label_eqb_eq in E. subst. exact Hx.
  - intros H. exists l. split; [exact H | apply label_eqb_eq; reflexivity].
Qed.

Lemma insert_sorted_In (a x : string) (l : list string) :
  In a (insert_sorted x l) <-> a = x \/ In a l.
Proof.
  induction l as [|y rest IH]; cbn.
  - intuition.
  - destruct (String.eqb_spec x y) as [->|Hxy].
    + cbn. intuition.
    + destruct (String.ltb x y); cbn; [intuition|].
      rewrite IH. intuition.
Qed.

Lemma sorted_set_In (a : string) (l : list string) :
  In a (sorted_set l) <-> In a l.
Proof.
  induction l as [|x rest IH]; cbn; [tauto|].
  rewrite insert_sorted_In, IH. intuition.
Qed.

Lemma missing_predictors_In (predictors : list string) (df : table)
    (a : string) :
  In a (missing_predictors predictors df)
  <-> In a predictors /\ ~ In (LStr a) (labels df).
Proof.
  unfold missing_predictors. rewrite sorted_set_In, filter_In.
  rewrite negb_true_iff, <- not_true_iff_false, mem_label_In. tauto.
Qed.

Lemma issubset_forall (names : list label) (df : table) :
  issubset names df = true <-> forall l, In l names -> In l (labels df).
Proof.
  unfold issubset. rewrite forallb_forall.
  split; intros H l Hl; apply mem_label_In, H, Hl.
Qed.


Section DictFacts.
Variables (K V : Type) (keqb : K -> K -> bool).
Hypothesis keqb_eq : forall a b, keqb a b = true <-> a = b.

Lemma keqb_refl (k : K) : keqb k k = true.
Proof. apply keqb_eq. reflexivity. Qed.

Lemma keqb_neq (a b : K) : a <> b -> keqb a b = false.
Proof.
  intros H. destruct (keqb a b) eqn:E; [|reflexivity].
  apply keqb_eq in E. contradiction.
Qed.

Lemma dict_get_set_same (k : K) (v : V) (d : list (K * V)) :
  dict_get keqb k (dict_set keqb k v d) = Some v.
Proof.
  induction d as [|[k' v'] rest IH]; cbn.
  - rewrite keqb_refl. reflexivity.
  - destruct (keqb k k') eqn:E; cbn; rewrite E; [reflexivity | exact IH].
Qed.

Lemma dict_get_set_other (k k1 : K) (v : V) (d : list (K * V)) :
  k <> k1 ->
  dict_get keqb k (dict_set keqb k1 v d) = dict_get keqb k d.
Proof.
  intros Hne. induction d as [|[k' v'] rest IH]; cbn.
  - rewrite keqb_neq by exact Hne. reflexivity.
  - destruct (keqb k1 k') eqn:E; cbn.
    + apply keqb_eq in E. subst k'.
      rewrite keqb_neq by exact Hne. reflexivity.
    + destruct (keqb k k'); [reflexivity | exact IH].
Qed.

Lemma dict_get_fold_other (k : K) (pairs d : list (K * V)) :
  ~ In k (map fst pairs) ->
  dict_get keqb k
    (fold_left (fun d kv => dict_set keqb (fst kv) (snd kv) d) pairs d)
  = dict_get keqb k d.
Proof.
  revert d. induction pairs as [|[k1 v1] rest IH]; intros d Hn; cbn.
  - reflexivity.
  - rewrite IH by (intros H; apply Hn; right; exact H).
    apply dict_get_set_other. intros ->. apply Hn. left. reflexivity.
Qed.

(** With pairwise distinct keys, [dict(pairs)] binds every key to the
    value it is paired with. *)
Lemma dict_of_get (k : K) (v : V) (pairs : list (K * V)) :
  NoDup (map fst pairs) -> In (k, v) pairs ->
  dict_get keqb k (dict_of keqb pairs) = Some v.
Proof.
  unfold dict_of. generalize (@nil (K * V)) as d.
  induction pairs as [|[k1 v1] rest IH]; intros d Hnd Hin; [destruct Hin|].
  cbn in Hnd |- *. inversion Hnd as [|? ? Hk1 Hrest]; subst.
  destruct Hin as [E|Hin].
  - inversion E; subst. rewrite dict_get_fold_other by exact Hk1.
    apply dict_get_set_same.
  - apply IH; assumption.
Qed.
End DictFacts.

Lemma map_fst_combine (A B : Type) (l : list A) (l' : list B) :
  length l = length l' -> map fst (combine l l') = l.
Proof.
  revert l'. induction l as [|a l IH]; intros [|b l'] H; cbn in *;
    try discriminate; [reflexivity|].
  f_equal. apply IH. lia.
Qed.


(** ** Reconciliation of the predictor names (lines 133-150) *)

Lemma labels_rename (df : table) (mapper : list (label * string)) :
  labels (rename df mapper)
  = map (fun l => match dict_get label_eqb l mapper with
                  | Some name => LStr name
                  | None => l
                  end) (labels df).
Proof. unfold labels, rename; cbn. rewrite !map_map. reflexivity. Qed.


Lemma try_convention_run (roi_name : list string) (roi_alter : list label)
    (df : table) (w : world) :
  exists infos,
    Forall (fun e => fst e = INFO) infos /\
    try_convention roi_name roi_alter df w
    = (add_log w infos, Ok (apply_convention roi_name roi_alter df)).
Proof.
  unfold try_convention, apply_convention.
  destruct (issubset roi_alter df).
  - eexists. split; [|reflexivity]. repeat constructor.
  - exists []. split; [constructor|]. rewrite add_log_nil. reflexivity.
Qed.


Lemma reconcile_run (predictors : list string) (df : table) (w : world)
    (ids : list Z) :
  issubset (map LStr predictors) df = false ->
  existsb (fun a => negb (has_underscore a))
          (missing_predictors predictors df) = false ->
  int_fields (filter has_underscore predictors) = Some ids ->
  let df' := conventions_applied (filter has_underscore predictors) ids df in
  exists infos,
    Forall (fun e => fst e = INFO) infos /\
    reconcile_predictors predictors df w
    = if 0 <? length (missing_predictors predictors df')
      then (add_log w (infos ++ [(ERROR, PredictorsNotFound
                                     (missing_predictors predictors df'))]),
            Failed)
      else (add_log w infos, Ok df').
Proof.
  intros Hsub Hus Hids df'. unfold reconcile_predictors.
  rewrite Hsub, Hus, Hids.
  set (roi := filter has_underscore predictors) in *.
  destruct (try_convention_run roi (map LInt ids) df w) as (i1 & F1 & E1).
  rewrite (bind_ok _ E1).
  destruct (try_convention_run roi (raw_fields roi)
              (apply_convention roi (map LInt ids) df) (add_log w i1))
    as (i2 & F2 & E2).
  rewrite (bind_ok _ E2).
  destruct (try_convention_run roi (R_fields roi)
              (apply_convention roi (raw_fields roi)
                 (apply_convention roi (map LInt ids) df))
              (add_log (add_log w i1) i2))
    as (i3 & F3 & E3).
  rewrite (bind_ok _ E3).
  fold (conventions_applied roi ids df). fold df'.
  exists (i1 ++ i2 ++ i3). split.
  - apply Forall_app; split; [exact F1|].
    apply Forall_app; split; assumption.
  - rewrite !add_log_app.
    destruct (0 <? length (missing_predictors predictors df')).
    + unfold fail. rewrite add_log_app, <- !app_assoc. reflexivity.
    + reflexivity.
Qed.



(** ** Columns of a frame *)

Lemma index_of_Some (l : label) (ls : list label) (i : nat) :
  index_of l ls = Some i -> nth_error ls i = Some l.
Proof.
  revert i. induction ls as [|x rest IH]; intros i H; cbn in H;
    [discriminate|].
  destruct (label_eqb l x) eqn:E.
  - inversion H; subst. apply label_eqb_eq in E. subst. reflexivity.
  - destruct (index_of l rest) as [j|]; [|discriminate].
    inversion H; subst. cbn. apply IH. reflexivity.
Qed.

Lemma index_of_In (l : label) (ls : list label) :
  In l ls -> exists i, index_of l ls = Some i.
Proof.
  induction ls as [|x rest IH]; intros H; [destruct H|]. cbn.
  destruct (label_eqb l x) eqn:E; [exists 0; reflexivity|].
  destruct H as [->|H].
  - rewrite (proj2 (label_eqb_eq l l) eq_refl) in E. discriminate.
  - destruct (IH H) as [i Hi]. rewrite Hi. exists (S i). reflexivity.
Qed.

Lemma index_of_lt (l : label) (ls : list label) (i : nat) :
  index_of l ls = Some i -> i < length ls.
Proof.
  intros H. apply index_of_Some in H.
  apply nth_error_Some. congruence.
Qed.

Lemma replace_nth_length (A : Type) (i : nat) (x : A) (l : list A) :
  length (replace_nth i x l) = length l.
Proof.
  revert i. induction l as [|h t IH]; intros [|j]; cbn; auto.
Qed.

Lemma nth_replace_nth_same (A : Type) (i : nat) (x d : A) (l : list A) :
  i < length l -> nth i (replace_nth i x l) d = x.
Proof.
  revert i. induction l as [|h t IH]; intros [|j] H; cbn in *;
    try lia; [reflexivity|]. apply IH. lia.
Qed.

Lemma nth_replace_nth_other (A : Type) (i j : nat) (x d : A) (l : list A) :
  i <> j -> nth j (replace_nth i x l) d = nth j l d.
Proof.
  revert i j. induction l as [|h t IH]; intros [|i] [|j] H; cbn;
    try reflexivity; try lia. apply IH. lia.
Qed.

Lemma nth_error_replace_nth_same (A : Type) (i : nat) (x : A) (l : list A) :
  i < length l -> nth_error (replace_nth i x l) i = Some x.
Proof.
  revert i. induction l as [|h t IH]; intros [|j] H; cbn in *;
    try lia; [reflexivity|]. apply IH. lia.
Qed.

Lemma nth_error_replace_nth_other (A : Type) (i j : nat) (x : A)
    (l : list A) :
  i <> j -> nth_error (replace_nth i x l) j = nth_error l j.
Proof.
  revert i j. induction l as [|h t IH]; intros [|i] [|j] H; cbn;
    try reflexivity; try lia. apply IH. lia.
Qed.

Lemma map_replace_nth (A B : Type) (f : A -> B) (i : nat) (x : A)
    (l : list A) :
  map f (replace_nth i x l) = replace_nth i (f x) (map f l).
Proof.
  revert i. induction l as [|h t IH]; intros [|j]; cbn; try reflexivity.
  f_equal. apply IH.
Qed.

Lemma replace_nth_id (A : Type) (i : nat) (x : A) (l : list A) :
  nth_error l i = Some x -> replace_nth i x l = l.
Proof.
  revert i. induction l as [|h t IH]; intros [|j] H; cbn in *;
    try discriminate.
  - congruence.
  - f_equal. apply IH. exact H.
Qed.

Lemma map_snd_combine (A B : Type) (l : list A) (l' : list B) :
  length l = length l' -> map snd (combine l l') = l'.
Proof.
  revert l'. induction l as [|a l IH]; intros [|b l'] H; cbn in *;
    try discriminate; [reflexivity|].
  f_equal. apply IH. lia.
Qed.

Lemma series_length (df : table) (l : label) (col : list value) :
  series df l = Some col -> length col = nrows df.
Proof.
  unfold series, nrows. destruct (index_of l (labels df)); [|discriminate].
  intros H. inversion H. apply length_map.
Qed.

Lemma series_In (df : table) (l : label) :
  In l (labels df) -> exists col, series df l = Some col.
Proof.
  intros H. destruct (index_of_In _ _ H) as [i Hi].
  unfold series. rewrite Hi. eexists. reflexivity.
Qed.

Lemma series_map_length (m : cat_map) (col : list value) :
  length (series_map m col) = length col.
Proof. apply length_map. Qed.

Section SetColumn.
Variables (df : table) (l : label) (d : dtype) (vals : list value).
Hypothesis Hl : In l (labels df).
Hypothesis Hlen : length vals = nrows df.

Lemma labels_set_column : labels (set_column df l d vals) = labels df.
Proof.
  destruct (index_of_In _ _ Hl) as [i Hi].
  unfold set_column. rewrite Hi. unfold labels at 1. cbn.
  rewrite map_replace_nth. cbn. apply replace_nth_id.
  apply index_of_Some. exact Hi.
Qed.

Lemma nrows_set_column : nrows (set_column df l d vals) = nrows df.
Proof.
  destruct (index_of_In _ _ Hl) as [i Hi].
  unfold set_column. rewrite Hi. unfold nrows in *. cbn.
  rewrite length_map, length_combine. lia.
Qed.

Lemma series_set_column_other (l' : label) :
  l' <> l -> series (set_column df l d vals) l' = series df l'.
Proof.
  intros Hne. unfold series. rewrite labels_set_column.
  destruct (index_of l' (labels df)) as [j|] eqn:Hj; [|reflexivity].
  destruct (index_of_In _ _ Hl) as [i Hi].
  assert (Hij : i <> j).
  { intros ->. apply index_of_Some in Hi, Hj. congruence. }
  unfold set_column. rewrite Hi. cbn. f_equal.
  rewrite map_map.
  rewrite <- (map_fst_combine (rows df) vals) at 2
    by (unfold nrows in Hlen; lia).
  rewrite map_map. apply map_ext. intros [r v]. cbn.
  apply nth_replace_nth_other. exact Hij.
Qed.

Hypothesis Hwf : wf_table df.

Lemma series_set_column_same : series (set_column df l d vals) l = Some vals.
Proof.
  unfold series. rewrite labels_set_column.
  destruct (index_of_In _ _ Hl) as [i Hi]. rewrite Hi.
  unfold set_column. rewrite Hi. cbn. f_equal.
  rewrite map_map.
  rewrite <- (map_snd_combine (rows df) vals) at 2
    by (unfold nrows in Hlen; lia).
  apply map_ext_in. intros [r v] Hrv. cbn.
  apply nth_replace_nth_same.
  apply in_combine_l in Hrv.
  unfold wf_table in Hwf. rewrite Forall_forall in Hwf.
  rewrite (Hwf r Hrv). apply index_of_lt in Hi.
  unfold labels in Hi. rewrite length_map in Hi. exact Hi.
Qed.

Lemma wf_set_column : wf_table (set_column df l d vals).
Proof.
  destruct (index_of_In _ _ Hl) as [i Hi].
  unfold wf_table, set_column in *. rewrite Hi. cbn.
  apply Forall_forall. intros r Hr.
  apply in_map_iff in Hr. destruct Hr as ([r0 v] & <- & Hrv). cbn.
  rewrite !replace_nth_length.
  rewrite Forall_forall in Hwf. apply Hwf.
  apply in_combine_l in Hrv. exact Hrv.
Qed.
End SetColumn.

(** ** The store *)

Lemma replace_nth_twice (A : Type) (i : nat) (x y : A) (l : list A) :
  replace_nth i y (replace_nth i x l) = replace_nth i y l.
Proof.
  revert i. induction l as [|h t IH]; intros [|j]; cbn; try reflexivity.
  f_equal. apply IH.
Qed.

Lemma put_frame_twice (d : ref) (t1 t2 : table) (w : world) :
  put_frame d t2 (put_frame d t1 w) = put_frame d t2 w.
Proof. unfold put_frame; cbn. rewrite replace_nth_twice. reflexivity. Qed.

Lemma put_frame_same (d : ref) (t : table) (w : world) :
  nth_error (frames w) d = Some t -> put_frame d t w = w.
Proof.
  intros H. unfold put_frame. rewrite (replace_nth_id _ _ H).
  destruct w; reflexivity.
Qed.

Lemma put_frame_get (d : ref) (t : table) (w : world) :
  d < length (frames w) -> nth_error (frames (put_frame d t w)) d = Some t.
Proof. intros H. cbn. apply nth_error_replace_nth_same. exact H. Qed.

Lemma nth_error_lt (A : Type) (l : list A) (i : nat) (x : A) :
  nth_error l i = Some x -> i < length l.
Proof. intros H. apply nth_error_Some. congruence. Qed.

Lemma get_frame_run (d : ref) (t : table) (w : world) :
  nth_error (frames w) d = Some t -> get_frame d w = (w, Ok t).
Proof. intros H. unfold get_frame. rewrite H. reflexivity. Qed.

(** ** Encoding of the categorical predictors (lines 76-83) *)

Lemma value_eqb_refl (v : value) : value_eqb v v = true.
Proof.
  destruct v as [q|s|]; cbn; [|apply String.eqb_refl|reflexivity].
  apply Qeq_bool_iff. reflexivity.
Qed.

Lemma unique_from_nil (seen l : list value) :
  unique_from seen l = [] -> Forall (fun v => isin v seen = true) l.
Proof.
  induction l as [|x rest IH]; cbn; intros H; [constructor|].
  destruct (isin x seen) eqn:E; [|discriminate].
  constructor; [exact E | apply IH, H].
Qed.

(** First-seen order: when a column has exactly the two distinct values
    [a] and [b], it starts with [a], [b] comes after copies of [a] only,
    and nothing else follows. *)
Lemma unique_two (col : list value) (a b : value) :
  unique col = [a; b] ->
  value_eqb b a = false /\
  exists pre post,
    col = a :: pre ++ b :: post /\
    Forall (fun v => value_eqb v a = true) pre /\
    Forall (fun v => isin v [b; a] = true) post.
Proof.
  unfold unique. destruct col as [|x rest]; cbn; [discriminate|].
  intros H. inversion H as [[Hx Hrest]]. subst x. clear H.
  induction rest as [|y r IH]; cbn in Hrest; [discriminate|].
  rewrite orb_false_r in Hrest.
  destruct (value_eqb y a) eqn:E.
  - destruct (IH Hrest) as (Hba & pre & post & Hc & Hpre & Hpost).
    split; [exact Hba|]. exists (y :: pre), post.
    inversion Hc as [Hr]. split; [reflexivity|].
    split; [constructor; assumption | exact Hpost].
  - inversion Hrest as [[Hy Hnil]]. subst y.
    split; [exact E|]. exists [], r.
    split; [reflexivity|]. split; [constructor|].
    exact (@unique_from_nil [b; a] r Hnil).
Qed.

(** The codes of such a column: 1 where the entry is the first-seen value,
    2 elsewhere. *)
Lemma series_map_two (col : list value) (a b : value) :
  unique col = [a; b] ->
  series_map (two_codes (unique col)) col
  = map (fun v => if value_eqb v a then VNum (inject_Z 1)
                  else VNum (inject_Z 2)) col.
Proof.
  intros Hu.
  destruct (unique_two _ Hu) as (Hba & pre & post & Hc & Hpre & Hpost).
  rewrite Hu. unfold two_codes, series_map. cbn [nth].
  assert (Hall : Forall (fun v => isin v [b; a] = true) col).
  { subst col. constructor.
    - cbn. rewrite value_eqb_refl, !orb_true_r. reflexivity.
    - apply Forall_app. split.
      + eapply Forall_impl; [|exact Hpre]. cbn. intros v ->.
        rewrite !orb_true_r. reflexivity.
      + constructor; [|exact Hpost].
        cbn. rewrite value_eqb_refl. reflexivity. }
  apply map_ext_in. intros v Hv. cbn.
  rewrite Forall_forall in Hall. specialize (Hall v Hv). cbn in Hall.
  destruct (value_eqb v a); [reflexivity|].
  rewrite orb_false_r in Hall. rewrite Hall. reflexivity.
Qed.

Lemma encode_categoricals_spec (vars : list string) :
  forall (d : ref) (cmap0 : list (string * option cat_map)) (w : world)
         (df : table),
    nth_error (frames w) d = Some df ->
    wf_table df ->
    NoDup vars ->
    (forall var, In var vars -> In (LStr var) (labels df)) ->
    exists cmap df',
      encode_categoricals d vars cmap0 w = (put_frame d df' w, Ok cmap) /\
      labels df' = labels df /\
      wf_table df' /\
      nrows df' = nrows df /\
      (forall l, (forall var, In var vars -> l <> LStr var) ->
                 series df' l = series df l) /\
      (forall var, ~ In var vars ->
                   dict_get String.eqb var cmap
                   = dict_get String.eqb var cmap0) /\
      (forall var col,
          In var vars -> series df (LStr var) = Some col ->
          if length (unique col) =? 2
          then dict_get String.eqb var cmap
               = Some (Some (two_codes (unique col))) /\
               series df' (LStr var)
               = Some (series_map (two_codes (unique col)) col)
          else dict_get String.eqb var cmap = dict_get String.eqb var cmap0 /\
               series df' (LStr var) = Some col).
Proof.
  induction vars as [|var rest IH]; intros d cmap0 w df Hd Hwf Hnd Hin.
  - exists cmap0, df. cbn. rewrite (@put_frame_same d df w Hd).
    repeat split; auto. intros var col [].
  - inversion Hnd as [|? ? Hvar Hrest]; subst.
    assert (Hl : In (LStr var) (labels df)) by (apply Hin; left; reflexivity).
    destruct (@series_In df (LStr var) Hl) as [col Hcol].
    cbn [encode_categoricals].
    rewrite (bind_ok _ (@get_frame_run d df w Hd)), Hcol. cbn [try_].
    unfold ret at 1. unfold bind at 1.
    destruct (length (unique col) =? 2) eqn:E2.
    + set (m := two_codes (unique col)).
      set (df1 := set_column df (LStr var) Int64 (series_map m col)).
      assert (Hlen : length (series_map m col) = nrows df).
      { rewrite series_map_length.
        apply (@series_length df (LStr var) col Hcol). }
      unfold bind at 1, set_frame at 1.
      assert (Hd1 : nth_error (frames (put_frame d df1 w)) d = Some df1).
      { apply put_frame_get. apply (@nth_error_lt _ (frames w) d df Hd). }
      destruct (IH d (dict_set String.eqb var (Some m) cmap0)
                  (put_frame d df1 w) df1 Hd1)
        as (cmap & df' & Erun & Hlab & Hwf' & Hn & Hser & Hout & Hvars).
      * apply wf_set_column; assumption.
      * exact Hrest.
      * intros v Hv. unfold df1. rewrite labels_set_column by assumption.
        apply Hin. right. exact Hv.
      * exists cmap, df'. rewrite Erun, put_frame_twice.
        split; [reflexivity|].
        split; [rewrite Hlab; apply labels_set_column; assumption|].
        split; [exact Hwf'|].
        split; [rewrite Hn; apply nrows_set_column; assumption|].
        split; [|split].
        -- intros l Hl'.
           rewrite Hser by (intros v Hv; apply Hl'; right; exact Hv).
           apply series_set_column_other; try assumption.
           apply Hl'. left. reflexivity.
        -- intros v Hv. rewrite Hout by (intros H; apply Hv; right; exact H).
           apply dict_get_set_other; [exact String.eqb_eq|].
           intros ->. apply Hv. left. reflexivity.
        -- intros v c [->|Hv] Hc.
           ++ rewrite Hcol in Hc. inversion Hc; subst c. rewrite E2.
              split.
              ** rewrite Hout by exact Hvar.
                 apply dict_get_set_same. exact String.eqb_eq.
              ** rewrite Hser by (intros v' Hv' E; inversion E; subst;
                                  contradiction).
                 apply series_set_column_same; assumption.
           ++ assert (Hne : LStr v <> LStr var).
              { intros E. inversion E; subst. contradiction. }
              assert (Hc1 : series df1 (LStr v) = Some c).
              { unfold df1. rewrite series_set_column_other by assumption.
                exact Hc. }
              specialize (Hvars v c Hv Hc1).
              destruct (length (unique c) =? 2); [exact Hvars|].
              destruct Hvars as [Hg Hs]. split; [|exact Hs].
              rewrite Hg. apply dict_get_set_other; [exact String.eqb_eq|].
              intros ->. contradiction.
    + destruct (IH d cmap0 w df Hd Hwf Hrest)
        as (cmap & df' & Erun & Hlab & Hwf' & Hn & Hser & Hout & Hvars).
      * intros v Hv. apply Hin. right. exact Hv.
      * exists cmap, df'. rewrite Erun.
        split; [reflexivity|]. split; [exact Hlab|].
        split; [exact Hwf'|]. split; [exact Hn|].
        split; [|split].
        -- intros l Hl'. apply Hser. intros v Hv. apply Hl'. right. exact Hv.
        -- intros v Hv. apply Hout. intros H. apply Hv. right. exact H.
        -- intros v c [->|Hv] Hc.
           ++ rewrite Hcol in Hc. inversion Hc; subst c. rewrite E2.
              split; [apply Hout; exact Hvar|].
              rewrite Hser by (intros v' Hv' E; inversion E; subst;
                               contradiction).
              exact Hcol.
           ++ apply Hvars; assumption.
Qed.

(** Whatever its outcome, the encoding replaces the frame object [d] by a
    frame with the same rows count and labels, and touches nothing else. *)
Lemma encode_categoricals_effect (vars : list string) :
  forall (d : ref) (cmap0 : list (string * option cat_map)) (w : world)
         (df : table),
    nth_error (frames w) d = Some df ->
    exists df',
      fst (encode_categoricals d vars cmap0 w) = put_frame d df' w /\
      nrows df' = nrows df /\ labels df' = labels df.
Proof.
  induction vars as [|var rest IH]; intros d cmap0 w df Hd;
    cbn [encode_categoricals].
  - exists df. cbn. rewrite (@put_frame_same d df w Hd). auto.
  - rewrite (bind_ok _ (@get_frame_run d df w Hd)).
    destruct (series df (LStr var)) as [col|] eqn:Hcol; cbn [try_].
    + rewrite bind_ret_run.
      destruct (length (unique col) =? 2).
      * assert (Hl : In (LStr var) (labels df)).
        { unfold series in Hcol.
          destruct (index_of (LStr var) (labels df)) as [i|] eqn:Hi;
            [|discriminate].
          apply index_of_Some in Hi. eapply nth_error_In. exact Hi. }
        assert (Hlen : length (series_map (two_codes (unique col)) col)
                       = nrows df).
        { rewrite series_map_length.
          apply (@series_length df (LStr var) col Hcol). }
        unfold bind at 1, set_frame at 1.
        set (df1 := set_column df (LStr var) Int64 _).
        assert (Hd1 : nth_error (frames (put_frame d df1 w)) d = Some df1).
        { apply put_frame_get. apply (@nth_error_lt _ (frames w) d df Hd). }
        destruct (IH d (dict_set String.eqb var
                          (Some (two_codes (unique col))) cmap0)
                    (put_frame d df1 w) df1 Hd1) as (df' & E & Hn & Hlab).
        exists df'. rewrite E, put_frame_twice. split; [reflexivity|].
        unfold df1 in Hn, Hlab.
        rewrite nrows_set_column in Hn by assumption.
        rewrite labels_set_column in Hlab by assumption. auto.
      * apply IH. exact Hd.
    + exists df. cbn. rewrite (@put_frame_same d df w Hd). auto.
Qed.

Lemma convert_categoricals_effect (d : ref) (predictors : list string)
    (w : world) (df : table) :
  nth_error (frames w) d = Some df ->
  exists df',
    fst (convert_categoricals d predictors w) = put_frame d df' w /\
    nrows df' = nrows df /\ labels df' = labels df.
Proof.
  intros Hd. unfold convert_categoricals.
  rewrite (bind_ok _ (@get_frame_run d df w Hd)).
  apply encode_categoricals_effect. exact Hd.
Qed.

Lemma convert_categoricals_spec (d : ref) (predictors : list string)
    (w : world) (df : table) :
  nth_error (frames w) d = Some df ->
  wf_table df ->
  NoDup predictors ->
  (forall var, In var predictors -> In (LStr var) (labels df)) ->
  exists cmap df',
    convert_categoricals d predictors w = (put_frame d df' w, Ok cmap) /\
    labels df' = labels df /\
    nrows df' = nrows df /\
    (forall var col a b,
        In var predictors -> is_object df var = true ->
        series df (LStr var) = Some col -> unique col = [a; b] ->
        dict_get String.eqb var cmap = Some (Some [(a, 1%Z); (b, 2%Z)]) /\
        series df' (LStr var)
        = Some (map (fun v => if value_eqb v a then VNum (inject_Z 1)
                              else VNum (inject_Z 2)) col) /\
        exists pre post,
          col = a :: pre ++ b :: post /\
          Forall (fun v => value_eqb v a = true) pre) /\
    (forall l col,
        series df l = Some col ->
        (forall var, l = LStr var ->
                     ~ (In var predictors /\ is_object df var = true /\
                        length (unique col) = 2)) ->
        series df' l = Some col).
Proof.
  intros Hd Hwf Hnd Hin. unfold convert_categoricals.
  rewrite (bind_ok _ (@get_frame_run d df w Hd)).
  set (vars := filter (is_object df) predictors).
  destruct (@encode_categoricals_spec vars d
              (dict_of String.eqb (map (fun v => (v, None)) vars)) w df
              Hd Hwf)
    as (cmap & df' & Erun & Hlab & _ & Hn & Hser & _ & Hvars).
  { apply NoDup_filter. exact Hnd. }
  { intros v Hv. apply filter_In in Hv. apply Hin, Hv. }
  exists cmap, df'. split; [exact Erun|]. split; [exact Hlab|].
  split; [exact Hn|]. split.
  - intros var col a b Hv Hobj Hcol Hu.
    assert (Hv' : In var vars) by (apply filter_In; split; assumption).
    specialize (Hvars var col Hv' Hcol).
    rewrite Hu in Hvars. cbn [length Nat.eqb] in Hvars.
    destruct Hvars as [Hg Hs].
    split; [exact Hg|]. split.
    + rewrite Hs, <- Hu. f_equal. apply (@series_map_two col a b Hu).
    + destruct (@unique_two col a b Hu) as (_ & pre & post & Hc & Hpre & _).
      exists pre, post. split; assumption.
  - intros l col Hcol Hnot.
    destruct l as [s|z].
    + destruct (in_dec string_dec s vars) as [Hs|Hs].
      * specialize (Hvars s col Hs Hcol).
        destruct (length (unique col) =? 2) eqn:E2.
        -- exfalso. apply (Hnot s eq_refl).
           apply filter_In in Hs. destruct Hs as [Hs Ho].
           repeat split; try assumption. apply Nat.eqb_eq. exact E2.
        -- apply Hvars.
      * rewrite Hser; [exact Hcol|].
        intros v Hv E. inversion E; subst. contradiction.
    + rewrite Hser; [exact Hcol|]. intros v Hv E. discriminate.
Qed.

(** ** Replay of the stored maps (lines 163-171) *)

Lemma replay_categoricals_ok (entries : list (string * option cat_map)) :
  forall (df : table) (w : world),
    wf_table df ->
    NoDup (map fst entries) ->
    (forall var m, In (var, Some m) entries ->
       exists col, series df (LStr var) = Some col /\
                   forallb (fun v => isin v (map fst m)) col = true) ->
    exists df',
      replay_categoricals entries df w = (w, Ok df') /\
      labels df' = labels df /\
      wf_table df' /\
      nrows df' = nrows df /\
      (forall l, (forall var m, In (var, Some m) entries -> l <> LStr var) ->
                 series df' l = series df l) /\
      (forall var m col,
          In (var, Some m) entries -> series df (LStr var) = Some col ->
          series df' (LStr var) = Some (series_map m col)).
Proof.
  induction entries as [|[var [m|]] rest IH]; intros df w Hwf Hnd Hall.
  - exists df. cbn. repeat split; auto. intros var m col [].
  - inversion Hnd as [|? ? Hvar Hrest]; subst.
    destruct (Hall var m (or_introl eq_refl)) as (col & Hcol & Hkeys).
    assert (Hl : In (LStr var) (labels df)).
    { unfold series in Hcol.
      destruct (index_of (LStr var) (labels df)) as [i|] eqn:Hi;
        [|discriminate].
      apply index_of_Some in Hi. eapply nth_error_In. exact Hi. }
    assert (Hlen : length (series_map m col) = nrows df).
    { rewrite series_map_length.
      apply (@series_length df (LStr var) col Hcol). }
    set (df1 := set_column df (LStr var) Int64 (series_map m col)).
    assert (Hother : forall v, In v (map fst rest) ->
                               series df1 (LStr v) = series df (LStr v)).
    { intros v Hv. apply series_set_column_other; try assumption.
      intros E. inversion E; subst. contradiction. }
    destruct (IH df1 w) as (df' & Erun & Hlab & Hwf' & Hn & Hser & Hmap).
    { apply wf_set_column; assumption. }
    { exact Hrest. }
    { intros v m' Hv. destruct (Hall v m' (or_intror Hv)) as (c & Hc & Hk).
      exists c. split; [|exact Hk]. rewrite Hother; [exact Hc|].
      apply in_map_iff. exists (v, Some m'). split; [reflexivity | exact Hv]. }
    exists df'. cbn [replay_categoricals]. rewrite Hcol. cbn [try_].
    unfold ret at 1, bind at 1. rewrite Hkeys. fold df1.
    split; [exact Erun|].
    split; [rewrite Hlab; apply labels_set_column; assumption|].
    split; [exact Hwf'|].
    split; [rewrite Hn; apply nrows_set_column; assumption|].
    split.
    + intros l Hl'. rewrite Hser.
      * apply series_set_column_other; try assumption.
        apply (Hl' var m). left. reflexivity.
      * intros v m' Hv. apply (Hl' v m'). right. exact Hv.
    + intros v m' c [E|Hv] Hc.
      * inversion E; subst. rewrite Hcol in Hc. inversion Hc; subst c.
        rewrite Hser.
        -- apply series_set_column_same; assumption.
        -- intros v' m'' Hv' E'. inversion E'; subst. apply Hvar.
           apply in_map_iff. exists (v', Some m'').
           split; [reflexivity|exact Hv'].
      * apply Hmap; [exact Hv|]. rewrite Hother; [exact Hc|].
        apply in_map_iff. exists (v, Some m'). split; [reflexivity | exact Hv].
  - inversion Hnd as [|? ? Hvar Hrest]; subst.
    destruct (IH df w Hwf Hrest)
      as (df' & Erun & Hlab & Hwf' & Hn & Hser & Hmap).
    { intros v m' Hv. apply (Hall v m'). right. exact Hv. }
    exists df'. cbn [replay_categoricals].
    split; [exact Erun|]. split; [exact Hlab|]. split; [exact Hwf'|].
    split; [exact Hn|]. split.
    + intros l Hl'. apply Hser. intros v m' Hv.
      apply (Hl' v m'). right. exact Hv.
    + intros v m' c [E|Hv] Hc; [discriminate|]. apply Hmap; assumption.
Qed.


(** ** Scores (lines 182-194) *)

Lemma rbind_inv_ok (A B : Type) (r : result A) (k : A -> result B) (b : B) :
  rbind r k = Ok b -> exists a, r = Ok a /\ k a = Ok b.
Proof.
  destruct r as [a| |e]; cbn; intros H; try discriminate.
  exists a. split; [reflexivity | exact H].
Qed.





Lemma fold_columns_spec (mdl : model) (md : metaData) (df : table)
    (folds : list nat) (cols : list (list cell)) :
  fold_columns mdl md df folds = Ok cols ->
  length cols = length folds /\
  forall k, k < length folds ->
            fold_column mdl md df (nth k folds 0) = Ok (nth k cols []).
Proof.
  revert cols. induction folds as [|i rest IH]; intros cols H; cbn in H.
  - inversion H. split; [reflexivity|]. cbn. intros k Hk. lia.
  - apply rbind_inv_ok in H. destruct H as (col & Hcol & H).
    apply rbind_inv_ok in H. destruct H as (cols' & Hcols & H).
    inversion H; subst cols. destruct (IH cols' Hcols) as [Hlen Hk].
    split; [cbn; lia|]. intros [|k] Hlt; cbn; [exact Hcol|].
    apply Hk. cbn in Hlt. lia.
Qed.

Lemma all_some_length (A : Type) (l : list (option A)) (l' : list A) :
  all_some l = Some l' -> length l' = length l.
Proof.
  revert l'. induction l as [|[a|] rest IH]; intros l' H; cbn in H;
    try discriminate.
  - inversion H. reflexivity.
  - destruct (all_some rest) as [r|]; [|discriminate].
    inversion H. cbn. f_equal. apply IH. reflexivity.
Qed.

Lemma select_rows_length (ls names : list label) (rs : list (list value))
    (X : list (list value)) :
  select_rows ls names rs = Some X -> length X = length rs.
Proof.
  revert X. induction rs as [|r rest IH]; intros X H; cbn in H.
  - destruct (forallb _ names); inversion H. reflexivity.
  - destruct (select_row ls names r); [|discriminate].
    destruct (select_rows ls names rest) as [vs|]; [|discriminate].
    inversion H. cbn. f_equal. apply IH. reflexivity.
Qed.

Lemma raw_scores_length (mdl : model) (md : metaData)
    (X : list (list value)) (i : nat) (raw : list cell) :
  raw_scores mdl md X i = Ok raw -> length raw = length X.
Proof.
  unfold raw_scores.
  destruct (nth_error (mdl_scaler mdl) i) as [sc|]; [|discriminate].
  destruct (nth_error (mdl_mdl mdl) i) as [m|]; [|discriminate].
  destruct (String.eqb (md_kernel md) "linear").
  - destruct (all_some _) as [r|] eqn:E; [|discriminate].
    intros H. inversion H; subst. apply all_some_length in E.
    rewrite E, !length_map. reflexivity.
  - intros H. inversion H. rewrite !length_map. reflexivity.
Qed.


Lemma bias_correct_length (mdl : model) (md : metaData) (i : nat)
    (raw corrected : list cell) :
  bias_correct mdl md i raw = Ok corrected -> length corrected = length raw.
Proof.
  unfold bias_correct. destruct (md_spare_type md).
  - intros H. inversion H. reflexivity.
  - destruct (mdl_bias_correct mdl) as [b|]; [|discriminate].
    destruct (nth_error (bias_int b) i); [|discriminate].
    destruct (nth_error (bias_slope b) i); [|discriminate].
    intros H. inversion H. apply length_map.
Qed.

Lemma fold_column_inv (mdl : model) (md : metaData) (df : table) (i : nat)
    (col : list cell) :
  fold_column mdl md df i = Ok col ->
  exists X raw corrected ptid ids,
    frame_values df (map LStr (md_predictors md)) = Some X /\
    raw_scores mdl md X i = Ok raw /\
    bias_correct mdl md i raw = Ok corrected /\
    series df (LStr "PTID") = Some ptid /\
    training_ids mdl md i = Ok ids /\
    col = mask ptid ids corrected /\
    length corrected = nrows df /\
    length ptid = nrows df.
Proof.
  unfold fold_column.
  destruct (frame_values df (map LStr (md_predictors md))) as [X|] eqn:HX;
    [|discriminate].
  intros H. apply rbind_inv_ok in H. destruct H as (raw & Hraw & H).
  apply rbind_inv_ok in H. destruct H as (corrected & Hcor & H).
  destruct (series df (LStr "PTID")) as [ptid|] eqn:Hp; [|discriminate].
  apply rbind_inv_ok in H. destruct H as (ids & Hids & H).
  inversion H; subst col.
  exists X, raw, corrected, ptid, ids.
  repeat (split; [assumption || reflexivity|]).
  split.
  - rewrite (bias_correct_length _ _ _ _ Hcor).
    rewrite (raw_scores_length _ _ _ _ Hraw).
    apply (@select_rows_length _ _ _ _ HX).
  - apply (@series_length df (LStr "PTID") ptid Hp).
Qed.

Lemma rows_apply_convention (roi_name : list string) (roi_alter : list label)
    (df : table) :
  rows (apply_convention roi_name roi_alter df) = rows df.
Proof.
  unfold apply_convention. destruct (issubset roi_alter df); reflexivity.
Qed.

Lemma reconcile_nrows (predictors : list string) (df df' : table)
    (w w' : world) :
  reconcile_predictors predictors df w = (w', Ok df') ->
  nrows df' = nrows df.
Proof.
  unfold reconcile_predictors.
  destruct (issubset (map LStr predictors) df) eqn:Hsub.
  - intros H. inversion H. reflexivity.
  - destruct (existsb _ (missing_predictors predictors df)) eqn:Hus;
      [discriminate|].
    destruct (int_fields (filter has_underscore predictors)) as [ids|] eqn:Hi;
      [|discriminate].
    intros H.
    destruct (@reconcile_run predictors df w ids Hsub Hus Hi)
      as (infos & _ & Erun).
    unfold reconcile_predictors in Erun. rewrite Hsub, Hus, Hi in Erun.
    rewrite Erun in H. cbn zeta in H.
    destruct (0 <? _) in H; [discriminate|].
    inversion H. unfold nrows, conventions_applied.
    rewrite !rows_apply_convention. reflexivity.
Qed.

Lemma replay_nrows (entries : list (string * option cat_map)) :
  forall (df df' : table) (w w' : world),
    replay_categoricals entries df w = (w', Ok df') -> nrows df' = nrows df.
Proof.
  induction entries as [|[var [m|]] rest IH]; intros df df' w w' H;
    cbn [replay_categoricals] in H.
  - inversion H. reflexivity.
  - destruct (series df (LStr var)) as [col|] eqn:Hcol; [|discriminate].
    cbn [try_] in H. unfold ret at 1, bind at 1 in H.
    destruct (forallb _ col); [|discriminate].
    rewrite (IH _ _ _ _ H). apply nrows_set_column.
    + unfold series in Hcol.
      destruct (index_of (LStr var) (labels df)) as [i|] eqn:Hi;
        [|discriminate].
      apply index_of_Some in Hi. eapply nth_error_In. exact Hi.
    + rewrite series_map_length. apply (@series_length df (LStr var) col Hcol).
  - apply (IH _ _ _ _ H).
Qed.

(** What a successful run of [spare_test] computed: the columns of [ss],
    one per fold, on a frame [df'] with the rows of the input. *)
Lemma spare_test_columns (df0 : ref) (mdl : model) (md : metaData)
    (df : table) (w w' : world) (scores : list cell) :
  nth_error (frames w) df0 = Some df ->
  spare_test df0 (mdl, md) w = (w', Ok scores) ->
  exists df' ss,
    nrows df' = nrows df /\
    length ss = length (mdl_scaler mdl) /\
    scores = map (fun r => nanmean (ss_row ss r)) (seq 0 (nrows df')) /\
    forall i, i < length (mdl_scaler mdl) ->
      exists X raw corrected ptid ids,
        frame_values df' (map LStr (md_predictors md)) = Some X /\
        raw_scores mdl md X i = Ok raw /\
        bias_correct mdl md i raw = Ok corrected /\
        series df' (LStr "PTID") = Some ptid /\
        training_ids mdl md i = Ok ids /\
        nth i ss [] = mask ptid ids corrected /\
        length corrected = nrows df' /\
        length ptid = nrows df'.
Proof.
  intros Hdf H. unfold spare_test in H.
  rewrite (bind_ok _ (@get_frame_run df0 df w Hdf)) in H.
  apply bind_inv_ok in H. destruct H as (w1 & df1 & Hrec & H).
  apply reconcile_nrows in Hrec.
  unfold test_reconciled in H. cbn [fst snd] in H.
  do 8 (apply bind_inv_ok in H; destruct H as (? & ? & _ & H)).
  apply bind_inv_ok in H. destruct H as (w2 & df' & Hrep & H).
  apply bind_inv_ok in H. destruct H as (w3 & ? & _ & H).
  unfold lift in H. inversion H as [[Hw Hs]]. clear H.
  assert (Hn : nrows df' = nrows df).
  { rewrite <- Hrec.
    destruct (md_categorical_var_map md) as [entries|].
    - apply (replay_nrows _ _ _ Hrep).
    - inversion Hrep. reflexivity. }
  unfold spare_scores in Hs. apply rbind_inv_ok in Hs.
  destruct Hs as (ss & Hss & Hs). inversion Hs; subst scores.
  apply fold_columns_spec in Hss. destruct Hss as [Hlen Hcols].
  rewrite length_seq in Hlen, Hcols.
  exists df', ss. split; [exact Hn|]. split; [exact Hlen|].
  split; [reflexivity|].
  intros i Hi. specialize (Hcols i Hi). rewrite seq_nth in Hcols by exact Hi.
  cbn [Nat.add] in Hcols. apply fold_column_inv in Hcols.
  destruct Hcols as (X & raw & corrected & ptid & ids & H1 & H2 & H3 & H4
                     & H5 & H6 & H7 & H8).
  exists X, raw, corrected, ptid, ids. repeat split; assumption.
Qed.





(** ** Computations that log no error *)

Lemma no_error_nil : no_error [].
Proof. constructor. Qed.

Lemma no_error_app (a b : list (level * message)) :
  no_error a -> no_error b -> no_error (a ++ b).
Proof. intros Ha Hb. apply Forall_app. split; assumption. Qed.

Lemma quiet_silent (A : Type) (m : M A) :
  (forall w, log (fst (m w)) = log w /\ snd (m w) <> Failed) -> quiet m.
Proof.
  intros H w. exists []. destruct (H w) as [Hl Hr].
  split; [apply no_error_nil|]. split; [rewrite app_nil_r; exact Hl | exact Hr].
Qed.

Lemma quiet_ret (A : Type) (a : A) : quiet (ret a).
Proof.
  apply quiet_silent. intros w. cbn. split; [reflexivity|discriminate].
Qed.

Lemma quiet_raise (A : Type) (e : exn) : quiet (@raise A e).
Proof.
  apply quiet_silent. intros w. cbn. split; [reflexivity|discriminate].
Qed.

Lemma quiet_try (A : Type) (e : exn) (o : option A) : quiet (try_ e o).
Proof. destruct o; [apply quiet_ret | apply quiet_raise]. Qed.

Lemma quiet_lift (A : Type) (r : result A) : r <> Failed -> quiet (lift r).
Proof.
  intros H. apply quiet_silent. intros w. cbn. split; [reflexivity|exact H].
Qed.

Lemma quiet_get_frame (d : ref) : quiet (get_frame d).
Proof.
  apply quiet_silent. intros w. unfold get_frame. cbn.
  split; [reflexivity|]. destruct (nth_error (frames w) d); discriminate.
Qed.

Lemma quiet_get_list (d : ref) : quiet (get_list d).
Proof.
  apply quiet_silent. intros w. unfold get_list. cbn.
  split; [reflexivity|]. destruct (nth_error (lists w) d); discriminate.
Qed.

Lemma quiet_set_frame (d : ref) (t : table) : quiet (set_frame d t).
Proof.
  apply quiet_silent. intros w. cbn. split; [reflexivity|discriminate].
Qed.

Lemma quiet_set_list (d : ref) (l : list string) : quiet (set_list d l).
Proof.
  apply quiet_silent. intros w. cbn. split; [reflexivity|discriminate].
Qed.

Lemma quiet_alloc_frame (t : table) : quiet (alloc_frame t).
Proof.
  apply quiet_silent. intros w. cbn. split; [reflexivity|discriminate].
Qed.

Lemma quiet_record_call (c : trainer_call) : quiet (record_call c).
Proof.
  apply quiet_silent. intros w. cbn. split; [reflexivity|discriminate].
Qed.

Lemma quiet_logging (lv : level) (msg : message) :
  lv <> ERROR -> quiet (logging lv msg).
Proof.
  intros H w. exists [(lv, msg)]. cbn.
  split; [repeat constructor; exact H|]. split; [reflexivity|discriminate].
Qed.

Lemma quiet_bind (A B : Type) (m : M A) (k : A -> M B) :
  quiet m -> (forall a, quiet (k a)) -> quiet (bind m k).
Proof.
  intros Hm Hk w. destruct (Hm w) as (e1 & N1 & L1 & R1).
  unfold bind. destruct (m w) as [w1 [a| |e]]; cbn in L1, R1.
  - destruct (Hk a w1) as (e2 & N2 & L2 & R2).
    exists (e1 ++ e2). split; [apply no_error_app; assumption|].
    split; [rewrite L2, L1, app_assoc; reflexivity | exact R2].
  - contradiction.
  - exists e1. cbn. split; [exact N1|]. split; [exact L1|discriminate].
Qed.

Lemma quiet_when (b : bool) (m : M unit) : quiet m -> quiet (when b m).
Proof. intros H. destruct b; [exact H | apply quiet_ret]. Qed.

Lemma quiet_if (A : Type) (b : bool) (m1 m2 : M A) :
  quiet m1 -> quiet m2 -> quiet (if b then m1 else m2).
Proof. intros H1 H2. destruct b; assumption. Qed.

Create HintDb quiet.
#[local] Hint Resolve quiet_ret quiet_raise quiet_try quiet_get_frame
  quiet_get_list quiet_set_frame quiet_set_list quiet_alloc_frame
  quiet_record_call quiet_when quiet_if : quiet.

Ltac quiet_step :=
  first [ apply quiet_bind; [|intros ?]
        | apply quiet_logging; discriminate
        | solve [auto with quiet] ].

Lemma rbind_not_failed (A B : Type) (r : result A) (k : A -> result B) :
  r <> Failed -> (forall a, k a <> Failed) -> rbind r k <> Failed.
Proof.
  intros Hr Hk. destruct r; cbn; [apply Hk | contradiction | discriminate].
Qed.

Lemma linspace_not_failed (a b : Q) (n : Z) : linspace a b n <> Failed.
Proof.
  unfold linspace. destruct (n <? 0)%Z; [discriminate|].
  destruct (Z.to_nat n) as [|[|k]]; discriminate.
Qed.

Lemma expspace_not_failed (span : Q * Q) : _expspace span <> Failed.
Proof.
  unfold _expspace.
  pose proof (linspace_not_failed (fst span) (snd span)
                (py_int (snd span) - py_int (fst span) + 1)) as H.
  destruct (linspace _ _ _); [discriminate | contradiction | discriminate].
Qed.

Lemma coarse_grid_not_failed (ty : spare_type) (kernel : string) :
  coarse_grid ty kernel <> Failed.
Proof.
  unfold coarse_grid. destruct ty.
  - destruct (String.eqb kernel "linear");
      [|destruct (String.eqb kernel "rbf"); [|discriminate]];
      repeat (apply rbind_not_failed; [apply expspace_not_failed | intros ?]);
      discriminate.
  - repeat (apply rbind_not_failed; [apply expspace_not_failed | intros ?]);
      discriminate.
Qed.

Lemma refine_entry_not_failed (params : params_table) (par : string) :
  refine_entry params par <> Failed.
Proof.
  unfold refine_entry.
  destruct (dict_get String.eqb _ params) as [opt|]; [|discriminate].
  destruct (np_min opt); [|discriminate].
  destruct (np_max opt); [|discriminate].
  apply expspace_not_failed.
Qed.

Lemma refine_grid_not_failed (params : params_table) (grid : param_grid) :
  refine_grid params grid <> Failed.
Proof.
  induction grid as [|[par g] rest IH]; cbn; [discriminate|].
  apply rbind_not_failed; [apply refine_entry_not_failed | intros ?].
  apply rbind_not_failed; [exact IH | intros ?]. discriminate.
Qed.

Lemma quiet_encode_categoricals (d : ref) (vars : list string) :
  forall cmap, quiet (encode_categoricals d vars cmap).
Proof.
  induction vars as [|var rest IH]; intros cmap; cbn [encode_categoricals].
  - apply quiet_ret.
  - repeat quiet_step.
    apply quiet_if; [|apply IH].
    apply quiet_bind; [apply quiet_set_frame | intros _; apply IH].
Qed.

Lemma quiet_convert_categoricals (d : ref) (predictors : list string) :
  quiet (convert_categoricals d predictors).
Proof.
  unfold convert_categoricals. repeat quiet_step.
  apply quiet_encode_categoricals.
Qed.

(** ** Computations that leave the objects of the store alone *)

Lemma keeps_objects_silent (A : Type) (m : M A) :
  (forall w, fst (m w) = w) -> keeps_objects m.
Proof. intros H w. rewrite H. split; reflexivity. Qed.

Lemma keeps_objects_ret (A : Type) (a : A) : keeps_objects (ret a).
Proof. apply keeps_objects_silent. reflexivity. Qed.

Lemma keeps_objects_raise (A : Type) (e : exn) : keeps_objects (@raise A e).
Proof. apply keeps_objects_silent. reflexivity. Qed.

Lemma keeps_objects_try (A : Type) (e : exn) (o : option A) :
  keeps_objects (try_ e o).
Proof. destruct o; [apply keeps_objects_ret | apply keeps_objects_raise]. Qed.

Lemma keeps_objects_lift (A : Type) (r : result A) : keeps_objects (lift r).
Proof. apply keeps_objects_silent. reflexivity. Qed.

Lemma keeps_objects_get_frame (d : ref) : keeps_objects (get_frame d).
Proof. apply keeps_objects_silent. reflexivity. Qed.

Lemma keeps_objects_get_list (d : ref) : keeps_objects (get_list d).
Proof. apply keeps_objects_silent. reflexivity. Qed.

Lemma keeps_objects_logging (lv : level) (msg : message) :
  keeps_objects (logging lv msg).
Proof. intros w. split; reflexivity. Qed.

Lemma keeps_objects_fail (A : Type) (msg : message) :
  keeps_objects (@fail A msg).
Proof. intros w. split; reflexivity. Qed.

Lemma keeps_objects_record_call (c : trainer_call) :
  keeps_objects (record_call c).
Proof. intros w. split; reflexivity. Qed.

Lemma keeps_objects_bind (A B : Type) (m : M A) (k : A -> M B) :
  keeps_objects m -> (forall a, keeps_objects (k a)) ->
  keeps_objects (bind m k).
Proof.
  intros Hm Hk w. destruct (Hm w) as [F L]. unfold bind.
  destruct (m w) as [w1 [a| |e]]; cbn in F, L; cbn; auto.
  destruct (Hk a w1) as [F2 L2]. rewrite F2, L2. auto.
Qed.

Lemma keeps_objects_when (b : bool) (m : M unit) :
  keeps_objects m -> keeps_objects (when b m).
Proof. intros H. destruct b; [exact H | apply keeps_objects_ret]. Qed.

Lemma keeps_objects_if (A : Type) (b : bool) (m1 m2 : M A) :
  keeps_objects m1 -> keeps_objects m2 ->
  keeps_objects (if b then m1 else m2).
Proof. intros H1 H2. destruct b; assumption. Qed.

Create HintDb keeps.
#[local] Hint Resolve keeps_objects_ret keeps_objects_raise keeps_objects_try
  keeps_objects_lift keeps_objects_get_frame keeps_objects_get_list
  keeps_objects_logging keeps_objects_fail keeps_objects_record_call
  keeps_objects_when keeps_objects_if : keeps.

Ltac keeps_step :=
  first [ apply keeps_objects_bind; [|intros ?]
        | solve [auto with keeps] ].

Lemma keeps_objects_determine (df : table) (to_predict pos_group : string) :
  keeps_objects (determine_spare_type df to_predict pos_group).
Proof.
  unfold determine_spare_type. apply keeps_objects_bind; [auto with keeps|].
  intros target. repeat apply keeps_objects_if; repeat keeps_step.
  apply keeps_objects_if; repeat keeps_step.
Qed.

Lemma keeps_objects_try_convention (roi_name : list string)
    (roi_alter : list label) (df : table) :
  keeps_objects (try_convention roi_name roi_alter df).
Proof. unfold try_convention. apply keeps_objects_if; repeat keeps_step. Qed.

Lemma keeps_objects_reconcile (predictors : list string) (df : table) :
  keeps_objects (reconcile_predictors predictors df).
Proof.
  unfold reconcile_predictors.
  apply keeps_objects_if; [auto with keeps|].
  apply keeps_objects_if; [auto with keeps|].
  destruct (int_fields _); [|auto with keeps].
  repeat (apply keeps_objects_bind;
          [apply keeps_objects_try_convention | intros ?]).
  apply keeps_objects_if; auto with keeps.
Qed.

Lemma keeps_objects_replay (entries : list (string * option cat_map)) :
  forall df, keeps_objects (replay_categoricals entries df).
Proof.
  induction entries as [|[var [m|]] rest IH]; intros df;
    cbn [replay_categoricals].
  - apply keeps_objects_ret.
  - apply keeps_objects_bind; [auto with keeps | intros col].
    apply keeps_objects_if; [apply IH | auto with keeps].
  - apply IH.
Qed.

Lemma keeps_objects_test_reconciled (loaded : model * metaData)
    (df : table) :
  keeps_objects (test_reconciled loaded df).
Proof.
  unfold test_reconciled.
  do 8 (apply keeps_objects_bind; [auto with keeps | intros ?]).
  apply keeps_objects_bind.
  - destruct (md_categorical_var_map (snd loaded));
      [apply keeps_objects_replay | apply keeps_objects_ret].
  - intros ?. repeat keeps_step.
Qed.

Lemma keeps_objects_spare_test (df0 : ref) (loaded : model * metaData) :
  keeps_objects (spare_test df0 loaded).
Proof.
  unfold spare_test.
  apply keeps_objects_bind; [auto with keeps | intros df].
  apply keeps_objects_bind; [apply keeps_objects_reconcile | intros df'].
  apply keeps_objects_test_reconciled.
Qed.

(** ** Computations that touch nothing but the log *)

Lemma logs_only_silent (A : Type) (m : M A) :
  (forall w, fst (m w) = w) -> logs_only m.
Proof. intros H w. exists []. rewrite add_log_nil. apply H. Qed.

Lemma logs_only_try (A : Type) (e : exn) (o : option A) :
  logs_only (try_ e o).
Proof. apply logs_only_silent. intros w. destruct o; reflexivity. Qed.

Lemma logs_only_ret (A : Type) (a : A) : logs_only (ret a).
Proof. apply logs_only_silent. reflexivity. Qed.

Lemma logs_only_logging (lv : level) (msg : message) :
  logs_only (logging lv msg).
Proof. intros w. eexists. reflexivity. Qed.

Lemma logs_only_fail (A : Type) (msg : message) : logs_only (@fail A msg).
Proof. intros w. eexists. reflexivity. Qed.

Lemma logs_only_bind (A B : Type) (m : M A) (k : A -> M B) :
  logs_only m -> (forall a, logs_only (k a)) -> logs_only (bind m k).
Proof.
  intros Hm Hk w. destruct (Hm w) as [e1 E1]. unfold bind.
  destruct (m w) as [w1 [a| |e]]; cbn in E1; subst w1.
  - destruct (Hk a (add_log w e1)) as [e2 E2]. rewrite E2, add_log_app.
    eexists. reflexivity.
  - eexists. reflexivity.
  - eexists. reflexivity.
Qed.

Lemma logs_only_when (b : bool) (m : M unit) :
  logs_only m -> logs_only (when b m).
Proof. intros H. destruct b; [exact H | apply logs_only_ret]. Qed.

Lemma logs_only_if (A : Type) (b : bool) (m1 m2 : M A) :
  logs_only m1 -> logs_only m2 -> logs_only (if b then m1 else m2).
Proof. intros H1 H2. destruct b; assumption. Qed.

Create HintDb logsonly.
#[local] Hint Resolve logs_only_try logs_only_ret logs_only_logging
  logs_only_fail logs_only_when logs_only_if : logsonly.

Ltac logs_step :=
  first [ apply logs_only_bind; [|intros ?]
        | solve [auto with logsonly] ].

Lemma logs_only_determine (df : table) (to_predict pos_group : string) :
  logs_only (determine_spare_type df to_predict pos_group).
Proof.
  unfold determine_spare_type. apply logs_only_bind; [auto with logsonly|].
  intros target. repeat apply logs_only_if; repeat logs_step.
  apply logs_only_if; repeat logs_step.
Qed.

(** ** Computations that leave the lists of the store alone *)

Lemma keeps_lists_of_objects (A : Type) (m : M A) :
  keeps_objects m -> keeps_lists m.
Proof. intros H w. apply (H w). Qed.

Lemma keeps_lists_bind (A B : Type) (m : M A) (k : A -> M B) :
  keeps_lists m -> (forall a, keeps_lists (k a)) -> keeps_lists (bind m k).
Proof.
  intros Hm Hk w. pose proof (Hm w) as L. unfold bind.
  destruct (m w) as [w1 [a| |e]]; cbn in L; cbn; auto.
  rewrite (Hk a w1). exact L.
Qed.

Lemma keeps_lists_if (A : Type) (b : bool) (m1 m2 : M A) :
  keeps_lists m1 -> keeps_lists m2 -> keeps_lists (if b then m1 else m2).
Proof. intros H1 H2. destruct b; assumption. Qed.

Lemma keeps_lists_set_frame (d : ref) (t : table) :
  keeps_lists (set_frame d t).
Proof. intros w. reflexivity. Qed.

Lemma keeps_lists_alloc_frame (t : table) : keeps_lists (alloc_frame t).
Proof. intros w. reflexivity. Qed.

Lemma keeps_lists_encode (d : ref) (vars : list string) :
  forall cmap, keeps_lists (encode_categoricals d vars cmap).
Proof.
  induction vars as [|var rest IH]; intros cmap; cbn [encode_categoricals].
  - apply keeps_lists_of_objects, keeps_objects_ret.
  - apply keeps_lists_bind;
      [apply keeps_lists_of_objects; auto with keeps | intros df].
    apply keeps_lists_bind;
      [apply keeps_lists_of_objects; auto with keeps | intros col].
    apply keeps_lists_if; [|apply IH].
    apply keeps_lists_bind; [apply keeps_lists_set_frame | intros _; apply IH].
Qed.

Lemma keeps_lists_convert (d : ref) (predictors : list string) :
  keeps_lists (convert_categoricals d predictors).
Proof.
  unfold convert_categoricals.
  apply keeps_lists_bind;
    [apply keeps_lists_of_objects; auto with keeps | intros df].
  apply keeps_lists_encode.
Qed.

Lemma keeps_lists_drop_invalid (df0 : ref) (df : table)
    (preds : list string) :
  keeps_lists (drop_invalid df0 df preds).
Proof.
  unfold drop_invalid.
  apply keeps_lists_bind;
    [apply keeps_lists_of_objects; auto with keeps | intros X].
  apply keeps_lists_if; [|apply keeps_lists_of_objects; auto with keeps].
  apply keeps_lists_bind;
    [apply keeps_lists_of_objects; auto with keeps | intros _].
  apply keeps_lists_alloc_frame.
Qed.

Lemma keeps_lists_store_predicted (d : ref) (predicted : list value) :
  keeps_lists (store_predicted d predicted).
Proof.
  unfold store_predicted.
  apply keeps_lists_bind;
    [apply keeps_lists_of_objects; auto with keeps | intros df].
  apply keeps_lists_if;
    [apply keeps_lists_set_frame
    |apply keeps_lists_of_objects; auto with keeps].
Qed.

(** ** The stages of [spare_train] (lines 60-120) *)

Lemma get_frame_inv (d : ref) (t : table) (w w' : world) :
  get_frame d w = (w', Ok t) -> w' = w /\ nth_error (frames w) d = Some t.
Proof.
  unfold get_frame. destruct (nth_error (frames w) d); intros H;
    inversion H; subst; auto.
Qed.

Lemma get_list_inv (d : ref) (l : list string) (w w' : world) :
  get_list d w = (w', Ok l) -> w' = w /\ nth_error (lists w) d = Some l.
Proof.
  unfold get_list. destruct (nth_error (lists w) d); intros H;
    inversion H; subst; auto.
Qed.

Lemma add_calls_app (w : world) (a b : list trainer_call) :
  add_calls (add_calls w a) b = add_calls w (a ++ b).
Proof. unfold add_calls; cbn. rewrite app_assoc. reflexivity. Qed.

Lemma remove_target_inv (predictors : ref) (to_predict : string)
    (preds preds' : list string) (w w' : world) :
  remove_target predictors to_predict preds w = (w', Ok preds') ->
  (existsb (String.eqb to_predict) preds = true /\
   preds' = remove_first to_predict preds /\
   w' = put_list predictors preds'
          (add_log w [(INFO, TargetInPredictors)]))
  \/ (existsb (String.eqb to_predict) preds = false /\
      preds' = preds /\ w' = w).
Proof.
  unfold remove_target.
  destruct (existsb (String.eqb to_predict) preds); intros H.
  - left. inversion H. auto.
  - right. inversion H. auto.
Qed.

Lemma drop_invalid_inv (df0 d : ref) (df : table) (preds : list string)
    (w w' : world) :
  drop_invalid df0 df preds w = (w', Ok d) ->
  exists X,
    frame_values df (map LStr preds) = Some X /\
    ((existsb (existsb isna) X = true /\ d = length (frames w) /\
      w' = push_frame (dropna df X)
             (add_log w [(INFO, InvalidPredictorsExcluded)]))
     \/ (existsb (existsb isna) X = false /\ d = df0 /\ w' = w)).
Proof.
  unfold drop_invalid. intros H.
  apply bind_inv_ok in H. destruct H as (w1 & X & HX & H).
  apply try_inv_ok in HX. destruct HX as [HX ->].
  exists X. split; [exact HX|].
  destruct (existsb (existsb isna) X).
  - left. inversion H. auto.
  - right. inversion H. auto.
Qed.

Lemma store_predicted_inv (d : ref) (predicted : list value) (w w' : world)
    (u : unit) :
  store_predicted d predicted w = (w', Ok u) ->
  exists df,
    nth_error (frames w) d = Some df /\
    length predicted = nrows df /\
    w' = put_frame d (set_column df (LStr "predicted") Float64 predicted) w.
Proof.
  unfold store_predicted. intros H.
  apply bind_inv_ok in H. destruct H as (w1 & df & Hdf & H).
  apply get_frame_inv in Hdf. destruct Hdf as [-> Hdf].
  exists df. split; [exact Hdf|].
  destruct (length predicted =? nrows df) eqn:E; [|discriminate].
  apply Nat.eqb_eq in E. inversion H. auto.
Qed.




(** ** [spare_train] as a whole *)

Section TrainingProperties.

(** The trainers and the row sampling, as in the model. *)

Variable run_SVC :
  table -> list string -> string -> list value -> param_grid -> string ->
  option nat -> option nat -> trainer_output.
Variable run_SVR :
  table -> list string -> string -> param_grid ->
  option nat -> option nat -> trainer_output.
Variable df_sample : table -> nat -> Z -> table.






Lemma quiet_call_trainer (ty : spare_type) (df : table)
    (predictors : list string) (to_predict : string) (groups : list value)
    (grid : param_grid) (kernel : string) (n_repeats verbose : option nat) :
  quiet (call_trainer run_SVC run_SVR ty df predictors to_predict groups grid
                      kernel n_repeats verbose).
Proof. unfold call_trainer. repeat quiet_step. Qed.

Lemma quiet_fit (ty : spare_type) (d : ref) (predictors : list string)
    (to_predict : string) (groups : list value) (kernel : string) :
  quiet (fit run_SVC run_SVR df_sample ty d predictors to_predict groups
             kernel).
Proof.
  unfold fit.
  apply quiet_bind; [apply quiet_lift, coarse_grid_not_failed | intros grid].
  apply quiet_bind; [apply quiet_get_frame | intros df].
  apply quiet_bind; [|intros g; apply quiet_call_trainer].
  apply quiet_if; [|apply quiet_ret].
  apply quiet_bind; [apply quiet_call_trainer | intros coarse].
  apply quiet_lift, refine_grid_not_failed.
Qed.

Lemma quiet_remove_target (predictors : ref) (to_predict : string)
    (preds : list string) :
  quiet (remove_target predictors to_predict preds).
Proof. unfold remove_target. apply quiet_if; repeat quiet_step. Qed.

Lemma quiet_drop_invalid (df0 : ref) (df : table) (preds : list string) :
  quiet (drop_invalid df0 df preds).
Proof.
  unfold drop_invalid. apply quiet_bind; [apply quiet_try | intros X].
  apply quiet_if; repeat quiet_step.
Qed.

Lemma quiet_store_predicted (d : ref) (predicted : list value) :
  quiet (store_predicted d predicted).
Proof.
  unfold store_predicted. apply quiet_bind; [apply quiet_get_frame | intros df].
  apply quiet_if; repeat quiet_step.
Qed.

Lemma quiet_train_validated (df0 predictors : ref) (df : table)
    (preds : list string) (tg : spare_type * list value)
    (to_predict pos_group kernel : string) :
  quiet (train_validated run_SVC run_SVR df_sample df0 predictors df preds tg
                         to_predict pos_group kernel).
Proof.
  unfold train_validated.
  apply quiet_bind; [apply quiet_remove_target | intros p].
  apply quiet_bind; [apply quiet_drop_invalid | intros d].
  apply quiet_bind; [apply quiet_get_frame | intros dfd].
  apply quiet_bind; [apply quiet_try | intros age].
  apply quiet_bind; [apply quiet_try | intros ages].
  apply quiet_bind; [apply quiet_convert_categoricals | intros cmap].
  apply quiet_bind; [apply quiet_fit | intros out].
  apply quiet_bind; [apply quiet_store_predicted | intros _].
  apply quiet_bind; [apply quiet_get_frame | intros df'].
  apply quiet_bind; [apply quiet_try | intros cv].
  apply quiet_ret.
Qed.


Lemma get_list_run (r : ref) (l : list string) (w : world) :
  nth_error (lists w) r = Some l -> get_list r w = (w, Ok l).
Proof. intros H. unfold get_list. rewrite H. reflexivity. Qed.

(** With every predictor a column, [spare_train] is the determination of
    the kind of model followed by lines 60-120. *)
Lemma spare_train_run (df0 predictors : ref)
    (to_predict pos_group kernel : string) (df : table)
    (preds : list string) (w : world) :
  nth_error (frames w) df0 = Some df ->
  nth_error (lists w) predictors = Some preds ->
  issubset (map LStr preds) df = true ->
  spare_train run_SVC run_SVR df_sample df0 predictors to_predict pos_group
              kernel w
  = bind (determine_spare_type df to_predict pos_group)
         (fun tg => train_validated run_SVC run_SVR df_sample df0 predictors
                      df preds tg to_predict pos_group kernel) w.
Proof.
  intros Hdf Hl Hsub. unfold spare_train.
  rewrite (bind_ok _ (@get_frame_run df0 df w Hdf)).
  rewrite (bind_ok _ (@get_list_run predictors preds w Hl)).
  rewrite Hsub. reflexivity.
Qed.

Lemma call_trainer_run (ty : spare_type) (df : table)
    (predictors : list string) (to_predict : string) (groups : list value)
    (grid : param_grid) (kernel : string) (n_repeats verbose : option nat)
    (w : world) :
  call_trainer run_SVC run_SVR ty df predictors to_predict groups grid kernel
               n_repeats verbose w
  = (add_calls w [trainer_event ty df predictors to_predict groups grid
                                kernel n_repeats verbose],
     Ok (trainer_result run_SVC run_SVR ty df predictors to_predict groups
                        grid kernel n_repeats verbose)).
Proof. reflexivity. Qed.

(** The calls of a successful fit: one on the whole frame with the coarse
    grid, or, above 1000 rows, a single-repeat one on the seeded subsample
    of 500 rows with the coarse grid followed by one on the whole frame
    with the refined grid. *)
Lemma fit_inv (ty : spare_type) (d : ref) (predictors : list string)
    (to_predict : string) (groups : list value) (kernel : string)
    (df : table) (w w' : world) (o : trainer_output) :
  nth_error (frames w) d = Some df ->
  fit run_SVC run_SVR df_sample ty d predictors to_predict groups kernel w
  = (w', Ok o) ->
  exists coarse,
    coarse_grid ty kernel = Ok coarse /\
    ((1000 < nrows df /\
      exists refined,
        refine_grid
          (out_params
             (trainer_result run_SVC run_SVR ty (df_sample df 500 2022%Z)
                predictors to_predict groups coarse kernel (Some 1) (Some 0)))
          coarse = Ok refined /\
        w' = add_calls w
               [trainer_event ty (df_sample df 500 2022%Z) predictors
                  to_predict groups coarse kernel (Some 1) (Some 0);
                trainer_event ty df predictors to_predict groups refined
                  kernel None None] /\
        o = trainer_result run_SVC run_SVR ty df predictors to_predict groups
              refined kernel None None)
     \/
     (nrows df <= 1000 /\
      w' = add_calls w [trainer_event ty df predictors to_predict groups
                          coarse kernel None None] /\
      o = trainer_result run_SVC run_SVR ty df predictors to_predict groups
            coarse kernel None None)).
Proof.
  intros Hdf H. unfold fit in H.
  apply bind_inv_ok in H. destruct H as (w1 & coarse & Hc & H).
  unfold lift in Hc. inversion Hc as [[Hw Hcoarse]]. subst w1. clear Hc.
  rewrite (bind_ok _ (@get_frame_run d df w Hdf)) in H.
  exists coarse. split; [exact Hcoarse|].
  destruct (1000 <? nrows df) eqn:E.
  - left. apply Nat.ltb_lt in E. split; [exact E|].
    unfold bind in H. rewrite call_trainer_run in H. unfold lift in H.
    destruct (refine_grid _ coarse) as [refined| |e] eqn:Hr;
      try discriminate.
    rewrite call_trainer_run, add_calls_app in H. inversion H.
    exists refined. auto.
  - right. apply Nat.ltb_ge in E. split; [exact E|].
    rewrite bind_ret_run, call_trainer_run in H. inversion H. auto.
Qed.

Lemma keeps_objects_fit (ty : spare_type) (d : ref)
    (predictors : list string) (to_predict : string) (groups : list value)
    (kernel : string) :
  keeps_objects (fit run_SVC run_SVR df_sample ty d predictors to_predict
                     groups kernel).
Proof.
  unfold fit, call_trainer. repeat keeps_step.
  apply keeps_objects_if; repeat keeps_step.
Qed.

Lemma train_validated_inv (df0 predictors : ref) (df : table)
    (preds : list string) (tg : spare_type * list value)
    (to_predict pos_group kernel : string) (w1 w' : world)
    (out : model * metaData) :
  train_validated run_SVC run_SVR df_sample df0 predictors df preds tg
                  to_predict pos_group kernel w1
  = (w', Ok out) ->
  exists preds' w2 d w3 dfd cmap w4 o w5,
    remove_target predictors to_predict preds w1 = (w2, Ok preds') /\
    drop_invalid df0 df preds' w2 = (w3, Ok d) /\
    nth_error (frames w3) d = Some dfd /\
    convert_categoricals d preds' w3 = (w4, Ok cmap) /\
    fit run_SVC run_SVR df_sample (fst tg) d preds' to_predict (snd tg)
        kernel w4 = (w5, Ok o) /\
    store_predicted d (out_predicted o) w5 = (w', Ok tt) /\
    md_predictors (snd out) = preds' /\
    md_categorical_var_map (snd out) = Some cmap /\
    md_n (snd out) = nrows dfd /\
    md_spare_type (snd out) = fst tg.
Proof.
  unfold train_validated. intros H.
  apply bind_inv_ok in H. destruct H as (w2 & preds' & H1 & H).
  apply bind_inv_ok in H. destruct H as (w3 & d & H2 & H).
  apply bind_inv_ok in H. destruct H as (w3' & dfd & H3 & H).
  apply get_frame_inv in H3. destruct H3 as [-> H3].
  apply bind_inv_ok in H. destruct H as (? & age & Ha & H).
  apply try_inv_ok in Ha. destruct Ha as [_ ->].
  apply bind_inv_ok in H. destruct H as (? & ages & Ha & H).
  apply try_inv_ok in Ha. destruct Ha as [_ ->].
  apply bind_inv_ok in H. destruct H as (w4 & cmap & H4 & H).
  apply bind_inv_ok in H. destruct H as (w5 & o & H5 & H).
  apply bind_inv_ok in H. destruct H as (w6 & [] & H6 & H).
  apply bind_inv_ok in H. destruct H as (? & df' & H7 & H).
  apply get_frame_inv in H7. destruct H7 as [-> _].
  apply bind_inv_ok in H. destruct H as (? & cv & Hcv & H).
  apply try_inv_ok in Hcv. destruct Hcv as [_ ->].
  unfold ret in H. inversion H. subst.
  exists preds', w2, d, w3, dfd, cmap, w4, o, w5. cbn [snd md_predictors
    md_categorical_var_map md_n md_spare_type].
  repeat (split; [assumption|]). repeat split.
Qed.

Lemma spare_train_inv (df0 predictors : ref)
    (to_predict pos_group kernel : string) (w w' : world)
    (out : model * metaData) :
  spare_train run_SVC run_SVR df_sample df0 predictors to_predict pos_group
              kernel w = (w', Ok out) ->
  exists df preds w1 tg,
    nth_error (frames w) df0 = Some df /\
    nth_error (lists w) predictors = Some preds /\
    issubset (map LStr preds) df = true /\
    determine_spare_type df to_predict pos_group w = (w1, Ok tg) /\
    (exists es, w1 = add_log w es) /\
    train_validated run_SVC run_SVR df_sample df0 predictors df preds tg
                    to_predict pos_group kernel w1 = (w', Ok out).
Proof.
  unfold spare_train. intros H.
  apply bind_inv_ok in H. destruct H as (? & df & Hdf & H).
  apply get_frame_inv in Hdf. destruct Hdf as [-> Hdf].
  apply bind_inv_ok in H. destruct H as (? & preds & Hl & H).
  apply get_list_inv in Hl. destruct Hl as [-> Hl].
  destruct (issubset (map LStr preds) df) eqn:Hsub; [|discriminate].
  cbn [negb] in H.
  apply bind_inv_ok in H. destruct H as (w1 & tg & Hdet & H).
  exists df, preds, w1, tg.
  destruct (logs_only_determine df to_predict pos_group w) as [es E].
  rewrite Hdet in E. cbn in E. subst w1.
  repeat (split; [assumption|]). split; [exists es; reflexivity | exact H].
Qed.

(** The course of a successful run: the caller's objects [df] and
    [preds]; the predictors [preds'] once the target is out; the frame
    object [d] that [df] names from line 65 on, holding [dfd] then and
    [dfE] after the encoding; the world [w3] before the encoding and the
    world [w5] after the fit. *)
Lemma spare_train_course (df0 predictors : ref)
    (to_predict pos_group kernel : string) (w w' : world)
    (out : model * metaData) :
  spare_train run_SVC run_SVR df_sample df0 predictors to_predict pos_group
              kernel w = (w', Ok out) ->
  exists df preds preds' tg d w3 dfd dfE cmap w5 o X,
    nth_error (frames w) df0 = Some df /\
    nth_error (lists w) predictors = Some preds /\
    issubset (map LStr preds) df = true /\
    preds' = (if existsb (String.eqb to_predict) preds
              then remove_first to_predict preds else preds) /\
    lists w3 = (if existsb (String.eqb to_predict) preds
                then replace_nth predictors preds' (lists w) else lists w) /\
    calls w3 = calls w /\
    frame_values df (map LStr preds') = Some X /\
    (if existsb (existsb isna) X
     then d = length (frames w) /\ frames w3 = frames w ++ [dropna df X]
     else d = df0 /\ frames w3 = frames w) /\
    nth_error (frames w3) d = Some dfd /\
    convert_categoricals d preds' w3 = (put_frame d dfE w3, Ok cmap) /\
    nrows dfE = nrows dfd /\
    labels dfE = labels dfd /\
    fit run_SVC run_SVR df_sample (fst tg) d preds' to_predict (snd tg) kernel
        (put_frame d dfE w3) = (w5, Ok o) /\
    length (out_predicted o) = nrows dfE /\
    w' = put_frame d (set_column dfE (LStr "predicted") Float64
                                 (out_predicted o)) w5 /\
    md_predictors (snd out) = preds' /\
    md_categorical_var_map (snd out) = Some cmap /\
    md_n (snd out) = nrows dfd /\
    md_spare_type (snd out) = fst tg.
Proof.
  intros H. apply spare_train_inv in H.
  destruct H as (df & preds & w1 & tg & Hdf & Hl & Hsub & _ & [es ->] & H).
  apply train_validated_inv in H.
  destruct H as (preds' & w2 & d & w3 & dfd & cmap & w4 & o & w5
                 & H1 & H2 & H3 & H4 & H5 & H6 & M1 & M2 & M3 & M4).
  apply remove_target_inv in H1.
  apply drop_invalid_inv in H2. destruct H2 as (X & HX & H2).
  destruct (@convert_categoricals_effect d preds' w3 dfd H3)
    as (dfE & E4 & Hn & Hlab).
  rewrite H4 in E4. cbn [fst] in E4. subst w4.
  assert (HdE : nth_error (frames (put_frame d dfE w3)) d = Some dfE).
  { apply put_frame_get. apply (@nth_error_lt _ (frames w3) d dfd H3). }
  pose proof (keeps_objects_fit (fst tg) d preds' to_predict (snd tg) kernel
                (put_frame d dfE w3)) as [F5 L5].
  rewrite H5 in F5, L5. cbn [fst] in F5, L5.
  apply store_predicted_inv in H6. destruct H6 as (dfs & Hs & Hlen & ->).
  rewrite F5, HdE in Hs. inversion Hs. subst dfs.
  exists df, preds, preds', tg, d, w3, dfd, dfE, cmap, w5, o, X.
  assert (Hw3 : lists w3 = (if existsb (String.eqb to_predict) preds
                            then replace_nth predictors preds' (lists w)
                            else lists w) /\
                calls w3 = calls w /\
                (if existsb (existsb isna) X
                 then d = length (frames w) /\
                      frames w3 = frames w ++ [dropna df X]
                 else d = df0 /\ frames w3 = frames w) /\
                preds' = (if existsb (String.eqb to_predict) preds
                          then remove_first to_predict preds else preds)).
  { destruct H1 as [(E1 & -> & ->)|(E1 & -> & ->)]; rewrite E1;
      destruct H2 as [(E2 & -> & ->)|(E2 & -> & ->)]; rewrite E2; cbn;
      auto. }
  destruct Hw3 as (Hl3 & Hc3 & Hf3 & Hp).
  repeat (split; [assumption || reflexivity|]). assumption.
Qed.

Lemma labels_set_column_In (df : table) (l : label) (d : dtype)
    (vals : list value) :
  In l (labels (set_column df l d vals)).
Proof.
  unfold set_column. destruct (index_of l (labels df)) as [i|] eqn:Hi.
  - unfold labels. cbn. rewrite map_replace_nth. cbn.
    eapply nth_error_In. apply nth_error_replace_nth_same.
    rewrite length_map. apply index_of_lt in Hi. unfold labels in Hi.
    rewrite length_map in Hi. exact Hi.
  - unfold labels. cbn. rewrite map_app. apply in_or_app. right. left.
    reflexivity.
Qed.






(** C9.  [spare_train] works on the caller's objects.  In a successful
    run, a target that is among the predictors is gone from the caller's
    list afterwards; and when no predictor value is missing, the caller's
    frame ends as the frame [df_enc] with a column [predicted] set, where
    [df_enc] has the labels of the input and, for a rectangular input and
    pairwise distinct predictors, holds the codes 1 and 2 in place of
    every two-valued predictor column of dtype object.  [spare_test],
    whatever its outcome, leaves every frame and list of the store as it
    was. *)
Theorem spare_train_mutates_spare_test_copies (df0 predictors : ref)
    (to_predict pos_group kernel : string) (w w' : world)
    (out : model * metaData) (df : table) (preds : list string) :
  nth_error (frames w) df0 = Some df ->
  nth_error (lists w) predictors = Some preds ->
  spare_train run_SVC run_SVR df_sample df0 predictors to_predict pos_group
              kernel w = (w', Ok out) ->
  let preds' := md_predictors (snd out) in
  (In to_predict preds ->
   preds' = remove_first to_predict preds /\
   nth_error (lists w') predictors = Some (remove_first to_predict preds)) /\
  (forall X,
     frame_values df (map LStr preds') = Some X ->
     existsb (existsb isna) X = false ->
     exists df_enc predicted,
       nth_error (frames w') df0
       = Some (set_column df_enc (LStr "predicted") Float64 predicted) /\
       In (LStr "predicted")
          (labels (set_column df_enc (LStr "predicted") Float64 predicted)) /\
       labels df_enc = labels df /\
       (wf_table df -> NoDup preds' ->
        forall var col a b,
          In var preds' -> is_object df var = true ->
          series df (LStr var) = Some col -> unique col = [a; b] ->
          series df_enc (LStr var)
          = Some (map (fun v => if value_eqb v a then VNum (inject_Z 1)
                                else VNum (inject_Z 2)) col))) /\
  (forall t0 loaded u,
     frames (fst (spare_test t0 loaded u)) = frames u /\
     lists (fst (spare_test t0 loaded u)) = lists u).
Proof.
  intros Hdf0 Hl0 Hrun preds'.
  apply spare_train_course in Hrun.
  destruct Hrun as (df1 & preds0 & preds1 & tg & d & w3 & dfd & dfE & cmap & w5
                    & o & X & Hdf & Hl & Hsub & Hp & Hl3 & Hc3 & HX & Hd
                    & Hdfd & Hconv & Hn & Hlab & Hfit & Hlen & Hw' & M1 & M2
                    & M3 & M4).
  rewrite Hdf0 in Hdf. inversion Hdf. subst df1.
  rewrite Hl0 in Hl. inversion Hl. subst preds0. clear Hdf Hl.
  unfold preds'. rewrite M1. clear preds'.
  pose proof (keeps_objects_fit (fst tg) d preds1 to_predict (snd tg) kernel
                (put_frame d dfE w3)) as [F5 L5].
  rewrite Hfit in F5, L5. cbn [fst] in F5, L5.
  split; [|split].
  - intros Hin.
    assert (E : existsb (String.eqb to_predict) preds = true).
    { apply existsb_exists. exists to_predict. split; [exact Hin|].
      apply String.eqb_refl. }
    rewrite E in Hp, Hl3. split; [exact Hp|].
    rewrite Hw'. cbn. rewrite L5. cbn. rewrite Hl3, Hp.
    apply nth_error_replace_nth_same.
    apply (@nth_error_lt _ (lists w) predictors preds Hl0).
  - intros X' HX' Hna. rewrite HX in HX'. inversion HX'. subst X'.
    rewrite Hna in Hd. destruct Hd as [-> Hf3].
    rewrite Hf3, Hdf0 in Hdfd. inversion Hdfd. subst dfd.
    exists dfE, (out_predicted o).
    split; [|split; [apply labels_set_column_In|split; [exact Hlab|]]].
    + rewrite Hw'. apply put_frame_get. rewrite F5. cbn.
      rewrite replace_nth_length, Hf3.
      apply (@nth_error_lt _ (frames w) df0 df Hdf0).
    + intros Hwf Hnd var col a b Hvar Hobj Hcol Hu.
      assert (Hdf3 : nth_error (frames w3) df0 = Some df)
        by (rewrite Hf3; exact Hdf0).
      destruct (@convert_categoricals_spec df0 preds1 w3 df Hdf3 Hwf Hnd)
        as (cmap' & df' & Erun & _ & _ & Hcodes & _).
      { intros v Hv.
        apply (proj1 (issubset_forall (map LStr preds) df) Hsub).
        apply in_map. subst preds1.
        destruct (existsb (String.eqb to_predict) preds); [|exact Hv].
        clear - Hv. induction preds as [|y rest IH]; [destruct Hv|].
        cbn in Hv. destruct (String.eqb to_predict y).
        - right. exact Hv.
        - destruct Hv as [->|Hv]; [left; reflexivity | right; apply IH, Hv]. }
      rewrite Hconv in Erun.
      assert (Ew : put_frame df0 dfE w3 = put_frame df0 df' w3)
        by (apply (f_equal fst) in Erun; exact Erun).
      assert (Edf : dfE = df').
      { apply (f_equal (fun u => nth_error (frames u) df0)) in Ew.
        rewrite !put_frame_get in Ew
          by (apply (@nth_error_lt _ (frames w3) df0 df Hdf3)).
        inversion Ew. reflexivity. }
      rewrite Edf.
      apply (Hcodes var col a b Hvar Hobj Hcol Hu).
  - intros t0 loaded u. apply keeps_objects_spare_test.
Qed.

End TrainingProperties.

(** ** The categorical maps, from training to inference *)


(** ** The statements on sample inputs *)












Lemma spare_train_mutates_spare_test_copies_witness :
  nth_error (lists (fst Sample.dx_run)) 0 = Some ["Sex"; "ROI_1"]%string /\
  (forall t0 loaded u,
      frames (fst (spare_test t0 loaded u)) = frames u /\
      lists (fst (spare_test t0 loaded u)) = lists u).
Proof.
  destruct (@spare_train_mutates_spare_test_copies Sample.run_SVC
              Sample.run_SVR Sample.df_sample 0 0 "DX"%string "AD"%string
              "linear"%string
              (Sample.store Sample.train_dx Sample.dx_predictors)
              (fst Sample.dx_run) (Sample.outcome Sample.dx_run)
              Sample.train_dx Sample.dx_predictors eq_refl eq_refl)
    as (Hlist & _ & Htest).
  - vm_compute. reflexivity.
  - split; [|exact Htest].
    apply Hlist. right. right. left. reflexivity.
Defined.


(* ================================================================== *)
(** * The rest of the code

    Edge cases, invariants and compositions of [_expspace], [spare_train]
    and [spare_test] beyond the statements above. *)

(** ** The grid on any span *)






(** ** The refined grid *)

Lemma Qmin'_le_l (a b : Q) : (Qmin' a b <= a)%Q.
Proof.
  unfold Qmin'. destruct (Qle_bool a b) eqn:E; [apply Qle_refl|].
  destruct (Qlt_le_dec b a) as [H|H]; [apply Qlt_le_weak, H|].
  apply Qle_bool_iff in H. congruence.
Qed.

Lemma Qmin'_le_r (a b : Q) : (Qmin' a b <= b)%Q.
Proof.
  unfold Qmin'. destruct (Qle_bool a b) eqn:E; [|apply Qle_refl].
  apply Qle_bool_iff, E.
Qed.

Lemma Qmax'_ge_l (a b : Q) : (a <= Qmax' a b)%Q.
Proof.
  unfold Qmax'. destruct (Qle_bool a b) eqn:E; [|apply Qle_refl].
  apply Qle_bool_iff, E.
Qed.

Lemma Qmax'_ge_r (a b : Q) : (b <= Qmax' a b)%Q.
Proof.
  unfold Qmax'. destruct (Qle_bool a b) eqn:E; [apply Qle_refl|].
  destruct (Qlt_le_dec b a) as [H|H]; [apply Qlt_le_weak, H|].
  apply Qle_bool_iff in H. congruence.
Qed.

(** The running minimum is below its start and below every entry folded
    in, and it is one of them. *)
Lemma fold_Qmin'_spec (rest : list Q) (x : Q) :
  (fold_left Qmin' rest x <= x)%Q /\
  Forall (fun q => (fold_left Qmin' rest x <= q)%Q) rest /\
  In (fold_left Qmin' rest x) (x :: rest).
Proof.
  revert x. induction rest as [|y rest IH]; intros x; cbn [fold_left].
  - split; [apply Qle_refl|]. split; [constructor | left; reflexivity].
  - destruct (IH (Qmin' x y)) as (H1 & H2 & H3).
    split; [eapply Qle_trans; [exact H1 | apply Qmin'_le_l]|].
    split.
    + constructor; [eapply Qle_trans; [exact H1 | apply Qmin'_le_r] | exact H2].
    + destruct H3 as [H3|H3]; [|right; right; exact H3].
      rewrite <- H3. unfold Qmin'. destruct (Qle_bool x y);
        [left | right; left]; reflexivity.
Qed.

Lemma fold_Qmax'_spec (rest : list Q) (x : Q) :
  (x <= fold_left Qmax' rest x)%Q /\
  Forall (fun q => (q <= fold_left Qmax' rest x)%Q) rest /\
  In (fold_left Qmax' rest x) (x :: rest).
Proof.
  revert x. induction rest as [|y rest IH]; intros x; cbn [fold_left].
  - split; [apply Qle_refl|]. split; [constructor | left; reflexivity].
  - destruct (IH (Qmax' x y)) as (H1 & H2 & H3).
    split; [eapply Qle_trans; [apply Qmax'_ge_l | exact H1]|].
    split.
    + constructor; [eapply Qle_trans; [apply Qmax'_ge_r | exact H1] | exact H2].
    + destruct H3 as [H3|H3]; [|right; right; exact H3].
      rewrite <- H3. unfold Qmax'. destruct (Qle_bool x y);
        [right; left | left]; reflexivity.
Qed.

(** [np.min] and [np.max] of a non-empty column are entries of it and
    bound it. *)
Lemma np_min_max_spec (l : list Q) :
  l <> [] ->
  exists lo hi,
    np_min l = Some lo /\ np_max l = Some hi /\
    In lo l /\ In hi l /\
    Forall (fun q => (lo <= q)%Q /\ (q <= hi)%Q) l.
Proof.
  destruct l as [|x rest]; [congruence|]. intros _.
  destruct (fold_Qmin'_spec rest x) as (A1 & A2 & A3).
  destruct (fold_Qmax'_spec rest x) as (B1 & B2 & B3).
  exists (fold_left Qmin' rest x), (fold_left Qmax' rest x).
  repeat (split; [reflexivity || assumption|]).
  constructor; [split; assumption|].
  rewrite Forall_forall in A2, B2 |- *. intros q Hq. split; auto.
Qed.





(** ** Rows, columns and lists *)

Lemma remove_first_absent (x : string) (l : list string) :
  existsb (String.eqb x) l = false -> remove_first x l = l.
Proof.
  induction l as [|y rest IH]; cbn; [reflexivity|].
  destruct (String.eqb x y); cbn; [discriminate|].
  intros H. rewrite IH by exact H. reflexivity.
Qed.

(** [list.remove(x)] takes one occurrence of [x] away, when there is one,
    and nothing else. *)
Lemma count_occ_remove_first (x p : string) (l : list string) :
  count_occ string_dec (remove_first x l) p
  = if String.eqb p x then pred (count_occ string_dec l p)
    else count_occ string_dec l p.
Proof.
  induction l as [|y rest IH]; cbn [remove_first count_occ].
  - destruct (String.eqb p x); reflexivity.
  - destruct (String.eqb x y) eqn:Exy.
    + apply String.eqb_eq in Exy. subst y.
      destruct (string_dec x p) as [->|Hne].
      * rewrite String.eqb_refl. reflexivity.
      * destruct (String.eqb p x) eqn:Epx; [|reflexivity].
        apply String.eqb_eq in Epx. congruence.
    + cbn [count_occ]. rewrite IH.
      destruct (string_dec y p) as [->|Hne]; [|reflexivity].
      rewrite String.eqb_sym, Exy. reflexivity.
Qed.

Lemma replace_nth_last (A : Type) (l : list A) (x y : A) :
  replace_nth (length l) x (l ++ [y]) = l ++ [x].
Proof.
  induction l as [|h t IH]; cbn; [reflexivity | rewrite IH; reflexivity].
Qed.

Lemma filter_combine_length (A B : Type) (p : B -> bool) (a : list A)
    (b : list B) :
  length a = length b ->
  length (map fst (filter (fun rx => p (snd rx)) (combine a b)))
  = length (filter p b).
Proof.
  revert b. induction a as [|x a IH]; intros [|y b] H; try discriminate;
    cbn; [reflexivity|].
  destruct (p y); cbn; rewrite IH by (cbn in H; lia); reflexivity.
Qed.

Lemma filter_negb_length_lt (A : Type) (q : A -> bool) (l : list A) :
  existsb q l = true -> length (filter (fun x => negb (q x)) l) < length l.
Proof.
  induction l as [|x l IH]; cbn; [discriminate|].
  destruct (q x) eqn:E; cbn.
  - intros _. pose proof (filter_length_le (fun x => negb (q x)) l). lia.
  - intros H. apply IH in H. lia.
Qed.

(** The frame of line 65 has the rows of [df] without a missing entry in
    [X]. *)
Lemma nrows_dropna (df : table) (names : list label) (X : list (list value)) :
  frame_values df names = Some X ->
  nrows (dropna df X)
  = length (filter (fun x => negb (existsb isna x)) X).
Proof.
  intros HX. unfold nrows, dropna. cbn [rows].
  apply (filter_combine_length (fun x => negb (existsb isna x))).
  symmetry. apply (select_rows_length _ _ _ HX).
Qed.

Lemma nrows_set_column_any (df : table) (l : label) (d : dtype)
    (vals : list value) :
  length vals = nrows df -> nrows (set_column df l d vals) = nrows df.
Proof.
  intros H. unfold set_column, nrows in *.
  destruct (index_of l (labels df)); cbn [rows];
    rewrite length_map, length_combine; lia.
Qed.

Lemma labels_set_column_any (df : table) (l : label) (d : dtype)
    (vals : list value) (l' : label) :
  In l' (labels (set_column df l d vals)) -> l' = l \/ In l' (labels df).
Proof.
  unfold set_column.
  destruct (index_of l (labels df)) as [i|] eqn:Hi; unfold labels; cbn.
  - rewrite map_replace_nth. cbn [fst].
    rewrite replace_nth_id by (apply index_of_Some, Hi). auto.
  - rewrite map_app. cbn. intros H. apply in_app_or in H.
    destruct H as [H|[H|[]]]; auto.
Qed.

Lemma select_columns_labels (cols : list (label * dtype))
    (names : list label) (cs : list (label * dtype)) :
  select_columns cols names = Some cs ->
  map fst cs = names /\ forall n, In n names -> In n (map fst cols).
Proof.
  revert cs. induction names as [|n rest IH]; intros cs H; cbn in H.
  - inversion H. split; [reflexivity | intros n []].
  - destruct (index_of n (map fst cols)) as [i|] eqn:Hi; [|discriminate].
    destruct (select_columns cols rest) as [cs'|]; [|discriminate].
    inversion H. subst cs. destruct (IH cs' eq_refl) as [E Hin].
    apply index_of_Some in Hi. split.
    + cbn. f_equal; [|exact E].
      rewrite <- (map_nth fst). apply nth_error_nth. exact Hi.
    + intros m [<-|Hm]; [eapply nth_error_In; exact Hi | apply Hin, Hm].
Qed.

(** [df[names]] has the named columns, in that order, and the rows of
    [df]; every name is a column of [df]. *)
Lemma subframe_shape (df : table) (names : list label) (t : table) :
  subframe df names = Some t ->
  labels t = names /\ nrows t = nrows df /\
  forall n, In n names -> In n (labels df).
Proof.
  unfold subframe. intros H.
  destruct (select_columns (columns df) names) as [cs|] eqn:Hc;
    [|discriminate].
  destruct (frame_values df names) as [rs|] eqn:Hr; [|discriminate].
  inversion H. subst t. apply select_columns_labels in Hc.
  destruct Hc as [E Hin]. unfold labels, nrows. cbn.
  split; [exact E|]. split; [|exact Hin].
  apply (select_rows_length _ _ _ Hr).
Qed.

Lemma dedup_In (x : string) (l : list string) : In x (dedup l) <-> In x l.
Proof.
  induction l as [|y rest IH]; cbn [dedup]; [reflexivity|].
  split.
  - intros [E|H]; [left; exact E|]. right.
    apply filter_In in H. apply IH, H.
  - intros [E|H]; [left; exact E|].
    destruct (String.eqb y x) eqn:Eyx.
    + left. apply String.eqb_eq, Eyx.
    + right. apply filter_In. split; [apply IH, H|]. rewrite Eyx. reflexivity.
Qed.

Lemma isin_cons (v x : value) (l : list value) :
  isin v (x :: l) = value_eqb v x || isin v l.
Proof. reflexivity. Qed.

Lemma when_logging_run (B : Type) (b : bool) (lv : level) (msg : message)
    (k : unit -> M B) (w : world) :
  bind (when b (logging lv msg)) k w
  = k tt (add_log w (if b then [(lv, msg)] else [])).
Proof.
  destruct b; cbn [when].
  - apply bind_logging_run.
  - rewrite bind_ret_run, add_log_nil. reflexivity.
Qed.

(** ** Errors are logged on the error exit only *)

Lemma error_iff_failed_quiet (A : Type) (m : M A) :
  quiet m -> error_iff_failed m.
Proof.
  intros H w. destruct (H w) as (es & N & L & R). exists es.
  split; [exact L|]. destruct (snd (m w)); [exact N | contradiction | exact N].
Qed.

Lemma error_iff_failed_fail (A : Type) (msg : message) :
  error_iff_failed (@fail A msg).
Proof.
  intros w. exists [(ERROR, msg)]. split; [reflexivity|]. cbn.
  exists [], msg. split; [reflexivity | constructor].
Qed.

Lemma error_iff_failed_bind (A B : Type) (m : M A) (k : A -> M B) :
  error_iff_failed m -> (forall a, error_iff_failed (k a)) ->
  error_iff_failed (bind m k).
Proof.
  intros Hm Hk w. destruct (Hm w) as (e1 & L1 & R1).
  unfold bind. destruct (m w) as [w1 [a| |e]]; cbn [fst snd] in L1, R1 |- *.
  - destruct (Hk a w1) as (e2 & L2 & R2). exists (e1 ++ e2).
    split; [rewrite L2, L1, app_assoc; reflexivity|].
    destruct (snd (k a w1)).
    + apply no_error_app; assumption.
    + destruct R2 as (e2' & msg & -> & N2). exists (e1 ++ e2'), msg.
      split; [rewrite app_assoc; reflexivity | apply no_error_app; assumption].
    + apply no_error_app; assumption.
  - exists e1. split; [exact L1 | exact R1].
  - exists e1. split; [exact L1 | exact R1].
Qed.

Lemma error_iff_failed_if (A : Type) (b : bool) (m1 m2 : M A) :
  error_iff_failed m1 -> error_iff_failed m2 ->
  error_iff_failed (if b then m1 else m2).
Proof. intros H1 H2. destruct b; assumption. Qed.

Ltac exit_step :=
  first [ apply error_iff_failed_bind; [|intros ?]
        | apply error_iff_failed_fail
        | apply error_iff_failed_if
        | apply error_iff_failed_quiet;
          first [ apply quiet_when; apply quiet_logging; discriminate
                | apply quiet_logging; discriminate
                | solve [auto with quiet] ] ].

Lemma error_iff_failed_determine (df : table)
    (to_predict pos_group : string) :
  error_iff_failed (determine_spare_type df to_predict pos_group).
Proof. unfold determine_spare_type. repeat exit_step. Qed.

Lemma error_iff_failed_try_convention (roi_name : list string)
    (roi_alter : list label) (df : table) :
  error_iff_failed (try_convention roi_name roi_alter df).
Proof.
  unfold try_convention. apply error_iff_failed_if; repeat exit_step.
Qed.

Lemma error_iff_failed_reconcile (predictors : list string) (df : table) :
  error_iff_failed (reconcile_predictors predictors df).
Proof.
  unfold reconcile_predictors. repeat exit_step.
  destruct (int_fields (filter has_underscore predictors)) as [ids|];
    [|apply error_iff_failed_fail].
  do 3 (apply error_iff_failed_bind;
        [apply error_iff_failed_try_convention | intros ?]).
  repeat exit_step.
Qed.

Lemma error_iff_failed_replay (entries : list (string * option cat_map)) :
  forall df, error_iff_failed (replay_categoricals entries df).
Proof.
  induction entries as [|[var [m|]] rest IH]; intros df;
    cbn [replay_categoricals].
  - exit_step.
  - apply error_iff_failed_bind; [exit_step | intros col].
    apply error_iff_failed_if; [apply IH | apply error_iff_failed_fail].
  - apply IH.
Qed.

Lemma fold_column_not_failed (mdl : model) (md : metaData) (df : table)
    (i : nat) :
  fold_column mdl md df i <> Failed.
Proof.
  unfold fold_column.
  destruct (frame_values df (map LStr (md_predictors md))); [|discriminate].
  apply rbind_not_failed.
  { unfold raw_scores.
    destruct (nth_error (mdl_scaler mdl) i); [|discriminate].
    destruct (nth_error (mdl_mdl mdl) i); [|discriminate].
    destruct (String.eqb (md_kernel md) "linear"); [|discriminate].
    destruct (all_some _); discriminate. }
  intros raw. apply rbind_not_failed.
  { unfold bias_correct. destruct (md_spare_type md); [discriminate|].
    destruct (mdl_bias_correct mdl) as [b|]; [|discriminate].
    destruct (nth_error (bias_int b) i); [|discriminate].
    destruct (nth_error (bias_slope b) i); discriminate. }
  intros corrected. destruct (series df (LStr "PTID")); [|discriminate].
  apply rbind_not_failed; [|discriminate].
  unfold training_ids.
  destruct (series (md_cv_results md) (LStr "PTID")); [|discriminate].
  destruct (nth_error (mdl_cv_folds mdl) i); [|discriminate].
  destruct (take _ _); discriminate.
Qed.

Lemma spare_scores_not_failed (mdl : model) (md : metaData) (df : table) :
  spare_scores mdl md df <> Failed.
Proof.
  unfold spare_scores. apply rbind_not_failed; [|discriminate].
  induction (seq 0 (length (mdl_scaler mdl))) as [|i rest IH];
    cbn [fold_columns]; [discriminate|].
  apply rbind_not_failed; [apply fold_column_not_failed | intros col].
  apply rbind_not_failed; [exact IH | discriminate].
Qed.

Lemma error_iff_failed_test_reconciled (loaded : model * metaData)
    (df : table) :
  error_iff_failed (test_reconciled loaded df).
Proof.
  unfold test_reconciled. do 8 exit_step; try solve [repeat exit_step].
  apply error_iff_failed_bind.
  - destruct (md_categorical_var_map (snd loaded));
      [apply error_iff_failed_replay | exit_step].
  - intros ?. apply error_iff_failed_bind; [|intros ?].
    + apply error_iff_failed_quiet. apply quiet_when. apply quiet_raise.
    + apply error_iff_failed_quiet, quiet_lift, spare_scores_not_failed.
Qed.

(** ** The warning on duplicate participants *)

Lemma duplicated_from_zero (l seen : list value) :
  duplicated_from seen l = 0 <->
  Forall (fun x => isin x seen = false) l /\
  ForallOrdPairs (fun a b => value_eqb b a = false) l.
Proof.
  revert seen. induction l as [|x rest IH]; intros seen;
    cbn [duplicated_from].
  - split; [intros _; split; constructor | reflexivity].
  - destruct (isin x seen) eqn:Ex.
    + split; [discriminate|]. intros [H _]. inversion H. congruence.
    + rewrite IH. split.
      * intros [Hall Hpairs]. split.
        -- constructor; [exact Ex|].
           rewrite Forall_forall in Hall |- *. intros y Hy.
           specialize (Hall y Hy). rewrite isin_cons in Hall.
           apply orb_false_iff in Hall. apply Hall.
        -- constructor; [|exact Hpairs].
           rewrite Forall_forall in Hall |- *. intros y Hy.
           specialize (Hall y Hy). rewrite isin_cons in Hall.
           apply orb_false_iff in Hall. apply Hall.
      * intros [Hall Hpairs]. inversion Hall as [|? ? _ Hrest]; subst.
        inversion Hpairs as [|? ? Hx Hp]; subst. split; [|exact Hp].
        rewrite Forall_forall in Hrest, Hx |- *. intros y Hy.
        rewrite isin_cons, (Hx y Hy), (Hrest y Hy). reflexivity.
Qed.

(** [np.sum(s.duplicated()) > 0] says that two entries of [s] are
    equal. *)
Lemma duplicated_count_pos (l : list value) :
  (0 <? duplicated_count l) = true <->
  ~ ForallOrdPairs (fun a b => value_eqb b a = false) l.
Proof.
  unfold duplicated_count. rewrite Nat.ltb_lt.
  pose proof (duplicated_from_zero l []) as H. split.
  - intros Hpos Hp. assert (duplicated_from [] l = 0); [|lia].
    apply H. split; [|exact Hp]. apply Forall_forall. reflexivity.
  - intros Hn. destruct (duplicated_from [] l) eqn:E; [|lia].
    exfalso. apply Hn. apply H. reflexivity.
Qed.

(** X3.  Lines 41-42 and 52-53, in a run that gets past the checks: the
    warning on duplicate participants is logged exactly when two rows
    have equal keys, the key of a row being its [PTID] in a regression
    and [PTID + target] in a classification (the concatenation of two
    strings, the sum of two numbers), so that two different participants
    can share a key. *)
Theorem duplicate_warning (df : table) (to_predict pos_group : string)
    (ptid target : list value) (w w1 : world)
    (tg : spare_type * list value) :
  series df (LStr "PTID") = Some ptid ->
  series df (LStr to_predict) = Some target ->
  determine_spare_type df to_predict pos_group w = (w1, Ok tg) ->
  exists es keys,
    w1 = add_log w es /\
    match fst tg with
    | Classification => series_add ptid target = Some keys
    | Regression => keys = ptid
    end /\
    (In (WARNING, DuplicateParticipants) es
     <-> ~ ForallOrdPairs (fun a b => value_eqb b a = false) keys).
Proof.
  intros Hptid Ht H. unfold determine_spare_type in H.
  rewrite Ht in H. cbn [try_] in H. rewrite bind_ret_run in H.
  destruct (length (unique target) =? 2).
  - destruct (String.eqb pos_group ""); [discriminate|].
    destruct (negb (isin (VStr pos_group) (unique target)));
      [discriminate|].
    destruct (np_min_nat (value_counts target)) as [smallest|];
      [|discriminate].
    cbn [try_] in H. rewrite bind_ret_run in H.
    destruct (smallest <? 10); [discriminate|].
    rewrite when_logging_run in H.
    rewrite Hptid in H. cbn [try_] in H. rewrite bind_ret_run in H.
    destruct (series_add ptid target) as [keys|]; [|discriminate].
    cbn [try_] in H. rewrite bind_ret_run in H.
    rewrite when_logging_run, add_log_app in H.
    inversion H. subst. cbn [fst].
    eexists. exists keys. split; [reflexivity|]. split; [reflexivity|].
    rewrite <- duplicated_count_pos.
    destruct (smallest <? 100); destruct (0 <? duplicated_count keys);
      cbn; intuition discriminate.
  - destruct (2 <? length (unique target)); [|discriminate].
    destruct (col_dtype df (LStr to_predict)) as [dt|]; [|discriminate].
    cbn [try_] in H. rewrite bind_ret_run in H.
    destruct (negb (dtype_eqb dt Int64 || dtype_eqb dt Float64));
      [discriminate|].
    destruct (nrows df <? 10); [discriminate|].
    rewrite when_logging_run in H.
    rewrite Hptid in H. cbn [try_] in H. rewrite bind_ret_run in H.
    rewrite !when_logging_run, !add_log_app in H.
    inversion H. subst. cbn [fst].
    eexists. exists ptid. split; [reflexivity|]. split; [reflexivity|].
    rewrite <- duplicated_count_pos.
    destruct (nrows df <? 100); destruct (0 <? duplicated_count ptid);
      destruct (negb (String.eqb pos_group "")); cbn; intuition discriminate.
Qed.

Lemma duplicate_warning_witness :
  exists es,
    fst (determine_spare_type Sample.train_dx "DX" "AD"
           (Sample.store Sample.train_dx Sample.dx_predictors))
    = add_log (Sample.store Sample.train_dx Sample.dx_predictors) es /\
    In (WARNING, DuplicateParticipants) es.
Proof.
  destruct (@duplicate_warning Sample.train_dx "DX"%string "AD"%string
              (repeat (VStr "s1"%string) 6 ++ repeat (VStr "s2"%string) 6
               ++ repeat (VStr "s3"%string) 10)
              Sample.dx_target
              (Sample.store Sample.train_dx Sample.dx_predictors)
              (fst (determine_spare_type Sample.train_dx "DX" "AD"
                      (Sample.store Sample.train_dx Sample.dx_predictors)))
              (Classification, [VStr "CN"; VStr "AD"]%string)
              eq_refl eq_refl)
    as (es & keys & Hw & Hk & Hdup).
  - vm_compute. reflexivity.
  - exists es. split; [exact Hw|]. apply Hdup.
    cbn [fst] in Hk. vm_compute in Hk. inversion Hk. subst keys.
    intros Hp. inversion Hp as [|? ? Hx _]. inversion Hx as [|? ? Hy _].
    discriminate.
Defined.

(** ** The error exits of [spare_train] *)

Lemma bind_inv_failed (A B : Type) (m : M A) (k : A -> M B) (w w2 : world) :
  bind m k w = (w2, Failed) ->
  m w = (w2, Failed) \/ exists w1 a, m w = (w1, Ok a) /\ k a w1 = (w2, Failed).
Proof.
  unfold bind. destruct (m w) as [w1 [a| |e]]; intros H.
  - right. exists w1, a. auto.
  - left. inversion H. reflexivity.
  - discriminate.
Qed.

Lemma try_not_failed (A : Type) (e : exn) (o : option A) (w w1 : world) :
  try_ e o w <> (w1, Failed).
Proof. destruct o; cbn; unfold ret, raise; discriminate. Qed.

Lemma when_logging_not_failed (b : bool) (lv : level) (msg : message)
    (w w1 : world) :
  when b (logging lv msg) w <> (w1, Failed).
Proof. destruct b; cbn; unfold ret, logging; discriminate. Qed.

(** The error exits of lines 32-58: each is taken with nothing logged
    before it. *)
Lemma determine_failed (df : table) (to_predict pos_group : string)
    (w w1 : world) :
  determine_spare_type df to_predict pos_group w = (w1, Failed) ->
  exists msg,
    w1 = add_log w [(ERROR, msg)] /\
    In msg [PosGroupNotProvided; PosGroupNoMatch; GroupTooSmall;
            TargetNotBinaryOrNumeric; SampleTooSmall; NoVariance].
Proof.
  unfold determine_spare_type. intros H.
  apply bind_inv_failed in H.
  destruct H as [H|(w2 & target & Ht & H)]; [apply try_not_failed in H as []|].
  apply try_inv_ok in Ht. destruct Ht as [_ ->].
  destruct (length (unique target) =? 2).
  - destruct (String.eqb pos_group "").
    { inversion H. exists PosGroupNotProvided. cbn. auto 10. }
    destruct (negb (isin (VStr pos_group) (unique target))).
    { inversion H. exists PosGroupNoMatch. cbn. auto 10. }
    apply bind_inv_failed in H.
    destruct H as [H|(w2 & smallest & Hs & H)];
      [apply try_not_failed in H as []|].
    apply try_inv_ok in Hs. destruct Hs as [_ ->].
    apply bind_inv_failed in H. destruct H as [H|(w2 & [] & Hs & H)].
    { destruct (smallest <? 10).
      - inversion H. exists GroupTooSmall. cbn. auto 10.
      - apply when_logging_not_failed in H as []. }
    apply bind_inv_failed in H.
    destruct H as [H|(w3 & ptid & _ & H)]; [apply try_not_failed in H as []|].
    apply bind_inv_failed in H.
    destruct H as [H|(w4 & keys & _ & H)]; [apply try_not_failed in H as []|].
    apply bind_inv_failed in H.
    destruct H as [H|(w5 & [] & _ & H)];
      [apply when_logging_not_failed in H as [] | discriminate].
  - destruct (2 <? length (unique target)).
    + apply bind_inv_failed in H.
      destruct H as [H|(w2 & dt & Hd & H)];
        [apply try_not_failed in H as []|].
      apply try_inv_ok in Hd. destruct Hd as [_ ->].
      destruct (negb (dtype_eqb dt Int64 || dtype_eqb dt Float64)).
      { inversion H. exists TargetNotBinaryOrNumeric. cbn. auto 10. }
      apply bind_inv_failed in H. destruct H as [H|(w2 & [] & Hs & H)].
      { destruct (nrows df <? 10).
        - inversion H. exists SampleTooSmall. cbn. auto 10.
        - apply when_logging_not_failed in H as []. }
      apply bind_inv_failed in H.
      destruct H as [H|(w3 & ptid & _ & H)];
        [apply try_not_failed in H as []|].
      apply bind_inv_failed in H.
      destruct H as [H|(w4 & [] & _ & H)];
        [apply when_logging_not_failed in H as []|].
      apply bind_inv_failed in H.
      destruct H as [H|(w5 & [] & _ & H)];
        [apply when_logging_not_failed in H as [] | discriminate].
    + inversion H. exists NoVariance. cbn. auto 10.
Qed.

Section TrainingEdges.

Variable run_SVC :
  table -> list string -> string -> list value -> param_grid -> string ->
  option nat -> option nat -> trainer_output.
Variable run_SVR :
  table -> list string -> string -> param_grid ->
  option nat -> option nat -> trainer_output.
Variable df_sample : table -> nat -> Z -> table.

(** When the call takes the error exit, one error is all that has
    happened. *)
Lemma spare_train_failed_inv (df0 predictors : ref)
    (to_predict pos_group kernel : string) (w : world) :
  snd (spare_train run_SVC run_SVR df_sample df0 predictors to_predict
                   pos_group kernel w) = Failed ->
  exists msg,
    fst (spare_train run_SVC run_SVR df_sample df0 predictors to_predict
                     pos_group kernel w) = add_log w [(ERROR, msg)] /\
    In msg [PredictorsNotInFrame; PosGroupNotProvided; PosGroupNoMatch;
            GroupTooSmall; TargetNotBinaryOrNumeric; SampleTooSmall;
            NoVariance].
Proof.
  intros H.
  destruct (spare_train run_SVC run_SVR df_sample df0 predictors to_predict
              pos_group kernel w) as [w' r] eqn:E.
  cbn [fst snd] in H |- *. subst r. unfold spare_train in E.
  apply bind_inv_failed in E. destruct E as [E|(w1 & df & Hdf & E)].
  { unfold get_frame in E. destruct (nth_error (frames w) df0); discriminate. }
  apply get_frame_inv in Hdf. destruct Hdf as [-> Hdf].
  apply bind_inv_failed in E. destruct E as [E|(w1 & preds & Hl & E)].
  { unfold get_list in E.
    destruct (nth_error (lists w) predictors); discriminate. }
  apply get_list_inv in Hl. destruct Hl as [-> Hl].
  destruct (negb (issubset (map LStr preds) df)).
  { inversion E. exists PredictorsNotInFrame. cbn. auto 10. }
  apply bind_inv_failed in E. destruct E as [E|(w1 & tg & _ & E)].
  - apply determine_failed in E. destruct E as (msg & -> & Hin).
    exists msg. split; [reflexivity|]. right. exact Hin.
  - destruct (quiet_train_validated run_SVC run_SVR df_sample df0 predictors
                df preds tg to_predict pos_group kernel w1) as (es & _ & _ & N).
    rewrite E in N. cbn in N. congruence.
Qed.



Lemma error_iff_failed_spare_train (df0 predictors : ref)
    (to_predict pos_group kernel : string) :
  error_iff_failed (spare_train run_SVC run_SVR df_sample df0 predictors
                                to_predict pos_group kernel).
Proof.
  unfold spare_train.
  apply error_iff_failed_bind;
    [apply error_iff_failed_quiet, quiet_get_frame | intros df].
  apply error_iff_failed_bind;
    [apply error_iff_failed_quiet, quiet_get_list | intros preds].
  apply error_iff_failed_if; [apply error_iff_failed_fail|].
  apply error_iff_failed_bind; [apply error_iff_failed_determine | intros tg].
  apply error_iff_failed_quiet, quiet_train_validated.
Qed.

(** X4.  An error is logged by [spare_train] exactly when it takes a
    [return logging.error(...)] exit, and every such exit comes before
    anything else has happened.  When the call takes the exit, the log has
    gained that one error (one of the seven of lines 28-58) and nothing
    else, no trainer has been called and no frame or list of the caller
    has been touched; when it returns a model or raises, it has logged
    no error. *)
Theorem spare_train_error_exit (df0 predictors : ref)
    (to_predict pos_group kernel : string) (w : world) :
  match snd (spare_train run_SVC run_SVR df_sample df0 predictors to_predict
                         pos_group kernel w) with
  | Failed =>
      exists msg,
        fst (spare_train run_SVC run_SVR df_sample df0 predictors to_predict
                         pos_group kernel w) = add_log w [(ERROR, msg)] /\
        In msg [PredictorsNotInFrame; PosGroupNotProvided; PosGroupNoMatch;
                GroupTooSmall; TargetNotBinaryOrNumeric; SampleTooSmall;
                NoVariance]
  | _ =>
      exists es,
        log (fst (spare_train run_SVC run_SVR df_sample df0 predictors
                              to_predict pos_group kernel w)) = log w ++ es /\
        no_error es
  end.
Proof.
  pose proof (@spare_train_failed_inv df0 predictors to_predict pos_group
                kernel w) as Hfail.
  destruct (error_iff_failed_spare_train df0 predictors to_predict pos_group
              kernel w) as (es & L & R).
  destruct (snd (spare_train run_SVC run_SVR df_sample df0 predictors
                             to_predict pos_group kernel w)).
  - exists es. auto.
  - apply Hfail. reflexivity.
  - exists es. auto.
Qed.

Lemma index_of_None (l : label) (ls : list label) :
  ~ In l ls -> index_of l ls = None.
Proof.
  induction ls as [|x rest IH]; intros H; cbn; [reflexivity|].
  destruct (label_eqb l x) eqn:E.
  - apply label_eqb_eq in E. subst. exfalso. apply H. left. reflexivity.
  - rewrite IH; [reflexivity|]. intros Hin. apply H. right. exact Hin.
Qed.

(** X5.  The order of the first checks (lines 28-58).  A predictor that is
    not a column gives the error exit of line 29 whatever the target is;
    with all predictors there, a target that is not a column raises
    [KeyError] with nothing logged; and a target column with fewer than two
    distinct values (an empty table among them) gives the error exit of
    line 58. *)
Theorem spare_train_first_checks (df0 predictors : ref)
    (to_predict pos_group kernel : string) (df : table)
    (preds : list string) (w : world) :
  nth_error (frames w) df0 = Some df ->
  nth_error (lists w) predictors = Some preds ->
  ((exists p, In p preds /\ ~ In (LStr p) (labels df)) ->
   spare_train run_SVC run_SVR df_sample df0 predictors to_predict pos_group
               kernel w
   = (add_log w [(ERROR, PredictorsNotInFrame)], Failed)) /\
  ((forall p, In p preds -> In (LStr p) (labels df)) ->
   (~ In (LStr to_predict) (labels df) ->
    spare_train run_SVC run_SVR df_sample df0 predictors to_predict pos_group
                kernel w
    = (w, Raised KeyError)) /\
   (forall target,
      series df (LStr to_predict) = Some target ->
      length (unique target) < 2 ->
      spare_train run_SVC run_SVR df_sample df0 predictors to_predict
                  pos_group kernel w
      = (add_log w [(ERROR, NoVariance)], Failed)) /\
   (nrows df = 0 -> In (LStr to_predict) (labels df) ->
    spare_train run_SVC run_SVR df_sample df0 predictors to_predict
                pos_group kernel w
    = (add_log w [(ERROR, NoVariance)], Failed))).
Proof.
  intros Hdf Hl. split.
  - intros (p & Hp & Hnot). unfold spare_train.
    rewrite (bind_ok _ (@get_frame_run df0 df w Hdf)).
    rewrite (bind_ok _ (@get_list_run predictors preds w Hl)).
    destruct (issubset (map LStr preds) df) eqn:Hsub; [|reflexivity].
    exfalso. apply Hnot.
    apply (proj1 (issubset_forall (map LStr preds) df) Hsub).
    apply in_map. exact Hp.
  - intros Hall.
    assert (Hsub : issubset (map LStr preds) df = true).
    { apply issubset_forall. intros l Hin. apply in_map_iff in Hin.
      destruct Hin as (p & <- & Hp). apply Hall, Hp. }
    rewrite (@spare_train_run run_SVC run_SVR df_sample df0 predictors
               to_predict pos_group kernel df preds w Hdf Hl Hsub).
    assert (Hnv : forall target,
               series df (LStr to_predict) = Some target ->
               length (unique target) < 2 ->
               bind (determine_spare_type df to_predict pos_group)
                 (fun tg => train_validated run_SVC run_SVR df_sample df0
                              predictors df preds tg to_predict pos_group
                              kernel) w
               = (add_log w [(ERROR, NoVariance)], Failed)).
    { intros target Ht Hu. apply bind_failed.
      unfold determine_spare_type. rewrite Ht. cbn [try_].
      rewrite bind_ret_run.
      replace (length (unique target) =? 2) with false
        by (symmetry; apply Nat.eqb_neq; lia).
      replace (2 <? length (unique target)) with false
        by (symmetry; apply Nat.ltb_ge; lia).
      reflexivity. }
    split; [|split].
    + intros Hnot. apply bind_raised. unfold determine_spare_type, series.
      rewrite (index_of_None _ _ Hnot). reflexivity.
    + exact Hnv.
    + intros Hn Hin. destruct (series_In df _ Hin) as [target Ht].
      apply (Hnv target Ht).
      pose proof (series_length _ _ Ht) as Hlen. rewrite Hn in Hlen.
      destruct target; [cbn; lia | discriminate].
Qed.

(** Everything a successful run has gone through, and the artifact it
    returns. *)
Lemma spare_train_full (df0 predictors : ref)
    (to_predict pos_group kernel : string) (w w' : world)
    (out : model * metaData) :
  spare_train run_SVC run_SVR df_sample df0 predictors to_predict pos_group
              kernel w = (w', Ok out) ->
  exists df preds preds' tg es d w3 dfd age ages dfE cmap w5 o X cv,
    nth_error (frames w) df0 = Some df /\
    nth_error (lists w) predictors = Some preds /\
    issubset (map LStr preds) df = true /\
    determine_spare_type df to_predict pos_group w = (add_log w es, Ok tg) /\
    preds' = (if existsb (String.eqb to_predict) preds
              then remove_first to_predict preds else preds) /\
    frame_values df (map LStr preds') = Some X /\
    (if existsb (existsb isna) X
     then d = length (frames w) /\ frames w3 = frames w ++ [dropna df X] /\
          dfd = dropna df X
     else d = df0 /\ frames w3 = frames w /\ dfd = df) /\
    calls w3 = calls w /\
    nth_error (frames w3) d = Some dfd /\
    series dfd (LStr "Age") = Some age /\
    numeric_values age = Some ages /\
    convert_categoricals d preds' w3 = (put_frame d dfE w3, Ok cmap) /\
    nrows dfE = nrows dfd /\
    labels dfE = labels dfd /\
    fit run_SVC run_SVR df_sample (fst tg) d preds' to_predict (snd tg) kernel
        (put_frame d dfE w3) = (w5, Ok o) /\
    frames w5 = frames (put_frame d dfE w3) /\
    length (out_predicted o) = nrows dfE /\
    w' = put_frame d (set_column dfE (LStr "predicted") Float64
                                 (out_predicted o)) w5 /\
    subframe (set_column dfE (LStr "predicted") Float64 (out_predicted o))
             (map LStr (dedup ["PTID"; "Age"; "Sex"; to_predict;
                               "predicted"]%string)) = Some cv /\
    out = (out_mdl o,
           {| md_spare_type := fst tg;
              md_kernel := kernel;
              md_n := nrows dfd;
              md_age_range := (np_floor (np_min ages), np_floor (np_max ages));
              md_to_predict := to_predict;
              md_predictors := preds';
              md_categorical_var_map := Some cmap;
              md_pos_group :=
                match fst tg with
                | Classification =>
                    if String.eqb kernel "linear" then Some pos_group else None
                | Regression => None
                end;
              md_perf := out_perf o;
              md_params := out_params o;
              md_cv_results := cv |}).
Proof.
  intros H. apply spare_train_inv in H.
  destruct H as (df & preds & w1 & tg & Hdf & Hl & Hsub & Hdet & [es ->] & H).
  unfold train_validated in H.
  apply bind_inv_ok in H. destruct H as (w2 & preds' & H1 & H).
  apply bind_inv_ok in H. destruct H as (w3 & d & H2 & H).
  apply bind_inv_ok in H. destruct H as (w3' & dfd & H3 & H).
  apply get_frame_inv in H3. destruct H3 as [-> H3].
  apply bind_inv_ok in H. destruct H as (? & age & Ha & H).
  apply try_inv_ok in Ha. destruct Ha as [Hage ->].
  apply bind_inv_ok in H. destruct H as (? & ages & Ha & H).
  apply try_inv_ok in Ha. destruct Ha as [Hages ->].
  apply bind_inv_ok in H. destruct H as (w4 & cmap & H4 & H).
  apply bind_inv_ok in H. destruct H as (w5 & o & H5 & H).
  apply bind_inv_ok in H. destruct H as (w6 & [] & H6 & H).
  apply bind_inv_ok in H. destruct H as (? & df' & H7 & H).
  apply get_frame_inv in H7. destruct H7 as [-> H7].
  apply bind_inv_ok in H. destruct H as (? & cv & Hcv & H).
  apply try_inv_ok in Hcv. destruct Hcv as [Hcv ->].
  unfold ret in H. inversion H. subst w6. clear H.
  apply remove_target_inv in H1.
  apply drop_invalid_inv in H2. destruct H2 as (X & HX & H2).
  destruct (@convert_categoricals_effect d preds' w3 dfd H3)
    as (dfE & E4 & Hn & Hlab).
  rewrite H4 in E4. cbn [fst] in E4. subst w4.
  assert (HdE : nth_error (frames (put_frame d dfE w3)) d = Some dfE).
  { apply put_frame_get. apply (@nth_error_lt _ (frames w3) d dfd H3). }
  pose proof (keeps_objects_fit run_SVC run_SVR df_sample (fst tg) d preds'
                to_predict (snd tg) kernel (put_frame d dfE w3)) as [F5 L5].
  rewrite H5 in F5, L5. cbn [fst] in F5, L5.
  apply store_predicted_inv in H6. destruct H6 as (dfs & Hs & Hlen & ->).
  rewrite F5, HdE in Hs. inversion Hs. subst dfs.
  assert (Hd5 : d < length (frames w5)).
  { rewrite F5. cbn. rewrite replace_nth_length.
    apply (@nth_error_lt _ (frames w3) d dfd H3). }
  rewrite (put_frame_get _ _ Hd5) in H7. inversion H7. subst df'.
  exists df, preds, preds', tg, es, d, w3, dfd, age, ages, dfE, cmap, w5, o,
    X, cv.
  assert (Hw3 : preds' = (if existsb (String.eqb to_predict) preds
                          then remove_first to_predict preds else preds) /\
                (if existsb (existsb isna) X
                 then d = length (frames w) /\
                      frames w3 = frames w ++ [dropna df X] /\
                      dfd = dropna df X
                 else d = df0 /\ frames w3 = frames w /\ dfd = df) /\
                calls w3 = calls w).
  { destruct H1 as [(E1 & -> & ->)|(E1 & -> & ->)]; rewrite E1;
      destruct H2 as [(E2 & -> & ->)|(E2 & -> & ->)]; rewrite E2;
      cbn in H3 |- *;
      try (rewrite nth_error_app2, Nat.sub_diag in H3 by lia; cbn in H3);
      try (rewrite Hdf in H3); inversion H3; auto. }
  destruct Hw3 as (Hp & Hf3 & Hc3).
  repeat (split; [assumption || reflexivity|]). reflexivity.
Qed.

(** X6.  Lines 63-65 with a missing predictor value somewhere: [df] is
    rebound to a new frame, so the caller's frame object is left exactly
    as it was (no encoded column, no [predicted] column); the store gains
    one frame, the one trained on; and [n] in the metadata is the number
    of rows without a missing predictor value, fewer than the caller's
    frame has. *)
Theorem spare_train_drops_incomplete_rows (df0 predictors : ref)
    (to_predict pos_group kernel : string) (df : table)
    (preds : list string) (X : list (list value)) (w w' : world)
    (out : model * metaData) :
  nth_error (frames w) df0 = Some df ->
  nth_error (lists w) predictors = Some preds ->
  frame_values df (map LStr (remove_first to_predict preds)) = Some X ->
  existsb (existsb isna) X = true ->
  spare_train run_SVC run_SVR df_sample df0 predictors to_predict pos_group
              kernel w = (w', Ok out) ->
  nth_error (frames w') df0 = Some df /\
  (exists trained,
     frames w' = frames w ++ [trained] /\
     nrows trained = md_n (snd out) /\
     In (LStr "predicted") (labels trained)) /\
  md_n (snd out) = length (filter (fun x => negb (existsb isna x)) X) /\
  md_n (snd out) < nrows df.
Proof.
  intros Hdf Hl HX Hna H. apply spare_train_full in H.
  destruct H as (df_ & preds_ & preds' & tg & es & d & w3 & dfd & age & ages
                 & dfE & cmap & w5 & o & X_ & cv & Hdf' & Hl' & Hsub & Hdet
                 & Hp & HX' & Hdrop & Hc3 & H3 & Hage & Hages & Hconv & Hn
                 & Hlab & Hfit & F5 & Hlen & -> & Hcv & ->).
  rewrite Hdf in Hdf'. inversion Hdf'. subst df_.
  rewrite Hl in Hl'. inversion Hl'. subst preds_.
  assert (Hp' : preds' = remove_first to_predict preds).
  { rewrite Hp. destruct (existsb (String.eqb to_predict) preds) eqn:E;
      [reflexivity | symmetry; apply remove_first_absent, E]. }
  rewrite Hp' in HX'. rewrite HX in HX'. inversion HX'. subst X_.
  rewrite Hna in Hdrop. destruct Hdrop as (-> & F3 & ->).
  cbn [snd md_n].
  assert (Hfr : frames (put_frame (length (frames w))
                          (set_column dfE (LStr "predicted") Float64
                             (out_predicted o)) w5)
                = frames w ++ [set_column dfE (LStr "predicted") Float64
                                 (out_predicted o)]).
  { cbn [put_frame frames]. rewrite F5. cbn [put_frame frames].
    rewrite replace_nth_twice, F3. apply replace_nth_last. }
  split; [|split; [|split]].
  - rewrite Hfr, nth_error_app1 by (apply (nth_error_lt _ _ Hdf)). exact Hdf.
  - eexists. split; [exact Hfr|]. split.
    + rewrite nrows_set_column_any by exact Hlen. exact Hn.
    + apply labels_set_column_In.
  - apply (nrows_dropna _ _ HX).
  - rewrite (nrows_dropna _ _ HX).
    unfold nrows. rewrite <- (select_rows_length _ _ _ HX).
    apply filter_negb_length_lt, Hna.
Qed.

(** X7.  What the artifact records of the call (lines 69-74 and 86-91).
    The kernel and the target are stored as given.  A classification model
    is returned only for the kernels ['linear'] and ['rbf'] (any other
    leaves [param_grid] unbound), and the positive group is stored only
    with the linear kernel; a regression model stores no positive
    group. *)
Theorem spare_train_artifact_kernel (df0 predictors : ref)
    (to_predict pos_group kernel : string) (w w' : world)
    (out : model * metaData) :
  spare_train run_SVC run_SVR df_sample df0 predictors to_predict pos_group
              kernel w = (w', Ok out) ->
  md_kernel (snd out) = kernel /\
  md_to_predict (snd out) = to_predict /\
  match md_spare_type (snd out) with
  | Classification =>
      (kernel = "linear"%string /\ md_pos_group (snd out) = Some pos_group)
      \/ (kernel = "rbf"%string /\ md_pos_group (snd out) = None)
  | Regression => md_pos_group (snd out) = None
  end.
Proof.
  intros H. apply spare_train_full in H.
  destruct H as (df & preds & preds' & tg & es & d & w3 & dfd & age & ages
                 & dfE & cmap & w5 & o & X & cv & Hdf & Hl & Hsub & Hdet
                 & Hp & HX & Hdrop & Hc3 & H3 & Hage & Hages & Hconv & Hn
                 & Hlab & Hfit & F5 & Hlen & -> & Hcv & ->).
  cbn [snd md_kernel md_to_predict md_spare_type md_pos_group].
  split; [reflexivity|]. split; [reflexivity|].
  assert (HdE : nth_error (frames (put_frame d dfE w3)) d = Some dfE).
  { apply put_frame_get. apply (nth_error_lt _ _ H3). }
  destruct (@fit_inv run_SVC run_SVR df_sample _ _ _ _ _ _ _ _ _ _ HdE Hfit)
    as (coarse & Hcoarse & _).
  destruct (fst tg); [|reflexivity].
  unfold coarse_grid in Hcoarse.
  destruct (String.eqb kernel "linear") eqn:E1.
  - left. apply String.eqb_eq in E1. auto.
  - destruct (String.eqb kernel "rbf") eqn:E2; [|discriminate].
    right. apply String.eqb_eq in E2. auto.
Qed.

(** X8.  Lines 92-98 and 103-109 with at most 1000 training rows: there
    is no coarse pass.  The run makes exactly one trainer call, on the
    whole encoded frame with the coarse grid and the trainer's default
    repeat count, and the returned model, performance and optima are the
    results of that call. *)
Theorem spare_train_single_fit (df0 predictors : ref)
    (to_predict pos_group kernel : string) (w w' : world)
    (out : model * metaData) :
  spare_train run_SVC run_SVR df_sample df0 predictors to_predict pos_group
              kernel w = (w', Ok out) ->
  md_n (snd out) <= 1000 ->
  exists dfE groups coarse,
    coarse_grid (md_spare_type (snd out)) kernel = Ok coarse /\
    nrows dfE = md_n (snd out) /\
    calls w' = calls w ++ [trainer_event (md_spare_type (snd out)) dfE
                             (md_predictors (snd out)) to_predict groups
                             coarse kernel None None] /\
    let o := trainer_result run_SVC run_SVR (md_spare_type (snd out)) dfE
               (md_predictors (snd out)) to_predict groups coarse kernel
               None None in
    fst out = out_mdl o /\
    md_perf (snd out) = out_perf o /\
    md_params (snd out) = out_params o.
Proof.
  intros H Hsmall. apply spare_train_full in H.
  destruct H as (df & preds & preds' & tg & es & d & w3 & dfd & age & ages
                 & dfE & cmap & w5 & o & X & cv & Hdf & Hl & Hsub & Hdet
                 & Hp & HX & Hdrop & Hc3 & H3 & Hage & Hages & Hconv & Hn
                 & Hlab & Hfit & F5 & Hlen & -> & Hcv & ->).
  cbn [snd fst md_n md_spare_type md_predictors md_perf md_params] in *.
  assert (HdE : nth_error (frames (put_frame d dfE w3)) d = Some dfE).
  { apply put_frame_get. apply (nth_error_lt _ _ H3). }
  destruct (@fit_inv run_SVC run_SVR df_sample _ _ _ _ _ _ _ _ _ _ HdE Hfit)
    as (coarse & Hcoarse & [(Hbig & _)|(_ & -> & ->)]); [lia|].
  exists dfE, (snd tg), coarse.
  split; [exact Hcoarse|]. split; [exact Hn|].
  split; [cbn; rewrite Hc3; reflexivity|].
  cbn. auto.
Qed.

(** X9.  Lines 60-62 and 74: the stored predictors are the caller's list
    with one occurrence of the target taken out, nothing else: a target
    listed once (or not at all) is not among them, one listed twice still
    is.  Every stored predictor is a column of the caller's frame. *)
Theorem spare_train_stored_predictors (df0 predictors : ref)
    (to_predict pos_group kernel : string) (df : table)
    (preds : list string) (w w' : world) (out : model * metaData) :
  nth_error (frames w) df0 = Some df ->
  nth_error (lists w) predictors = Some preds ->
  spare_train run_SVC run_SVR df_sample df0 predictors to_predict pos_group
              kernel w = (w', Ok out) ->
  md_predictors (snd out) = remove_first to_predict preds /\
  (forall p,
     count_occ string_dec (md_predictors (snd out)) p
     = if String.eqb p to_predict then pred (count_occ string_dec preds p)
       else count_occ string_dec preds p) /\
  (In to_predict (md_predictors (snd out))
   <-> 2 <= count_occ string_dec preds to_predict) /\
  (forall p, In p (md_predictors (snd out)) -> In (LStr p) (labels df)).
Proof.
  intros Hdf Hl H. apply spare_train_full in H.
  destruct H as (df_ & preds_ & preds' & tg & es & d & w3 & dfd & age & ages
                 & dfE & cmap & w5 & o & X & cv & Hdf' & Hl' & Hsub & Hdet
                 & Hp & HX & Hdrop & Hc3 & H3 & Hage & Hages & Hconv & Hn
                 & Hlab & Hfit & F5 & Hlen & -> & Hcv & ->).
  rewrite Hdf in Hdf'. inversion Hdf'. subst df_.
  rewrite Hl in Hl'. inversion Hl'. subst preds_.
  assert (Hp' : preds' = remove_first to_predict preds).
  { rewrite Hp. destruct (existsb (String.eqb to_predict) preds) eqn:E;
      [reflexivity | symmetry; apply remove_first_absent, E]. }
  cbn [snd md_predictors]. rewrite Hp'.
  assert (Hcount : forall p,
             count_occ string_dec (remove_first to_predict preds) p
             = if String.eqb p to_predict
               then pred (count_occ string_dec preds p)
               else count_occ string_dec preds p)
    by (intros p; apply count_occ_remove_first).
  split; [reflexivity|]. split; [exact Hcount|]. split.
  - rewrite (count_occ_In string_dec), Hcount, String.eqb_refl. lia.
  - intros p Hin.
    apply (proj1 (issubset_forall (map LStr preds) df) Hsub).
    apply in_map. apply (count_occ_In string_dec).
    apply (count_occ_In string_dec) in Hin. rewrite Hcount in Hin.
    destruct (String.eqb p to_predict); lia.
Qed.

(** X10.  Line 110: the cross-validation table kept in the artifact has the
    columns [PTID], [Age], [Sex], the target and [predicted], each once
    and in that order, and one row per training row.  So a run that
    returns a model was given a frame with the columns [PTID], [Age] and
    [Sex], whether or not they are predictors. *)
Theorem spare_train_cv_results (df0 predictors : ref)
    (to_predict pos_group kernel : string) (df : table) (w w' : world)
    (out : model * metaData) :
  nth_error (frames w) df0 = Some df ->
  spare_train run_SVC run_SVR df_sample df0 predictors to_predict pos_group
              kernel w = (w', Ok out) ->
  labels (md_cv_results (snd out))
  = map LStr (dedup ["PTID"; "Age"; "Sex"; to_predict; "predicted"]%string) /\
  nrows (md_cv_results (snd out)) = md_n (snd out) /\
  In (LStr "PTID") (labels df) /\
  In (LStr "Age") (labels df) /\
  In (LStr "Sex") (labels df).
Proof.
  intros Hdf H. apply spare_train_full in H.
  destruct H as (df_ & preds & preds' & tg & es & d & w3 & dfd & age & ages
                 & dfE & cmap & w5 & o & X & cv & Hdf' & Hl & Hsub & Hdet
                 & Hp & HX & Hdrop & Hc3 & H3 & Hage & Hages & Hconv & Hn
                 & Hlab & Hfit & F5 & Hlen & -> & Hcv & ->).
  rewrite Hdf in Hdf'. inversion Hdf'. subst df_.
  cbn [snd md_cv_results md_n].
  apply subframe_shape in Hcv. destruct Hcv as (Hlabels & Hrows & Hcols).
  split; [exact Hlabels|].
  split; [rewrite Hrows, nrows_set_column_any by exact Hlen; exact Hn|].
  assert (Hld : labels dfd = labels df).
  { destruct (existsb (existsb isna) X);
      [destruct Hdrop as (_ & _ & ->) | destruct Hdrop as (_ & _ & ->)];
      reflexivity. }
  assert (Hcol : forall s, s <> "predicted"%string ->
             In s (dedup ["PTID"; "Age"; "Sex"; to_predict;
                          "predicted"]%string) ->
             In (LStr s) (labels df)).
  { intros s Hne Hin. rewrite <- Hld, <- Hlab.
    destruct (labels_set_column_any dfE (LStr "predicted") Float64
                (out_predicted o) (LStr s)) as [E|Hin'].
    - apply Hcols, in_map, Hin.
    - inversion E. contradiction.
    - exact Hin'. }
  repeat split; apply Hcol; try discriminate; apply dedup_In; cbn; auto.
Qed.

(** The groups of a classification (line 44): the other value of the
    target first, the positive group last. *)
Lemma determine_classification_groups (df : table)
    (to_predict pos_group : string) (w w1 : world)
    (tg : spare_type * list value) :
  determine_spare_type df to_predict pos_group w = (w1, Ok tg) ->
  fst tg = Classification ->
  exists target other,
    series df (LStr to_predict) = Some target /\
    snd tg = [other; VStr pos_group] /\
    value_eqb other (VStr pos_group) = false /\
    (unique target = [other; VStr pos_group] \/
     unique target = [VStr pos_group; other]).
Proof.
  unfold determine_spare_type. intros H Hty.
  apply bind_inv_ok in H. destruct H as (w2 & target & Ht & H).
  apply try_inv_ok in Ht. destruct Ht as [Ht ->].
  destruct (length (unique target) =? 2) eqn:E2.
  - destruct (String.eqb pos_group ""); [discriminate|].
    destruct (negb (isin (VStr pos_group) (unique target))) eqn:Epos;
      [discriminate|].
    do 5 (apply bind_inv_ok in H; destruct H as (? & ? & _ & H)).
    inversion H. subst tg. clear H. cbn [snd].
    apply negb_false_iff in Epos. apply Nat.eqb_eq in E2.
    destruct (unique target) as [|a [|b [|c r]]] eqn:Eu; try discriminate.
    destruct (@unique_two target a b Eu) as [Hba _].
    assert (Hstr : forall x, value_eqb (VStr pos_group) x = true ->
                             x = VStr pos_group).
    { intros [q|s|]; cbn; try discriminate. intros E.
      apply String.eqb_eq in E. subst. reflexivity. }
    assert (Hsym : forall x, value_eqb x (VStr pos_group)
                            = value_eqb (VStr pos_group) x).
    { intros [q|s|]; cbn; try reflexivity. apply String.eqb_sym. }
    exists target. cbn [isin existsb] in Epos. cbn [filter app].
    rewrite !Hsym.
    destruct (value_eqb (VStr pos_group) a) eqn:Ea.
    + apply Hstr in Ea. subst a.
      rewrite <- Hsym, Hba. cbn. exists b.
      split; [exact Ht|]. split; [reflexivity|]. split; [exact Hba|].
      right. exact Eu.
    + rewrite orb_false_l, orb_false_r in Epos. rewrite Epos. cbn.
      apply Hstr in Epos. subst b. exists a.
      split; [exact Ht|]. split; [reflexivity|].
      split; [rewrite Hsym; exact Ea|]. left. exact Eu.
  - destruct (2 <? length (unique target)); [|discriminate].
    apply bind_inv_ok in H. destruct H as (? & dt & _ & H).
    destruct (negb (dtype_eqb dt Int64 || dtype_eqb dt Float64));
      [discriminate|].
    do 4 (apply bind_inv_ok in H; destruct H as (? & ? & _ & H)).
    inversion H. subst tg. discriminate.
Qed.

(** X11.  Line 44 and the calls of lines 93 and 97: in a classification
    every call of [run_SVC] gets the two values of the target as the
    groups to classify, the positive group last and the other value
    first, whatever their order in the data. *)
Theorem spare_train_positive_group_last (df0 predictors : ref)
    (to_predict pos_group kernel : string) (df : table) (w w' : world)
    (out : model * metaData) :
  nth_error (frames w) df0 = Some df ->
  spare_train run_SVC run_SVR df_sample df0 predictors to_predict pos_group
              kernel w = (w', Ok out) ->
  md_spare_type (snd out) = Classification ->
  exists target other made,
    series df (LStr to_predict) = Some target /\
    (unique target = [other; VStr pos_group] \/
     unique target = [VStr pos_group; other]) /\
    value_eqb other (VStr pos_group) = false /\
    calls w' = calls w ++ made /\
    made <> [] /\
    Forall (fun c => match c with
                     | CallSVC _ _ _ groups _ _ _ _ =>
                         groups = [other; VStr pos_group]
                     | CallSVR _ _ _ _ _ _ => False
                     end) made.
Proof.
  intros Hdf H Hty. apply spare_train_full in H.
  destruct H as (df_ & preds & preds' & tg & es & d & w3 & dfd & age & ages
                 & dfE & cmap & w5 & o & X & cv & Hdf' & Hl & Hsub & Hdet
                 & Hp & HX & Hdrop & Hc3 & H3 & Hage & Hages & Hconv & Hn
                 & Hlab & Hfit & F5 & Hlen & -> & Hcv & ->).
  rewrite Hdf in Hdf'. inversion Hdf'. subst df_.
  cbn [snd md_spare_type] in Hty.
  destruct (determine_classification_groups _ _ _ _ Hdet Hty)
    as (target & other & Ht & Hg & Hne & Hu).
  assert (HdE : nth_error (frames (put_frame d dfE w3)) d = Some dfE).
  { apply put_frame_get. apply (nth_error_lt _ _ H3). }
  exists target, other.
  destruct (@fit_inv run_SVC run_SVR df_sample _ _ _ _ _ _ _ _ _ _ HdE Hfit)
    as (coarse & _ & [(_ & refined & _ & -> & _)|(_ & -> & _)]);
    rewrite Hty, Hg; eexists;
    (split; [exact Ht|]); (split; [exact Hu|]); (split; [exact Hne|]);
    (split; [cbn; rewrite Hc3; reflexivity|]);
    (split; [discriminate|]); repeat constructor.
Qed.

Lemma Qfloor_fixed (q : Q) :
  Qle_bool q (inject_Z (Qfloor q)) = true <-> (inject_Z (Qfloor q) == q)%Q.
Proof.
  rewrite Qle_bool_iff. split.
  - intros H. apply Qle_antisym; [apply Qfloor_le | exact H].
  - intros H. rewrite H. apply Qle_refl.
Qed.

(** X12.  Line 72 against line 152.  Both bounds of the stored age range
    are rounded down.  So on a training table without missing predictor
    values whose ages are numbers: no age is below the lower bound, and
    the oldest age is above the upper bound exactly when it is not an
    integer; the warning of line 153 on the training table itself is
    logged in that case and in no other. *)
Theorem spare_train_age_range (df0 predictors : ref)
    (to_predict pos_group kernel : string) (df : table)
    (preds : list string) (X : list (list value)) (age : list value)
    (ages : list Q) (w w' : world) (out : model * metaData) :
  nth_error (frames w) df0 = Some df ->
  nth_error (lists w) predictors = Some preds ->
  frame_values df (map LStr (remove_first to_predict preds)) = Some X ->
  existsb (existsb isna) X = false ->
  series df (LStr "Age") = Some age ->
  numeric_values age = Some ages ->
  ages <> [] ->
  spare_train run_SVC run_SVR df_sample df0 predictors to_predict pos_group
              kernel w = (w', Ok out) ->
  exists lo hi,
    np_min ages = Some lo /\ np_max ages = Some hi /\
    md_age_range (snd out)
    = (Some (inject_Z (Qfloor lo)), Some (inject_Z (Qfloor hi))) /\
    flt (np_min ages) (fst (md_age_range (snd out))) = false /\
    (flt (snd (md_age_range (snd out))) (np_max ages) = true
     <-> ~ (inject_Z (Qfloor hi) == hi)%Q) /\
    (forall X' ptid train_ptid,
       In (WARNING, OutsideAgeRange)
          (test_notes (snd out) ages X' ptid train_ptid)
       <-> ~ (inject_Z (Qfloor hi) == hi)%Q).
Proof.
  intros Hdf Hl HX Hna Hage Hages Hne H. apply spare_train_full in H.
  destruct H as (df_ & preds_ & preds' & tg & es & d & w3 & dfd & age_
                 & ages_ & dfE & cmap & w5 & o & X_ & cv & Hdf' & Hl' & Hsub
                 & Hdet & Hp & HX' & Hdrop & Hc3 & H3 & Hage' & Hages'
                 & Hconv & Hn & Hlab & Hfit & F5 & Hlen & -> & Hcv & ->).
  rewrite Hdf in Hdf'. inversion Hdf'. subst df_.
  rewrite Hl in Hl'. inversion Hl'. subst preds_.
  assert (Hp' : preds' = remove_first to_predict preds).
  { rewrite Hp. destruct (existsb (String.eqb to_predict) preds) eqn:E;
      [reflexivity | symmetry; apply remove_first_absent, E]. }
  rewrite Hp' in HX'. rewrite HX in HX'. inversion HX'. subst X_.
  rewrite Hna in Hdrop. destruct Hdrop as (-> & _ & ->).
  rewrite Hage in Hage'. inversion Hage'. subst age_.
  rewrite Hages in Hages'. inversion Hages'. subst ages_.
  destruct (np_min_max_spec Hne) as (lo & hi & Hlo & Hhi & _).
  exists lo, hi. unfold test_notes. cbn [snd fst md_age_range].
  rewrite Hlo, Hhi. cbn [np_floor option_map fst snd flt].
  assert (Hlow : negb (Qle_bool (inject_Z (Qfloor lo)) lo) = false).
  { apply negb_false_iff. apply Qle_bool_iff. apply Qfloor_le. }
  assert (Hup : negb (Qle_bool hi (inject_Z (Qfloor hi))) = true
                <-> ~ (inject_Z (Qfloor hi) == hi)%Q).
  { rewrite negb_true_iff. rewrite <- Qfloor_fixed.
    destruct (Qle_bool hi (inject_Z (Qfloor hi))); split; intros; easy. }
  split; [reflexivity|]. split; [reflexivity|]. split; [reflexivity|].
  split; [exact Hlow|]. split; [exact Hup|].
  intros X' ptid train_ptid. rewrite Hlow, orb_false_l, <- Hup.
  destruct (negb (Qle_bool hi (inject_Z (Qfloor hi)))).
  - split; [reflexivity | intros _; left; reflexivity].
  - split; [|discriminate]. cbn [app]. intros Hin.
    destruct (existsb (existsb isna) X'); destruct (0 <? _);
      cbn in Hin; intuition discriminate.
Qed.

End TrainingEdges.

(** ** The training statements on sample inputs *)

Lemma spare_train_first_checks_witness :
  spare_train Sample.run_SVC Sample.run_SVR Sample.df_sample 0 0
    "Sex" "F" "linear"
    (Sample.store Cases.one_sex
                  ["ROI_1"%string])
  = (add_log
       (Sample.store Cases.one_sex
                     ["ROI_1"%string])
       [(ERROR, NoVariance)], Failed).
Proof.
  refine (proj1 (proj2 (proj2
            (@spare_train_first_checks Sample.run_SVC Sample.run_SVR
               Sample.df_sample 0 0 "Sex"%string "F"%string
               "linear"%string
               Cases.one_sex
               ["ROI_1"%string]
               (Sample.store
                  Cases.one_sex
                  ["ROI_1"%string])
               eq_refl eq_refl) _))
            (repeat (VStr "F") 30) eq_refl _).
  - intros p [<-|[]]. vm_compute. auto 10.
  - vm_compute. lia.
Defined.

Lemma spare_train_drops_incomplete_rows_witness :
  nth_error (frames (fst Cases.gap_run)) 0 = Some Cases.train_gap /\
  md_n (snd (Sample.outcome Cases.gap_run)) = 22 /\
  nrows Cases.train_gap = 23.
Proof.
  destruct (@spare_train_drops_incomplete_rows Sample.run_SVC Sample.run_SVR
              Sample.df_sample 0 0 "DX"%string "AD"%string "linear"%string
              Cases.train_gap Sample.dx_predictors Cases.gap_X
              (Sample.store Cases.train_gap Sample.dx_predictors)
              (fst Cases.gap_run) (Sample.outcome Cases.gap_run)
              eq_refl eq_refl)
    as (Hframe & _ & Hn & _).
  - vm_compute. reflexivity.
  - vm_compute. reflexivity.
  - vm_compute. reflexivity.
  - split; [exact Hframe|]. split; [|reflexivity].
    rewrite Hn. vm_compute. reflexivity.
Defined.

Lemma spare_train_artifact_kernel_witness :
  md_kernel (snd (Sample.outcome Sample.dx_run)) = "linear"%string /\
  md_to_predict (snd (Sample.outcome Sample.dx_run)) = "DX"%string.
Proof.
  destruct (@spare_train_artifact_kernel Sample.run_SVC Sample.run_SVR
              Sample.df_sample 0 0 "DX"%string "AD"%string "linear"%string
              (Sample.store Sample.train_dx Sample.dx_predictors)
              (fst Sample.dx_run) (Sample.outcome Sample.dx_run))
    as (Hk & Ht & _).
  - vm_compute. reflexivity.
  - split; [exact Hk | exact Ht].
Defined.

Lemma spare_train_single_fit_witness :
  exists dfE groups coarse,
    coarse_grid Classification "linear" = Ok coarse /\
    nrows dfE = 22 /\
    calls (fst Sample.dx_run)
    = [trainer_event Classification dfE ["Sex"; "ROI_1"]%string "DX"%string
         groups coarse "linear"%string None None].
Proof.
  destruct (@spare_train_single_fit Sample.run_SVC Sample.run_SVR
              Sample.df_sample 0 0 "DX"%string "AD"%string "linear"%string
              (Sample.store Sample.train_dx Sample.dx_predictors)
              (fst Sample.dx_run) (Sample.outcome Sample.dx_run))
    as (dfE & groups & coarse & H1 & H2 & H3 & _).
  - vm_compute. reflexivity.
  - vm_compute. lia.
  - exists dfE, groups, coarse.
    split; [exact H1|]. split; [exact H2 | exact H3].
Defined.

Lemma spare_train_stored_predictors_witness :
  md_predictors (snd (Sample.outcome Sample.dx_run))
  = remove_first "DX"%string Sample.dx_predictors.
Proof.
  destruct (@spare_train_stored_predictors Sample.run_SVC Sample.run_SVR
              Sample.df_sample 0 0 "DX"%string "AD"%string "linear"%string
              Sample.train_dx Sample.dx_predictors
              (Sample.store Sample.train_dx Sample.dx_predictors)
              (fst Sample.dx_run) (Sample.outcome Sample.dx_run)
              eq_refl eq_refl)
    as (H & _).
  - vm_compute. reflexivity.
  - exact H.
Defined.

Lemma spare_train_cv_results_witness :
  labels (md_cv_results (snd (Sample.outcome Sample.dx_run)))
  = map LStr (dedup ["PTID"; "Age"; "Sex"; "DX"; "predicted"]%string).
Proof.
  destruct (@spare_train_cv_results Sample.run_SVC Sample.run_SVR
              Sample.df_sample 0 0 "DX"%string "AD"%string "linear"%string
              Sample.train_dx
              (Sample.store Sample.train_dx Sample.dx_predictors)
              (fst Sample.dx_run) (Sample.outcome Sample.dx_run) eq_refl)
    as (H & _).
  - vm_compute. reflexivity.
  - exact H.
Defined.

Lemma spare_train_positive_group_last_witness :
  exists made,
    calls (fst Sample.dx_run) = made /\
    Forall (fun c => match c with
                     | CallSVC _ _ _ groups _ _ _ _ =>
                         groups = [VStr "CN"; VStr "AD"]%string
                     | CallSVR _ _ _ _ _ _ => False
                     end) made.
Proof.
  destruct (@spare_train_positive_group_last Sample.run_SVC Sample.run_SVR
              Sample.df_sample 0 0 "DX"%string "AD"%string "linear"%string
              Sample.train_dx
              (Sample.store Sample.train_dx Sample.dx_predictors)
              (fst Sample.dx_run) (Sample.outcome Sample.dx_run) eq_refl)
    as (target & other & made & Ht & Hu & _ & Hc & _ & Hall).
  - vm_compute. reflexivity.
  - vm_compute. reflexivity.
  - exists made. split; [exact Hc|].
    vm_compute in Ht. inversion Ht. subst target.
    vm_compute in Hu.
    destruct Hu as [Hu|Hu]; inversion Hu; subst other; exact Hall.
Defined.

Lemma spare_train_age_range_witness :
  md_age_range (snd (Sample.outcome Sample.dx_run))
  = (Some (inject_Z 70), Some (inject_Z 70)).
Proof.
  destruct (@spare_train_age_range Sample.run_SVC Sample.run_SVR
              Sample.df_sample 0 0 "DX"%string "AD"%string "linear"%string
              Sample.train_dx Sample.dx_predictors
              (repeat [VStr "F"; VNum (inject_Z 1)]%string 6
               ++ repeat [VStr "M"; VNum (inject_Z 1)]%string 6
               ++ repeat [VStr "F"; VNum (inject_Z 2)]%string 10)
              (repeat (VNum (inject_Z 70)) 22) (repeat (inject_Z 70) 22)
              (Sample.store Sample.train_dx Sample.dx_predictors)
              (fst Sample.dx_run) (Sample.outcome Sample.dx_run)
              eq_refl eq_refl)
    as (lo & hi & Hlo & Hhi & Hr & _).
  - vm_compute. reflexivity.
  - vm_compute. reflexivity.
  - vm_compute. reflexivity.
  - vm_compute. reflexivity.
  - discriminate.
  - vm_compute. reflexivity.
  - rewrite Hr. vm_compute in Hlo, Hhi. inversion Hlo. inversion Hhi.
    reflexivity.
Defined.

(** ** The course of [spare_test] *)

Lemma replay_categoricals_world (entries : list (string * option cat_map)) :
  forall (df df' : table) (w w' : world),
    replay_categoricals entries df w = (w', Ok df') -> w' = w.
Proof.
  induction entries as [|[var [m|]] rest IH]; intros df df' w w' H;
    cbn [replay_categoricals] in H.
  - inversion H. reflexivity.
  - apply bind_inv_ok in H. destruct H as (w1 & col & Hc & H).
    apply try_inv_ok in Hc. destruct Hc as [_ ->].
    destruct (forallb (fun v => isin v (map fst m)) col); [|discriminate].
    apply (IH _ _ _ _ H).
  - apply (IH _ _ _ _ H).
Qed.

(** What a successful run on the reconciled frame has gone through. *)
Lemma test_reconciled_inv (mdl : model) (md : metaData) (df : table)
    (w w' : world) (scores : list cell) :
  test_reconciled (mdl, md) df w = (w', Ok scores) ->
  exists age ages X ptid train_ptid df' lo hi,
    series df (LStr "Age") = Some age /\
    numeric_values age = Some ages /\
    frame_values df (map LStr (md_predictors md)) = Some X /\
    series df (LStr "PTID") = Some ptid /\
    series (md_cv_results md) (LStr "PTID") = Some train_ptid /\
    w' = add_log w (test_notes md ages X ptid train_ptid) /\
    match md_categorical_var_map md with
    | Some entries => replay_categoricals entries df w' = (w', Ok df')
    | None => df' = df
    end /\
    md_age_range md = (Some lo, Some hi) /\
    spare_scores mdl md df' = Ok scores.
Proof.
  unfold test_reconciled. cbn [fst snd]. intros H.
  apply bind_inv_ok in H. destruct H as (? & age & Ha & H).
  apply try_inv_ok in Ha. destruct Ha as [Hage ->].
  apply bind_inv_ok in H. destruct H as (? & ages & Ha & H).
  apply try_inv_ok in Ha. destruct Ha as [Hages ->].
  rewrite when_logging_run in H.
  apply bind_inv_ok in H. destruct H as (? & X & Ha & H).
  apply try_inv_ok in Ha. destruct Ha as [HX ->].
  rewrite when_logging_run in H.
  apply bind_inv_ok in H. destruct H as (? & ptid & Ha & H).
  apply try_inv_ok in Ha. destruct Ha as [Hptid ->].
  apply bind_inv_ok in H. destruct H as (? & train_ptid & Ha & H).
  apply try_inv_ok in Ha. destruct Ha as [Htrain ->].
  rewrite when_logging_run in H. rewrite !add_log_app in H.
  apply bind_inv_ok in H. destruct H as (w1 & df' & Hre & H).
  assert (Hw1 : w1 = add_log w (test_notes md ages X ptid train_ptid)).
  { destruct (md_categorical_var_map md) as [entries|].
    - apply replay_categoricals_world in Hre. exact Hre.
    - inversion Hre. reflexivity. }
  assert (Hre' : match md_categorical_var_map md with
                 | Some entries =>
                     replay_categoricals entries df w1 = (w1, Ok df')
                 | None => df' = df
                 end).
  { destruct (md_categorical_var_map md) as [entries|].
    - unfold test_notes in Hw1. rewrite <- Hw1 in Hre. exact Hre.
    - inversion Hre. reflexivity. }
  clear Hre.
  apply bind_inv_ok in H. destruct H as (w2 & [] & Hr & H).
  destruct (md_age_range md) as [[lo|] [hi|]] eqn:Er; cbn in Hr;
    try discriminate.
  inversion Hr. subst w2. unfold lift in H. inversion H. subst w'.
  exists age, ages, X, ptid, train_ptid, df', lo, hi.
  do 5 (split; [assumption|]).
  split; [exact Hw1|].
  split; [|split; [reflexivity | first [assumption | reflexivity]]].
  exact Hre'.
Qed.

Lemma spare_test_inv (df0 : ref) (loaded : model * metaData) (w w' : world)
    (scores : list cell) :
  spare_test df0 loaded w = (w', Ok scores) ->
  exists df df1 w1,
    nth_error (frames w) df0 = Some df /\
    reconcile_predictors (md_predictors (snd loaded)) df w = (w1, Ok df1) /\
    test_reconciled loaded df1 w1 = (w', Ok scores).
Proof.
  unfold spare_test. intros H.
  apply bind_inv_ok in H. destruct H as (? & df & Hdf & H).
  apply get_frame_inv in Hdf. destruct Hdf as [-> Hdf].
  apply bind_inv_ok in H. destruct H as (w1 & df1 & Hr & H).
  exists df, df1, w1. auto.
Qed.

Lemma reconcile_present (predictors : list string) (df : table) (w : world) :
  issubset (map LStr predictors) df = true ->
  reconcile_predictors predictors df w = (w, Ok df).
Proof. intros H. unfold reconcile_predictors. rewrite H. reflexivity. Qed.

(** X13.  With every expected predictor a column, a run of [spare_test]
    that returns scores has changed nothing but the log, and has logged
    exactly the entries of lines 152-160, in this order and each only when
    its condition holds: the age-range warning, the warning on missing
    predictor values, and the number of rows whose identifier is among
    the training identifiers.  Rows with a missing predictor value are
    only warned about, none is dropped: there is one score per row. *)
Theorem spare_test_log (df0 : ref) (mdl : model) (md : metaData)
    (df : table) (w w' : world) (scores : list cell) :
  nth_error (frames w) df0 = Some df ->
  issubset (map LStr (md_predictors md)) df = true ->
  spare_test df0 (mdl, md) w = (w', Ok scores) ->
  exists age ages X ptid train_ptid,
    series df (LStr "Age") = Some age /\
    numeric_values age = Some ages /\
    frame_values df (map LStr (md_predictors md)) = Some X /\
    series df (LStr "PTID") = Some ptid /\
    series (md_cv_results md) (LStr "PTID") = Some train_ptid /\
    w' = add_log w (test_notes md ages X ptid train_ptid) /\
    length scores = nrows df.
Proof.
  intros Hdf Hsub H.
  assert (Hlen : length scores = nrows df).
  { destruct (@spare_test_columns df0 mdl md df w w' scores Hdf H)
      as (df' & ss & Hn & _ & -> & _).
    rewrite length_map, length_seq. exact Hn. }
  apply spare_test_inv in H. destruct H as (df_ & df1 & w1 & Hdf' & Hr & H).
  rewrite Hdf in Hdf'. inversion Hdf'. subst df_.
  cbn [snd] in Hr. rewrite (reconcile_present _ _ _ Hsub) in Hr.
  inversion Hr. subst w1 df1.
  apply test_reconciled_inv in H.
  destruct H as (age & ages & X & ptid & train_ptid & df' & lo & hi
                 & H1 & H2 & H3 & H4 & H5 & H6 & _).
  exists age, ages, X, ptid, train_ptid. auto 10.
Qed.

Lemma all_some_In (A : Type) (l : list (option A)) (l' : list A) :
  all_some l = Some l' -> forall x, In x l -> x <> None.
Proof.
  revert l'. induction l as [|[a|] rest IH]; intros l' H x Hin; cbn in H;
    try discriminate; [destruct Hin|].
  destruct (all_some rest) as [r|]; [|discriminate].
  destruct Hin as [<-|Hin]; [discriminate | apply (IH r eq_refl x Hin)].
Qed.

(** X14.  What [spare_test] needs of the artifact to return scores.  With
    [n] scalers in the ensemble: there are at least [n] machines and [n]
    pairs of fold indices; a regression artifact has its bias terms, at
    least [n] intercepts and [n] slopes; the cross-validation table has a
    [PTID] column, and every training index of the first [n] folds is a
    position of it; and both bounds of the age range are numbers (an
    artifact trained on a table without any age cannot be used). *)
Theorem spare_test_needs_artifact (df0 : ref) (mdl : model) (md : metaData)
    (df : table) (w w' : world) (scores : list cell) :
  nth_error (frames w) df0 = Some df ->
  spare_test df0 (mdl, md) w = (w', Ok scores) ->
  let n := length (mdl_scaler mdl) in
  n <= length (mdl_mdl mdl) /\
  n <= length (mdl_cv_folds mdl) /\
  (md_spare_type md = Regression -> 0 < n ->
   exists b, mdl_bias_correct mdl = Some b /\
             n <= length (bias_int b) /\ n <= length (bias_slope b)) /\
  (exists train_ptid,
     series (md_cv_results md) (LStr "PTID") = Some train_ptid /\
     forall i fold r,
       i < n -> nth_error (mdl_cv_folds mdl) i = Some fold ->
       In r (fst fold) -> r < length train_ptid) /\
  (exists lo hi, md_age_range md = (Some lo, Some hi)).
Proof.
  intros Hdf H n.
  destruct (@spare_test_columns df0 mdl md df w w' scores Hdf H)
    as (df' & ss & _ & _ & _ & Hfold).
  apply spare_test_inv in H. destruct H as (df_ & df1 & w1 & _ & _ & H).
  apply test_reconciled_inv in H.
  destruct H as (age & ages & X & ptid & train_ptid & df2 & lo & hi
                 & _ & _ & _ & _ & Htrain & _ & _ & Hrange & _).
  assert (Hlast : forall i, i < n ->
            i < length (mdl_mdl mdl) /\ i < length (mdl_cv_folds mdl) /\
            (md_spare_type md = Regression ->
             exists b, mdl_bias_correct mdl = Some b /\
                       i < length (bias_int b) /\
                       i < length (bias_slope b)) /\
            (forall fold r, nth_error (mdl_cv_folds mdl) i = Some fold ->
                            In r (fst fold) -> r < length train_ptid)).
  { intros i Hi.
    destruct (Hfold i Hi) as (X' & raw & corrected & ptid' & ids & _ & Hraw
                              & Hbias & _ & Hids & _).
    unfold raw_scores in Hraw. unfold bias_correct in Hbias.
    unfold training_ids in Hids. rewrite Htrain in Hids.
    destruct (nth_error (mdl_scaler mdl) i); [|discriminate].
    destruct (nth_error (mdl_mdl mdl) i) as [m|] eqn:Em; [|discriminate].
    destruct (nth_error (mdl_cv_folds mdl) i) as [fold|] eqn:Ef;
      [|discriminate].
    destruct (take train_ptid (fst fold)) as [ids'|] eqn:Et; [|discriminate].
    split; [apply (nth_error_lt _ _ Em)|].
    split; [apply (nth_error_lt _ _ Ef)|]. split.
    - intros Hreg. rewrite Hreg in Hbias.
      destruct (mdl_bias_correct mdl) as [b|]; [|discriminate].
      destruct (nth_error (bias_int b) i) eqn:E1; [|discriminate].
      destruct (nth_error (bias_slope b) i) eqn:E2; [|discriminate].
      exists b. split; [reflexivity|].
      split; [apply (nth_error_lt _ _ E1) | apply (nth_error_lt _ _ E2)].
    - intros fold' r Hfold' Hr. inversion Hfold'. subst fold'.
      unfold take in Et.
      assert (Hne : nth_error train_ptid r <> None).
      { apply (all_some_In _ Et). apply in_map, Hr. }
      apply nth_error_Some in Hne. exact Hne. }
  split; [|split; [|split; [|split]]].
  - destruct n as [|k]; [lia|]. destruct (Hlast k) as (H1 & _); lia.
  - destruct n as [|k]; [lia|]. destruct (Hlast k) as (_ & H1 & _); lia.
  - intros Hreg Hpos. destruct n as [|k]; [lia|].
    destruct (Hlast k) as (_ & _ & H1 & _); [lia|].
    destruct (H1 Hreg) as (b & Hb & Hi & Hs). exists b.
    split; [exact Hb|]. lia.
  - exists train_ptid. split; [exact Htrain|].
    intros i fold r Hi Hf Hr. destruct (Hlast i Hi) as (_ & _ & _ & H1).
    apply (H1 fold r Hf Hr).
  - exists lo, hi. exact Hrange.
Qed.

(** X15.  An artifact with an empty ensemble (lines 182-194 with
    [n_ensemble = 0]): when [spare_test] returns, every row has the score
    NaN. *)
Theorem spare_test_empty_ensemble (df0 : ref) (mdl : model) (md : metaData)
    (df : table) (w w' : world) (scores : list cell) :
  nth_error (frames w) df0 = Some df ->
  mdl_scaler mdl = [] ->
  spare_test df0 (mdl, md) w = (w', Ok scores) ->
  scores = repeat None (nrows df).
Proof.
  intros Hdf Hempty H.
  destruct (@spare_test_columns df0 mdl md df w w' scores Hdf H)
    as (df' & ss & Hn & Hss & -> & _).
  rewrite Hempty in Hss. destruct ss; [|discriminate].
  rewrite Hn. clear. generalize 0 at 1.
  induction (nrows df) as [|k IH]; intros a; cbn; [reflexivity|].
  rewrite IH. reflexivity.
Qed.

(** X16.  In [spare_test] an error is logged exactly when the call takes
    the [return logging.error(...)] exit (returns [None]), and then once,
    as the last entry: a run that returns scores or raises has logged
    warnings and notes only, and a run that takes the exit ends its log
    with the error, after notes and warnings only. *)
Theorem spare_test_error_iff_failed (df0 : ref) (loaded : model * metaData)
    (w : world) :
  exists es,
    log (fst (spare_test df0 loaded w)) = log w ++ es /\
    match snd (spare_test df0 loaded w) with
    | Failed => exists es' msg, es = es' ++ [(ERROR, msg)] /\ no_error es'
    | _ => no_error es
    end.
Proof.
  revert w. change (error_iff_failed (spare_test df0 loaded)).
  unfold spare_test.
  apply error_iff_failed_bind; [exit_step | intros df].
  apply error_iff_failed_bind; [apply error_iff_failed_reconcile | intros t].
  apply error_iff_failed_test_reconciled.
Qed.

(** ** Computations that read nothing *)

Lemma reads_nothing_ret (A : Type) (a : A) : reads_nothing (ret a).
Proof. exists [], (Ok a). intros w. rewrite add_log_nil. reflexivity. Qed.

Lemma reads_nothing_raise (A : Type) (e : exn) : reads_nothing (@raise A e).
Proof. exists [], (Raised e). intros w. rewrite add_log_nil. reflexivity. Qed.

Lemma reads_nothing_fail (A : Type) (msg : message) :
  reads_nothing (@fail A msg).
Proof. exists [(ERROR, msg)], Failed. reflexivity. Qed.

Lemma reads_nothing_logging (lv : level) (msg : message) :
  reads_nothing (logging lv msg).
Proof. exists [(lv, msg)], (Ok tt). reflexivity. Qed.

Lemma reads_nothing_try (A : Type) (e : exn) (o : option A) :
  reads_nothing (try_ e o).
Proof.
  destruct o; cbn; [apply reads_nothing_ret | apply reads_nothing_raise].
Qed.

Lemma reads_nothing_lift (A : Type) (r : result A) : reads_nothing (lift r).
Proof. exists [], r. intros w. rewrite add_log_nil. reflexivity. Qed.

Lemma reads_nothing_bind (A B : Type) (m : M A) (k : A -> M B) :
  reads_nothing m -> (forall a, reads_nothing (k a)) ->
  reads_nothing (bind m k).
Proof.
  intros (es1 & r1 & Hm) Hk. destruct r1 as [a| |e].
  - destruct (Hk a) as (es2 & r2 & Hka). exists (es1 ++ es2), r2.
    intros w. unfold bind. rewrite Hm, Hka, add_log_app. reflexivity.
  - exists es1, Failed. intros w. unfold bind. rewrite Hm. reflexivity.
  - exists es1, (Raised e). intros w. unfold bind. rewrite Hm. reflexivity.
Qed.

Lemma reads_nothing_when (b : bool) (m : M unit) :
  reads_nothing m -> reads_nothing (when b m).
Proof. intros H. destruct b; [exact H | apply reads_nothing_ret]. Qed.

Lemma reads_nothing_if (A : Type) (b : bool) (m1 m2 : M A) :
  reads_nothing m1 -> reads_nothing m2 ->
  reads_nothing (if b then m1 else m2).
Proof. intros H1 H2. destruct b; assumption. Qed.

Ltac reads_step :=
  first [ apply reads_nothing_bind; [|intros ?]
        | apply reads_nothing_ret | apply reads_nothing_raise
        | apply reads_nothing_fail | apply reads_nothing_logging
        | apply reads_nothing_try | apply reads_nothing_lift
        | apply reads_nothing_when | apply reads_nothing_if ].

Lemma reads_nothing_try_convention (roi_name : list string)
    (roi_alter : list label) (df : table) :
  reads_nothing (try_convention roi_name roi_alter df).
Proof. unfold try_convention. repeat reads_step. Qed.

Lemma reads_nothing_reconcile (predictors : list string) (df : table) :
  reads_nothing (reconcile_predictors predictors df).
Proof.
  unfold reconcile_predictors. repeat reads_step.
  destruct (int_fields (filter has_underscore predictors)) as [ids|];
    [|apply reads_nothing_fail].
  apply reads_nothing_bind; [apply reads_nothing_try_convention | intros ?].
  apply reads_nothing_bind; [apply reads_nothing_try_convention | intros ?].
  apply reads_nothing_bind; [apply reads_nothing_try_convention | intros ?].
  repeat reads_step.
Qed.

Lemma reads_nothing_replay (entries : list (string * option cat_map)) :
  forall df, reads_nothing (replay_categoricals entries df).
Proof.
  induction entries as [|[var [m|]] rest IH]; intros df;
    cbn [replay_categoricals].
  - apply reads_nothing_ret.
  - apply reads_nothing_bind; [apply reads_nothing_try | intros col].
    apply reads_nothing_if; [apply IH | apply reads_nothing_fail].
  - apply IH.
Qed.

Lemma reads_nothing_test_reconciled (loaded : model * metaData)
    (df : table) :
  reads_nothing (test_reconciled loaded df).
Proof.
  unfold test_reconciled. do 8 reads_step; try solve [repeat reads_step].
  apply reads_nothing_bind.
  - destruct (md_categorical_var_map (snd loaded));
      [apply reads_nothing_replay | apply reads_nothing_ret].
  - intros ?. repeat reads_step.
Qed.

(** X17.  [spare_test] reads one thing of the store, the caller's frame,
    and writes only to the log.  So its outcome (the scores, the error
    exit or the exception) and the entries it logs are the same in every
    world that holds the same frame; in particular, calling it again
    after it has returned gives the same outcome and logs the same entries
    once more. *)
Theorem spare_test_repeatable (df0 : ref) (loaded : model * metaData)
    (w : world) :
  exists es,
    fst (spare_test df0 loaded w) = add_log w es /\
    (forall u,
       nth_error (frames u) df0 = nth_error (frames w) df0 ->
       spare_test df0 loaded u = (add_log u es, snd (spare_test df0 loaded w)))
    /\
    spare_test df0 loaded (fst (spare_test df0 loaded w))
    = (add_log w (es ++ es), snd (spare_test df0 loaded w)).
Proof.
  assert (Hrun : exists es r, forall u,
             nth_error (frames u) df0 = nth_error (frames w) df0 ->
             spare_test df0 loaded u = (add_log u es, r)).
  { unfold spare_test. destruct (nth_error (frames w) df0) as [df|] eqn:Hdf.
    - destruct (@reads_nothing_bind _ _ _ _
                  (reads_nothing_reconcile (md_predictors (snd loaded)) df)
                  (fun t => reads_nothing_test_reconciled loaded t))
        as (es & r & Hr).
      exists es, r. intros u Hu.
      rewrite (bind_ok _ (@get_frame_run df0 df u Hu)). apply Hr.
    - exists [], (Raised KeyError). intros u Hu.
      unfold bind, get_frame. rewrite Hu, add_log_nil. reflexivity. }
  destruct Hrun as (es & r & Hrun). exists es.
  rewrite (Hrun w eq_refl). cbn [fst snd].
  split; [reflexivity|]. split; [exact Hrun|].
  rewrite (Hrun (add_log w es) eq_refl), add_log_app. reflexivity.
Qed.

(** ** The inference statements on sample inputs *)

Lemma spare_test_log_witness :
  fst Cases.named_run
  = add_log (Sample.store Cases.test_named [])
            [(WARNING, InvalidPredictors); (INFO, MatchingTrainingIDs 2)] /\
  length Cases.named_scores = 3.
Proof.
  destruct (@spare_test_log 0 Sample.two_folds
              (Sample.meta ["ROI_101"%string]) Cases.test_named
              (Sample.store Cases.test_named []) (fst Cases.named_run)
              Cases.named_scores eq_refl eq_refl)
    as (age & ages & X & ptid & train_ptid & H1 & H2 & H3 & H4 & H5 & Hw
        & Hlen).
  - vm_compute. reflexivity.
  - split; [|exact Hlen]. rewrite Hw.
    vm_compute in H1. inversion H1. subst age.
    vm_compute in H2. inversion H2. subst ages.
    vm_compute in H3. inversion H3. subst X.
    vm_compute in H4. inversion H4. subst ptid.
    vm_compute in H5. inversion H5. subst train_ptid.
    vm_compute. reflexivity.
Defined.

Lemma spare_test_needs_artifact_witness :
  exists lo hi,
    md_age_range (Sample.meta ["ROI_101"%string]) = (Some lo, Some hi).
Proof.
  destruct (@spare_test_needs_artifact 0 Sample.two_folds
              (Sample.meta ["ROI_101"%string]) Cases.test_named
              (Sample.store Cases.test_named []) (fst Cases.named_run)
              Cases.named_scores eq_refl)
    as (_ & _ & _ & _ & H).
  - vm_compute. reflexivity.
  - exact H.
Defined.

Lemma spare_test_empty_ensemble_witness :
  [None; None; None] = repeat (@None Q) (nrows Cases.test_named).
Proof.
  apply (@spare_test_empty_ensemble 0 Sample.no_model
           (Sample.meta ["ROI_101"%string]) Cases.test_named
           (Sample.store Cases.test_named []) (fst Cases.empty_run)
           [None; None; None] eq_refl eq_refl).
  vm_compute. reflexivity.
Defined.

(** ** What the reconciliation can change *)

Lemma has_underscore_app (a b : string) :
  has_underscore (a ++ b) = has_underscore a || has_underscore b.
Proof.
  induction a as [|c a IH]; cbn; [reflexivity|].
  rewrite IH, orb_assoc. reflexivity.
Qed.

Lemma last_field_from_no_underscore (s acc : string) :
  has_underscore acc = false ->
  has_underscore (last_field_from acc s) = false.
Proof.
  revert acc. induction s as [|c s IH]; intros acc Hacc; cbn; [exact Hacc|].
  destruct (Ascii.eqb c underscore) eqn:E.
  - apply IH. reflexivity.
  - apply IH. rewrite has_underscore_app, Hacc. cbn. rewrite E. reflexivity.
Qed.

(** What follows the last underscore holds no underscore. *)
Lemma last_field_no_underscore (s : string) :
  has_underscore (last_field s) = false.
Proof. apply last_field_from_no_underscore. reflexivity. Qed.

Section DictEntries.
Variables (K V : Type) (keqb : K -> K -> bool).
Hypothesis keqb_eq : forall a b, keqb a b = true <-> a = b.

Lemma dict_set_In (k k0 : K) (v v0 : V) (d : list (K * V)) :
  In (k, v) (dict_set keqb k0 v0 d) -> (k, v) = (k0, v0) \/ In (k, v) d.
Proof.
  induction d as [|[k1 v1] rest IH]; cbn.
  - intros [E|[]]. left. symmetry. exact E.
  - destruct (keqb k0 k1) eqn:E; cbn.
    + apply keqb_eq in E. subst k1. intros [H|H]; [left|right; right];
        auto.
    + intros [H|H]; [right; left; exact H|].
      destruct (IH H) as [H1|H1]; [left | right; right]; assumption.
Qed.

Lemma dict_of_In (k : K) (v : V) (pairs : list (K * V)) :
  In (k, v) (dict_of keqb pairs) -> In (k, v) pairs.
Proof.
  unfold dict_of.
  assert (G : forall d, In (k, v)
                (fold_left (fun d kv => dict_set keqb (fst kv) (snd kv) d)
                           pairs d) ->
              In (k, v) d \/ In (k, v) pairs).
  { induction pairs as [|[k1 v1] rest IH]; intros d H; cbn in H; [auto|].
    destruct (IH _ H) as [H1|H1]; [|right; right; exact H1].
    apply dict_set_In in H1. destruct H1 as [H1|H1]; [|left; exact H1].
    right. left. symmetry. exact H1. }
  intros H. destruct (G [] H) as [[]|H1]. exact H1.
Qed.

Lemma dict_get_In (k : K) (v : V) (d : list (K * V)) :
  dict_get keqb k d = Some v -> In (k, v) d.
Proof.
  induction d as [|[k1 v1] rest IH]; cbn; [discriminate|].
  destruct (keqb k k1) eqn:E.
  - apply keqb_eq in E. subst k1. intros H. inversion H. left. reflexivity.
  - intros H. right. apply IH, H.
Qed.

End DictEntries.

Lemma in_combine_both (A B : Type) (l : list A) (l' : list B) (a : A)
    (b : B) :
  In (a, b) (combine l l') -> In a l /\ In b l'.
Proof.
  intros H. split; [eapply in_combine_l | eapply in_combine_r]; exact H.
Qed.

(** One pass of the loop keeps the rows and the dtypes; a label that
    changes becomes one of the expected names, and it was one of the
    alternates. *)
Lemma apply_convention_columns (roi_name : list string)
    (roi_alter : list label) (df : table) :
  rows (apply_convention roi_name roi_alter df) = rows df /\
  map snd (columns (apply_convention roi_name roi_alter df))
  = map snd (columns df) /\
  length (labels (apply_convention roi_name roi_alter df))
  = length (labels df) /\
  forall i l',
    nth_error (labels (apply_convention roi_name roi_alter df)) i = Some l' ->
    nth_error (labels df) i = Some l' \/
    exists l name,
      nth_error (labels df) i = Some l /\ In l roi_alter /\
      l' = LStr name /\ In name roi_name.
Proof.
  unfold apply_convention. destruct (issubset roi_alter df).
  - split; [reflexivity|]. split; [|split].
    + unfold rename. cbn [columns]. rewrite map_map. reflexivity.
    + rewrite labels_rename, length_map. reflexivity.
    + intros i l' H. rewrite labels_rename, nth_error_map in H.
      destruct (nth_error (labels df) i) as [l|] eqn:El; [|discriminate].
      cbn in H.
      destruct (dict_get label_eqb l _) as [name|] eqn:Eg.
      * right. exists l, name. inversion H.
        apply (@dict_get_In _ _ _ label_eqb_eq) in Eg.
        apply (@dict_of_In _ _ _ label_eqb_eq) in Eg.
        apply in_combine_both in Eg. destruct Eg as [Ha Hb]. auto.
      * left. exact H.
  - repeat split; auto.
Qed.

Lemma reconcile_inv (predictors : list string) (df df' : table)
    (w w' : world) :
  reconcile_predictors predictors df w = (w', Ok df') ->
  df' = df \/
  exists ids,
    int_fields (filter has_underscore predictors) = Some ids /\
    length ids = length (filter has_underscore predictors) /\
    df' = conventions_applied (filter has_underscore predictors) ids df.
Proof.
  unfold reconcile_predictors.
  destruct (issubset (map LStr predictors) df) eqn:Hsub.
  - intros H. inversion H. left. reflexivity.
  - destruct (existsb _ (missing_predictors predictors df)) eqn:Hus;
      [discriminate|].
    destruct (int_fields (filter has_underscore predictors)) as [ids|] eqn:Hi;
      [|discriminate].
    intros H.
    destruct (@reconcile_run predictors df w ids Hsub Hus Hi)
      as (infos & _ & Erun).
    unfold reconcile_predictors in Erun. rewrite Hsub, Hus, Hi in Erun.
    rewrite Erun in H. cbn zeta in H.
    destruct (0 <? _) in H; [discriminate|].
    inversion H. right. exists ids. split; [reflexivity|].
    split; [|reflexivity].
    clear - Hi. revert ids Hi.
    induction (filter has_underscore predictors) as [|a rest IH];
      intros ids Hi; cbn in Hi.
    + inversion Hi. reflexivity.
    + destruct (int_of_string (last_field a)); [|discriminate].
      destruct (int_fields rest) as [zs|]; [|discriminate].
      inversion Hi. cbn. rewrite (IH zs eq_refl). reflexivity.
Qed.

(** The alternates of the three conventions are integers or strings
    without underscore. *)
Lemma alternates_no_underscore (roi_name : list string) (ids : list Z)
    (s : string) :
  has_underscore s = true ->
  ~ In (LStr s) (map LInt ids) /\
  ~ In (LStr s) (raw_fields roi_name) /\
  ~ In (LStr s) (R_fields roi_name).
Proof.
  intros Hs. split; [|split]; intros Hin; apply in_map_iff in Hin;
    destruct Hin as (x & E & _); inversion E; subst s.
  - rewrite last_field_no_underscore in Hs. discriminate.
  - cbn in Hs. rewrite last_field_no_underscore in Hs. discriminate.
Qed.

(** X18.  Lines 133-150 only rename columns.  When the reconciliation
    goes on, the frame has the same rows, the same dtypes and as many
    columns as before; a column whose label is a string with an underscore
    keeps its label; and any label that has changed is now an expected
    predictor name with an underscore. *)
Theorem reconcile_only_renames (predictors : list string) (df df' : table)
    (w w' : world) :
  reconcile_predictors predictors df w = (w', Ok df') ->
  rows df' = rows df /\
  map snd (columns df') = map snd (columns df) /\
  length (labels df') = length (labels df) /\
  (forall i s,
     nth_error (labels df) i = Some (LStr s) -> has_underscore s = true ->
     nth_error (labels df') i = Some (LStr s)) /\
  (forall i l',
     nth_error (labels df') i = Some l' ->
     nth_error (labels df) i = Some l' \/
     exists name,
       l' = LStr name /\ In name predictors /\ has_underscore name = true).
Proof.
  intros H. apply reconcile_inv in H.
  destruct H as [->|(ids & Hi & Hlen & ->)].
  { repeat split; auto. }
  set (roi := filter has_underscore predictors).
  unfold conventions_applied. fold roi.
  set (t1 := apply_convention roi (map LInt ids) df).
  set (t2 := apply_convention roi (raw_fields roi) t1).
  destruct (apply_convention_columns roi (map LInt ids) df)
    as (R1 & D1 & N1 & L1). fold t1 in R1, D1, N1, L1.
  destruct (apply_convention_columns roi (raw_fields roi) t1)
    as (R2 & D2 & N2 & L2). fold t2 in R2, D2, N2, L2.
  destruct (apply_convention_columns roi (R_fields roi) t2)
    as (R3 & D3 & N3 & L3).
  assert (Hroi : forall name, In name roi ->
                   In name predictors /\ has_underscore name = true)
    by (intros name Hn; apply filter_In in Hn; exact Hn).
  assert (Hstep : forall alter t,
            (forall s, has_underscore s = true -> ~ In (LStr s) alter) ->
            forall i s,
              nth_error (labels t) i = Some (LStr s) ->
              has_underscore s = true ->
              nth_error (labels (apply_convention roi alter t)) i
              = Some (LStr s)).
  { intros alter t Halt i s Hn Hs.
    destruct (apply_convention_columns roi alter t) as (_ & _ & Nt & Lt).
    destruct (nth_error (labels (apply_convention roi alter t)) i)
      as [l'|] eqn:E.
    - destruct (Lt i l' E) as [H1|(l & name & H1 & H2 & _)].
      + rewrite <- H1. exact Hn.
      + rewrite Hn in H1. inversion H1. subst l.
        exfalso. apply (Halt s Hs H2).
    - apply nth_error_None in E. rewrite Nt in E.
      apply nth_error_None in E. congruence. }
  split; [rewrite R3, R2, R1; reflexivity|].
  split; [rewrite D3, D2, D1; reflexivity|].
  split; [rewrite N3, N2, N1; reflexivity|].
  split.
  - intros i s Hn Hs.
    apply Hstep;
      [intros s0 H0; apply (@alternates_no_underscore roi ids s0 H0)
      | | exact Hs].
    apply Hstep;
      [intros s0 H0; apply (@alternates_no_underscore roi ids s0 H0)
      | | exact Hs].
    apply Hstep;
      [intros s0 H0; apply (@alternates_no_underscore roi ids s0 H0)
      | exact Hn | exact Hs].
  - intros i l' H3.
    destruct (L3 i l' H3) as [H2|(l & name & _ & _ & -> & Hn)];
      [|right; exists name; split; [reflexivity | apply Hroi, Hn]].
    destruct (L2 i l' H2) as [H1|(l & name & _ & _ & -> & Hn)];
      [|right; exists name; split; [reflexivity | apply Hroi, Hn]].
    destruct (L1 i l' H1) as [H0|(l & name & _ & _ & -> & Hn)];
      [left; exact H0
      |right; exists name; split; [reflexivity | apply Hroi, Hn]].
Qed.

(** ** The list of missing predictors *)

Lemma ascii_compare_refl (c : ascii) : (c ?= c)%char = Eq.
Proof.
  pose proof (Ascii.compare_antisym c c) as H.
  destruct (c ?= c)%char; [reflexivity | discriminate | discriminate].
Qed.

Lemma ascii_compare_lt_trans (a b c : ascii) :
  (a ?= b)%char = Lt -> (b ?= c)%char = Lt -> (a ?= c)%char = Lt.
Proof.
  unfold Ascii.compare. rewrite !N.compare_lt_iff. apply N.lt_trans.
Qed.

Lemma string_compare_lt_trans (a : string) :
  forall b c, (a ?= b)%string = Lt -> (b ?= c)%string = Lt ->
              (a ?= c)%string = Lt.
Proof.
  induction a as [|x a IH]; intros [|y b] [|z c]; cbn; try discriminate;
    try reflexivity.
  destruct (x ?= y)%char eqn:Exy; destruct (y ?= z)%char eqn:Eyz;
    try discriminate.
  - apply Ascii.compare_eq_iff in Exy, Eyz. subst.
    rewrite ascii_compare_refl. apply IH.
  - apply Ascii.compare_eq_iff in Exy. subst. rewrite Eyz. reflexivity.
  - apply Ascii.compare_eq_iff in Eyz. subst. rewrite Exy. reflexivity.
  - rewrite (ascii_compare_lt_trans _ _ _ Exy Eyz). reflexivity.
Qed.

Lemma string_compare_refl (s : string) : (s ?= s)%string = Eq.
Proof.
  pose proof (String.compare_antisym s s) as H.
  destruct (s ?= s)%string; [reflexivity | discriminate | discriminate].
Qed.

Lemma string_ltb_trans (a b c : string) :
  String.ltb a b = true -> String.ltb b c = true -> String.ltb a c = true.
Proof.
  unfold String.ltb. intros H1 H2.
  destruct (a ?= b)%string eqn:E1; try discriminate.
  destruct (b ?= c)%string eqn:E2; try discriminate.
  rewrite (string_compare_lt_trans _ _ _ E1 E2). reflexivity.
Qed.

Lemma string_ltb_irrefl (a : string) : String.ltb a a = false.
Proof. unfold String.ltb. rewrite string_compare_refl. reflexivity. Qed.

(** Two different strings are ordered one way or the other. *)
Lemma string_ltb_total (a b : string) :
  String.eqb a b = false -> String.ltb a b = false -> String.ltb b a = true.
Proof.
  unfold String.ltb. intros Hne Hlt. rewrite String.compare_antisym.
  destruct (a ?= b)%string eqn:E; try discriminate; [|reflexivity].
  apply String.compare_eq_iff in E. subst. rewrite String.eqb_refl in Hne.
  discriminate.
Qed.

Lemma insert_sorted_sorted (x : string) (l : list string) :
  StronglySorted (fun a b => String.ltb a b = true) l ->
  StronglySorted (fun a b => String.ltb a b = true) (insert_sorted x l).
Proof.
  induction l as [|y rest IH]; intros H; cbn.
  - repeat constructor.
  - inversion H as [|? ? Hrest Hall]; subst.
    destruct (String.eqb x y) eqn:Exy; [exact H|].
    destruct (String.ltb x y) eqn:Elt.
    + constructor; [exact H|]. constructor; [exact Elt|].
      rewrite Forall_forall in Hall |- *. intros z Hz.
      apply (string_ltb_trans _ _ _ Elt (Hall z Hz)).
    + constructor; [apply IH, Hrest|].
      rewrite Forall_forall in Hall |- *. intros z Hz.
      apply insert_sorted_In in Hz. destruct Hz as [->|Hz].
      * apply string_ltb_total; assumption.
      * apply Hall, Hz.
Qed.

Lemma sorted_set_sorted (l : list string) :
  StronglySorted (fun a b => String.ltb a b = true) (sorted_set l).
Proof.
  induction l as [|x l IH]; cbn; [constructor|].
  apply insert_sorted_sorted, IH.
Qed.

Lemma strictly_sorted_NoDup (l : list string) :
  StronglySorted (fun a b => String.ltb a b = true) l -> NoDup l.
Proof.
  induction 1 as [|x l Hs IH Hall]; constructor; [|exact IH].
  intros Hin. rewrite Forall_forall in Hall.
  pose proof (Hall x Hin) as H. rewrite string_ltb_irrefl in H. discriminate.
Qed.

(** X19.  Lines 134 and 148: the list of names in the error message is
    made of the expected predictors that are not columns, each once, in
    increasing order. *)
Theorem missing_predictors_sorted (predictors : list string) (df : table) :
  StronglySorted (fun a b => String.ltb a b = true)
                 (missing_predictors predictors df) /\
  NoDup (missing_predictors predictors df) /\
  forall a, In a (missing_predictors predictors df)
            <-> In a predictors /\ ~ In (LStr a) (labels df).
Proof.
  split; [apply sorted_set_sorted|].
  split; [apply strictly_sorted_NoDup, sorted_set_sorted|].
  intros a. apply missing_predictors_In.
Qed.

(** ** The maps of training replayed on the training table *)

Section DictKeys.
Variables (K V : Type) (keqb : K -> K -> bool).
Hypothesis keqb_eq : forall a b, keqb a b = true <-> a = b.

Lemma dict_set_keys (k : K) (v : V) (d : list (K * V)) :
  map fst (dict_set keqb k v d)
  = if existsb (keqb k) (map fst d) then map fst d else map fst d ++ [k].
Proof.
  induction d as [|[k1 v1] rest IH]; cbn; [reflexivity|].
  destruct (keqb k k1) eqn:E; cbn; [reflexivity|].
  rewrite IH. destruct (existsb (keqb k) (map fst rest)); reflexivity.
Qed.

(** The keys of a dictionary stay distinct. *)
Lemma dict_set_NoDup (k : K) (v : V) (d : list (K * V)) :
  NoDup (map fst d) -> NoDup (map fst (dict_set keqb k v d)).
Proof.
  intros H. rewrite dict_set_keys.
  destruct (existsb (keqb k) (map fst d)) eqn:E; [exact H|].
  apply NoDup_app; [exact H | repeat constructor; intros [] |].
  intros x Hx [->|[]].
  assert (existsb (keqb x) (map fst d) = true); [|congruence].
  apply existsb_exists. exists x.
  split; [exact Hx | apply keqb_eq; reflexivity].
Qed.

Lemma dict_of_NoDup (pairs : list (K * V)) :
  NoDup (map fst (dict_of keqb pairs)).
Proof.
  unfold dict_of.
  assert (G : forall d, NoDup (map fst d) ->
              NoDup (map fst (fold_left
                (fun d kv => dict_set keqb (fst kv) (snd kv) d) pairs d))).
  { induction pairs as [|[k v] rest IH]; intros d Hd; cbn; [exact Hd|].
    apply IH, dict_set_NoDup, Hd. }
  apply G. constructor.
Qed.

Lemma dict_get_of_In (k : K) (v : V) (d : list (K * V)) :
  NoDup (map fst d) -> In (k, v) d -> dict_get keqb k d = Some v.
Proof.
  induction d as [|[k1 v1] rest IH]; intros Hnd Hin; [destruct Hin|].
  cbn in Hnd |- *. inversion Hnd as [|? ? Hk1 Hrest]; subst.
  destruct Hin as [E|Hin].
  - inversion E; subst. rewrite (proj2 (keqb_eq k k) eq_refl). reflexivity.
  - destruct (keqb k k1) eqn:E; [|apply IH; assumption].
    apply keqb_eq in E. subst k1. exfalso. apply Hk1.
    apply (in_map fst) in Hin. exact Hin.
Qed.

End DictKeys.

(** The entries of the stored dictionary: what line 79 put there, or a map
    of one of the variables of the loop; the keys stay distinct. *)
Lemma encode_categoricals_entries (vars : list string) :
  forall (d : ref) (cmap0 cmap : list (string * option cat_map))
         (w w' : world),
    encode_categoricals d vars cmap0 w = (w', Ok cmap) ->
    (NoDup (map fst cmap0) -> NoDup (map fst cmap)) /\
    forall k v, In (k, v) cmap -> In (k, v) cmap0 \/ In k vars.
Proof.
  induction vars as [|var rest IH]; intros d cmap0 cmap w w' H;
    cbn [encode_categoricals] in H.
  - inversion H. subst. split; auto.
  - apply bind_inv_ok in H. destruct H as (w1 & df & _ & H).
    apply bind_inv_ok in H. destruct H as (w2 & col & _ & H).
    destruct (length (unique col) =? 2).
    + apply bind_inv_ok in H. destruct H as (w3 & [] & _ & H).
      destruct (IH _ _ _ _ _ H) as [Hnd Hin]. split.
      * intros H0. apply Hnd.
        apply (@dict_set_NoDup _ _ _ String.eqb_eq). exact H0.
      * intros k v Hkv. destruct (Hin k v Hkv) as [H1|H1];
          [|right; right; exact H1].
        apply (@dict_set_In _ _ _ String.eqb_eq) in H1.
        destruct H1 as [H1|H1]; [|left; exact H1].
        inversion H1. right. left. reflexivity.
    + destruct (IH _ _ _ _ _ H) as [Hnd Hin]. split; [exact Hnd|].
      intros k v Hkv. destruct (Hin k v Hkv) as [H1|H1]; auto.
      right. right. exact H1.
Qed.

(** Every value of a column is among its distinct values. *)
Lemma isin_unique_from (l seen : list value) (v : value) :
  In v l -> isin v seen = true \/ isin v (unique_from seen l) = true.
Proof.
  revert seen. induction l as [|x rest IH]; intros seen Hin; [destruct Hin|].
  cbn [unique_from]. destruct (isin x seen) eqn:Ex.
  - destruct Hin as [<-|Hin]; [left; exact Ex | apply IH, Hin].
  - rewrite isin_cons. destruct Hin as [<-|Hin].
    + right. rewrite value_eqb_refl. reflexivity.
    + destruct (IH (x :: seen) Hin) as [H|H].
      * rewrite isin_cons in H. apply orb_true_iff in H.
        destruct H as [H|H]; [right; rewrite H; reflexivity | left; exact H].
      * right. rewrite H. apply orb_true_r.
Qed.

Lemma isin_unique (l : list value) (v : value) :
  In v l -> isin v (unique l) = true.
Proof.
  intros H. destruct (isin_unique_from l [] v H) as [H1|H1];
    [discriminate | exact H1].
Qed.

Lemma two_codes_keys (u : list value) :
  length u = 2 -> map fst (two_codes u) = u.
Proof. destruct u as [|a [|b [|c r]]]; cbn; intros H; try lia. reflexivity. Qed.

(** X20.  The maps built at training (lines 77-83) replayed as at
    inference (lines 165-168) on the table they were built from: the
    replay cannot take the error exit, and it gives every column the
    values the training gave it.  Inference encodes the training data
    the way training did. *)
Theorem categorical_round_trip (d : ref) (predictors : list string)
    (w u : world) (df : table) :
  nth_error (frames w) d = Some df ->
  wf_table df ->
  NoDup predictors ->
  (forall var, In var predictors -> In (LStr var) (labels df)) ->
  exists cmap dfE dfR,
    convert_categoricals d predictors w = (put_frame d dfE w, Ok cmap) /\
    replay_categoricals cmap df u = (u, Ok dfR) /\
    labels dfR = labels dfE /\
    nrows dfR = nrows dfE /\
    forall l, series dfR l = series dfE l.
Proof.
  intros Hdf Hwf Hnd Hin.
  unfold convert_categoricals.
  rewrite (bind_ok _ (@get_frame_run d df w Hdf)).
  set (vars := filter (is_object df) predictors).
  set (cmap0 := dict_of String.eqb (map (fun v => (v, None)) vars)).
  assert (Hndv : NoDup vars) by (apply NoDup_filter, Hnd).
  assert (Hinv : forall var, In var vars -> In (LStr var) (labels df)).
  { intros var Hv. apply Hin. apply filter_In in Hv. apply Hv. }
  destruct (@encode_categoricals_spec vars d cmap0 w df Hdf Hwf Hndv Hinv)
    as (cmap & dfE & Hrun & Hlab & HwfE & Hn & Hother & Hnotin & Hvar).
  destruct (@encode_categoricals_entries vars d cmap0 cmap w _ Hrun)
    as [Hkeys Hentries].
  assert (Hnd0 : NoDup (map fst cmap0)) 
    by apply (@dict_of_NoDup _ _ _ String.eqb_eq).
  specialize (Hkeys Hnd0).
  assert (Hnone : forall var, In var vars ->
                    dict_get String.eqb var cmap0 = Some None).
  { intros var Hv. apply (@dict_of_get _ _ _ String.eqb_eq).
    - rewrite map_map. cbn. rewrite map_id. exact Hndv.
    - apply in_map_iff. exists var. auto. }
  assert (Hsome : forall var m, In (var, Some m) cmap ->
            In var vars /\
            exists col, series df (LStr var) = Some col /\
                        length (unique col) = 2 /\
                        m = two_codes (unique col)).
  { intros var m Hm.
    assert (Hv : In var vars).
    { destruct (Hentries _ _ Hm) as [H0|H0]; [|exact H0].
      apply (@dict_of_In _ _ _ String.eqb_eq) in H0.
      apply in_map_iff in H0. destruct H0 as (x & E & _). inversion E. }
    split; [exact Hv|].
    destruct (@series_In df (LStr var) (Hinv var Hv)) as [col Hcol].
    exists col. split; [exact Hcol|].
    pose proof (@dict_get_of_In _ _ _ String.eqb_eq _ _ _ Hkeys Hm) as Hg.
    specialize (Hvar var col Hv Hcol).
    destruct (length (unique col) =? 2) eqn:E2.
    - destruct Hvar as [Hg' _]. rewrite Hg in Hg'. inversion Hg'.
      apply Nat.eqb_eq in E2. auto.
    - destruct Hvar as [Hg' _]. rewrite Hg, (Hnone var Hv) in Hg'.
      discriminate. }
  destruct (@replay_categoricals_ok cmap df u Hwf Hkeys) as
    (dfR & Hrep & HlabR & _ & HnR & HotherR & HsameR).
  { intros var m Hm. destruct (Hsome var m Hm)
      as (_ & col & Hcol & Hlen & ->).
    exists col. split; [exact Hcol|].
    rewrite (two_codes_keys _ Hlen). apply forallb_forall.
    intros v Hv. apply isin_unique, Hv. }
  exists cmap, dfE, dfR.
  split; [exact Hrun|]. split; [exact Hrep|].
  split; [rewrite HlabR, Hlab; reflexivity|].
  split; [rewrite HnR, Hn; reflexivity|].
  intros l.
  assert (Hplain : (forall var m, In (var, Some m) cmap -> l <> LStr var) ->
                   series dfR l = series dfE l).
  { intros Hfree. rewrite (HotherR l Hfree).
    destruct l as [s|z].
    - destruct (in_dec string_dec s vars) as [Hs|Hs].
      + destruct (@series_In df (LStr s) (Hinv s Hs)) as [col Hcol].
        specialize (Hvar s col Hs Hcol).
        destruct (length (unique col) =? 2).
        * destruct Hvar as [Hg _].
          apply (@dict_get_In _ _ _ String.eqb_eq) in Hg.
          exfalso. apply (Hfree s _ Hg). reflexivity.
        * destruct Hvar as [_ Hs']. rewrite Hs', Hcol. reflexivity.
      + symmetry. apply Hother. intros var Hv E. inversion E. subst.
        contradiction.
    - symmetry. apply Hother. intros var Hv E. discriminate. }
  destruct l as [s|z]; [|apply Hplain; intros var m _ E; discriminate].
  destruct (dict_get String.eqb s cmap) as [[m|]|] eqn:Eg.
  - apply (@dict_get_In _ _ _ String.eqb_eq) in Eg.
    destruct (Hsome s m Eg) as (Hs & col & Hcol & Hlen & ->).
    rewrite (HsameR s _ col Eg Hcol).
    specialize (Hvar s col Hs Hcol).
    apply Nat.eqb_eq in Hlen. rewrite Hlen in Hvar.
    destruct Hvar as [_ ->]. reflexivity.
  - apply Hplain. intros var m Hm E. inversion E. subst var.
    rewrite (@dict_get_of_In _ _ _ String.eqb_eq _ _ _ Hkeys Hm) in Eg.
    discriminate.
  - apply Hplain. intros var m Hm E. inversion E. subst var.
    rewrite (@dict_get_of_In _ _ _ String.eqb_eq _ _ _ Hkeys Hm) in Eg.
    discriminate.
Qed.

(** ** Encoding a frame that is already encoded *)

Lemma col_dtype_set_column (df : table) (l : label) (d : dtype)
    (vals : list value) (l' : label) :
  In l (labels df) ->
  col_dtype (set_column df l d vals) l'
  = if label_eqb l' l then Some d else col_dtype df l'.
Proof.
  intros Hl. unfold col_dtype. rewrite labels_set_column by exact Hl.
  destruct (index_of_In _ _ Hl) as [i Hi].
  assert (Hlt : i < length (columns df)).
  { apply index_of_lt in Hi. unfold labels in Hi. rewrite length_map in Hi.
    exact Hi. }
  unfold set_column. rewrite Hi. cbn [columns].
  destruct (label_eqb l' l) eqn:E.
  - apply label_eqb_eq in E. subst l'. rewrite Hi.
    rewrite nth_error_replace_nth_same by exact Hlt. reflexivity.
  - destruct (index_of l' (labels df)) as [j|] eqn:Hj; [|reflexivity].
    rewrite nth_error_replace_nth_other; [reflexivity|].
    intros ->. apply index_of_Some in Hi, Hj. rewrite Hi in Hj.
    inversion Hj. subst l'.
    rewrite (proj2 (label_eqb_eq l l) eq_refl) in E. discriminate.
Qed.

Lemma label_eqb_refl (l : label) : label_eqb l l = true.
Proof. apply label_eqb_eq. reflexivity. Qed.

Lemma label_eqb_neq (a b : label) : a <> b -> label_eqb a b = false.
Proof.
  intros H. destruct (label_eqb a b) eqn:E; [|reflexivity].
  apply label_eqb_eq in E. contradiction.
Qed.

(** The loop of lines 80-83 turns the columns it encodes into [int64]
    columns and leaves the dtype of every other column alone. *)
Lemma encode_categoricals_dtypes (vars : list string) :
  forall (d : ref) (cmap0 : list (string * option cat_map)) (w : world)
         (df : table),
    nth_error (frames w) d = Some df ->
    wf_table df ->
    NoDup vars ->
    (forall var, In var vars -> In (LStr var) (labels df)) ->
    exists cmap df',
      encode_categoricals d vars cmap0 w = (put_frame d df' w, Ok cmap) /\
      (forall l, (forall var, In var vars -> l <> LStr var) ->
                 col_dtype df' l = col_dtype df l) /\
      (forall var col,
          In var vars -> series df (LStr var) = Some col ->
          col_dtype df' (LStr var)
          = if length (unique col) =? 2 then Some Int64
            else col_dtype df (LStr var)).
Proof.
  induction vars as [|var rest IH]; intros d cmap0 w df Hd Hwf Hnd Hin.
  - exists cmap0, df. cbn. rewrite (@put_frame_same d df w Hd).
    split; [reflexivity|]. split; [auto|]. intros var col [].
  - inversion Hnd as [|? ? Hvar Hrest]; subst.
    assert (Hl : In (LStr var) (labels df)) by (apply Hin; left; reflexivity).
    destruct (@series_In df (LStr var) Hl) as [col Hcol].
    cbn [encode_categoricals].
    rewrite (bind_ok _ (@get_frame_run d df w Hd)), Hcol. cbn [try_].
    unfold ret at 1. unfold bind at 1.
    destruct (length (unique col) =? 2) eqn:E2.
    + set (m := two_codes (unique col)).
      set (df1 := set_column df (LStr var) Int64 (series_map m col)).
      assert (Hlen : length (series_map m col) = nrows df).
      { rewrite series_map_length.
        apply (@series_length df (LStr var) col Hcol). }
      unfold bind at 1, set_frame at 1.
      assert (Hd1 : nth_error (frames (put_frame d df1 w)) d = Some df1).
      { apply put_frame_get. apply (@nth_error_lt _ (frames w) d df Hd). }
      destruct (IH d (dict_set String.eqb var (Some m) cmap0)
                  (put_frame d df1 w) df1 Hd1)
        as (cmap & df' & Erun & Hother & Hvars).
      * apply wf_set_column; assumption.
      * exact Hrest.
      * intros v Hv. unfold df1. rewrite labels_set_column by assumption.
        apply Hin. right. exact Hv.
      * exists cmap, df'. rewrite Erun, put_frame_twice.
        split; [reflexivity|]. split.
        -- intros l Hfree.
           rewrite Hother by (intros v Hv; apply Hfree; right; exact Hv).
           unfold df1. rewrite col_dtype_set_column by exact Hl.
           rewrite label_eqb_neq by (apply Hfree; left; reflexivity).
           reflexivity.
        -- intros v c [->|Hv] Hc.
           ++ rewrite Hcol in Hc. inversion Hc. subst c. rewrite E2.
              rewrite Hother
                by (intros v' Hv' E; inversion E; subst; contradiction).
              unfold df1. rewrite col_dtype_set_column by exact Hl.
              rewrite label_eqb_refl. reflexivity.
           ++ assert (Hne : LStr v <> LStr var).
              { intros E. inversion E; subst. contradiction. }
              assert (Hc1 : series df1 (LStr v) = Some c).
              { unfold df1. rewrite series_set_column_other by assumption.
                exact Hc. }
              rewrite (Hvars v c Hv Hc1). unfold df1.
              rewrite col_dtype_set_column by exact Hl.
              rewrite (label_eqb_neq Hne). reflexivity.
    + destruct (IH d cmap0 w df Hd Hwf Hrest)
        as (cmap & df' & Erun & Hother & Hvars).
      * intros v Hv. apply Hin. right. exact Hv.
      * exists cmap, df'. rewrite Erun.
        split; [reflexivity|]. split.
        -- intros l Hfree. apply Hother. intros v Hv. apply Hfree. right.
           exact Hv.
        -- intros v c [->|Hv] Hc.
           ++ rewrite Hcol in Hc. inversion Hc. subst c. rewrite E2.
              apply Hother. intros v' Hv' E. inversion E. subst.
              contradiction.
           ++ apply (Hvars v c Hv Hc).
Qed.

(** The loop does nothing on variables that do not have exactly two
    distinct values. *)
Lemma encode_categoricals_noop (vars : list string) :
  forall (d : ref) (cmap0 : list (string * option cat_map)) (w : world)
         (df : table),
    nth_error (frames w) d = Some df ->
    (forall var, In var vars ->
       exists col, series df (LStr var) = Some col /\
                   length (unique col) <> 2) ->
    encode_categoricals d vars cmap0 w = (w, Ok cmap0).
Proof.
  induction vars as [|var rest IH]; intros d cmap0 w df Hd Hvars;
    cbn [encode_categoricals]; [reflexivity|].
  destruct (Hvars var (or_introl eq_refl)) as (col & Hcol & Hne).
  rewrite (bind_ok _ (@get_frame_run d df w Hd)), Hcol. cbn [try_].
  rewrite bind_ret_run.
  rewrite (proj2 (Nat.eqb_neq _ _) Hne).
  apply (IH d cmap0 w df Hd). intros v Hv. apply Hvars. right. exact Hv.
Qed.

Lemma put_frame_inj (d : ref) (t1 t2 : table) (w : world) :
  d < length (frames w) -> put_frame d t1 w = put_frame d t2 w -> t1 = t2.
Proof.
  intros Hd H. apply (f_equal (fun u => nth_error (frames u) d)) in H.
  rewrite !put_frame_get in H by exact Hd. inversion H. reflexivity.
Qed.

(** X21.  Lines 77-83 run a second time on the frame object they have
    already encoded, as happens when [spare_train] is called again on the
    frame it has mutated: the encoded columns are [int64] columns now, so
    they are no longer categorical variables; nothing is encoded, the
    frame stays as it is, and every map stored is [None].  The encoding
    of the first run is not recorded again. *)
Theorem convert_categoricals_twice (d : ref) (predictors : list string)
    (w : world) (df : table) :
  nth_error (frames w) d = Some df ->
  wf_table df ->
  NoDup predictors ->
  (forall var, In var predictors -> In (LStr var) (labels df)) ->
  exists cmap1 dfE cmap2,
    convert_categoricals d predictors w = (put_frame d dfE w, Ok cmap1) /\
    convert_categoricals d predictors (put_frame d dfE w)
    = (put_frame d dfE w, Ok cmap2) /\
    (forall var, In var (map fst cmap2) -> In var (map fst cmap1)) /\
    (forall var m, ~ In (var, Some m) cmap2).
Proof.
  intros Hdf Hwf Hnd Hin.
  assert (Hd : d < length (frames w)) by apply (nth_error_lt _ _ Hdf).
  set (vars := filter (is_object df) predictors).
  set (cmap0 := dict_of String.eqb (map (fun v => (v, @None cat_map)) vars)).
  assert (Hndv : NoDup vars) by (apply NoDup_filter, Hnd).
  assert (Hinv : forall var, In var vars -> In (LStr var) (labels df)).
  { intros var Hv. apply Hin. apply filter_In in Hv. apply Hv. }
  destruct (@encode_categoricals_spec vars d cmap0 w df Hdf Hwf Hndv Hinv)
    as (cmap1 & dfE & Hrun & Hlab & HwfE & Hn & Hother & Hnotin & Hvar).
  destruct (@encode_categoricals_dtypes vars d cmap0 w df Hdf Hwf Hndv Hinv)
    as (cmap1' & dfE' & Hrun' & Hdother & Hdvar).
  rewrite Hrun in Hrun'.
  pose proof (f_equal fst Hrun') as Hput. cbn [fst] in Hput.
  pose proof (f_equal snd Hrun') as Hcm. cbn [snd] in Hcm.
  inversion Hcm as [Hcm'].
  apply (@put_frame_inj d dfE dfE' w Hd) in Hput. subst dfE' cmap1'.
  clear Hrun'.
  assert (HdE : nth_error (frames (put_frame d dfE w)) d = Some dfE)
    by (apply put_frame_get, Hd).
  set (vars2 := filter (is_object dfE) predictors).
  exists cmap1, dfE,
    (dict_of String.eqb (map (fun v => (v, @None cat_map)) vars2)).
  assert (Hsub : forall var, In var vars2 ->
            In var vars /\
            exists col, series dfE (LStr var) = Some col /\
                        length (unique col) <> 2).
  { intros var Hv. apply filter_In in Hv. destruct Hv as [Hp Ho].
    unfold is_object in Ho.
    destruct (in_dec string_dec var vars) as [Hvv|Hvv].
    - split; [exact Hvv|].
      destruct (@series_In df (LStr var) (Hinv var Hvv)) as [col Hcol].
      specialize (Hvar var col Hvv Hcol).
      rewrite (Hdvar var col Hvv Hcol) in Ho.
      destruct (length (unique col) =? 2) eqn:E2; [discriminate|].
      exists col. split; [apply Hvar | apply Nat.eqb_neq, E2].
    - exfalso. rewrite Hdother in Ho.
      + apply Hvv. apply filter_In. split; [exact Hp | exact Ho].
      + intros v Hv E. inversion E. subst. contradiction. }
  split; [unfold convert_categoricals;
          rewrite (bind_ok _ (@get_frame_run d df w Hdf)); exact Hrun|].
  split; [|split].
  - unfold convert_categoricals.
    rewrite (bind_ok _ (@get_frame_run d dfE _ HdE)). fold vars2.
    apply (@encode_categoricals_noop vars2 d _ _ dfE HdE).
    intros var Hv. apply (Hsub var Hv).
  - intros var Hv. apply in_map_iff in Hv. destruct Hv as ([k v] & <- & Hkv).
    apply (@dict_of_In _ _ _ String.eqb_eq) in Hkv.
    apply in_map_iff in Hkv. destruct Hkv as (x & E & Hx). inversion E.
    subst k v. cbn [fst].
    destruct (Hsub x Hx) as [Hxv _].
    destruct (@encode_categoricals_entries vars d cmap0 cmap1 w _ Hrun)
      as [Hkeys _].
    assert (Hg : dict_get String.eqb x cmap1 <> None).
    { destruct (@series_In df (LStr x) (Hinv x Hxv)) as [col Hcol].
      specialize (Hvar x col Hxv Hcol).
      destruct (length (unique col) =? 2); destruct Hvar as [Hg _];
        rewrite Hg; [discriminate|].
      unfold cmap0. rewrite (@dict_of_get _ _ _ String.eqb_eq x None).
      - discriminate.
      - rewrite map_map. cbn. rewrite map_id. exact Hndv.
      - apply in_map_iff. exists x. auto. }
    destruct (dict_get String.eqb x cmap1) as [v|] eqn:Eg; [|contradiction].
    apply (@dict_get_In _ _ _ String.eqb_eq) in Eg.
    apply (in_map fst) in Eg. exact Eg.
  - intros var m Hm. apply (@dict_of_In _ _ _ String.eqb_eq) in Hm.
    apply in_map_iff in Hm. destruct Hm as (x & E & _). inversion E.
Qed.

(** ** Inference on the frame that training has mutated *)

(** A replay that goes through has found every value of every mapped
    column among the keys of its map. *)
Lemma replay_categoricals_checked (entries : list (string * option cat_map)) :
  forall (df df' : table) (w w' : world),
    replay_categoricals entries df w = (w', Ok df') ->
    NoDup (map fst entries) ->
    forall var m col,
      In (var, Some m) entries -> series df (LStr var) = Some col ->
      forallb (fun v => isin v (map fst m)) col = true.
Proof.
  induction entries as [|[v [m0|]] rest IH]; intros df df' w w' H Hnd var m
    col Hin Hcol; cbn [replay_categoricals] in H.
  - destruct Hin.
  - cbn in Hnd. inversion Hnd as [|? ? Hv Hrest]; subst.
    apply bind_inv_ok in H. destruct H as (w1 & c & Hc & H).
    apply try_inv_ok in Hc. destruct Hc as [Hc ->].
    destruct (forallb (fun x => isin x (map fst m0)) c) eqn:Echeck;
      [|discriminate].
    destruct Hin as [E|Hin].
    + inversion E. subst. rewrite Hcol in Hc. inversion Hc. subst.
      exact Echeck.
    + apply (IH _ _ _ _ H Hrest var m col Hin).
      assert (Hne : LStr var <> LStr v).
      { intros E. inversion E. subst. apply Hv.
        apply (in_map fst) in Hin. exact Hin. }
      rewrite series_set_column_other; [exact Hcol | | | exact Hne].
      * unfold series in Hc.
        destruct (index_of (LStr v) (labels df)) as [i|] eqn:Ei;
          [|discriminate].
        eapply nth_error_In. apply index_of_Some. exact Ei.
      * rewrite series_map_length. apply (series_length _ _ Hc).
  - cbn in Hnd. inversion Hnd as [|? ? Hv Hrest]; subst.
    destruct Hin as [E|Hin]; [discriminate|].
    apply (IH _ _ _ _ H Hrest var m col Hin Hcol).
Qed.

(** A new column leaves the others as they are. *)
Lemma series_set_column_any (df : table) (l : label) (d : dtype)
    (vals : list value) (l' : label) :
  wf_table df -> length vals = nrows df -> In l' (labels df) -> l' <> l ->
  series (set_column df l d vals) l' = series df l'.
Proof.
  intros Hwf Hlen Hin Hne.
  destruct (index_of l (labels df)) as [i|] eqn:Hi.
  - apply series_set_column_other; try assumption.
    eapply nth_error_In. apply index_of_Some. exact Hi.
  - unfold series, set_column. rewrite Hi. unfold labels at 1. cbn [columns].
    rewrite map_app. cbn [map fst]. fold (labels df).
    destruct (index_of_In _ _ Hin) as [j Hj].
    assert (Hj' : index_of l' (labels df ++ [l]) = Some j).
    { clear - Hj. revert j Hj.
      induction (labels df) as [|x rest IH]; intros j Hj; cbn in *;
        [discriminate|].
      destruct (label_eqb l' x); [exact Hj|].
      destruct (index_of l' rest) as [k|]; [|discriminate].
      rewrite (IH k eq_refl). exact Hj. }
    rewrite Hj', Hj. f_equal. cbn [rows]. rewrite map_map.
    assert (Hjlt : j < length (columns df)).
    { apply index_of_lt in Hj. unfold labels in Hj.
      rewrite length_map in Hj. exact Hj. }
    unfold wf_table in Hwf. unfold nrows in Hlen.
    revert vals Hlen Hwf. induction (rows df) as [|r rs IH];
      intros [|v vs] Hlen Hwf; cbn in *; try discriminate; [reflexivity|].
    inversion Hwf as [|? ? Hr Hrs]; subst. f_equal.
    + apply app_nth1. rewrite Hr. exact Hjlt.
    + apply IH; [lia | exact Hrs].
Qed.

Lemma labels_set_column_incl (df : table) (l : label) (d : dtype)
    (vals : list value) (l' : label) :
  In l' (labels df) -> In l' (labels (set_column df l d vals)).
Proof.
  intros Hin. destruct (index_of l (labels df)) as [i|] eqn:Hi.
  - rewrite labels_set_column; [exact Hin|].
    eapply nth_error_In. apply index_of_Some. exact Hi.
  - unfold set_column. rewrite Hi. unfold labels. cbn [columns].
    rewrite map_app. apply in_or_app. left. exact Hin.
Qed.

Section TrainThenTest.

Variable run_SVC :
  table -> list string -> string -> list value -> param_grid -> string ->
  option nat -> option nat -> trainer_output.
Variable run_SVR :
  table -> list string -> string -> param_grid ->
  option nat -> option nat -> trainer_output.
Variable df_sample : table -> nat -> Z -> table.

(** X22.  [spare_train] followed by [spare_test] on the same frame
    object.  On a table without missing predictor values, training
    encodes every two-valued categorical predictor in the caller's frame
    (lines 81-83).  Inference on that frame with the artifact just
    returned then finds codes where the stored map expects the original
    strings (line 167): it never returns scores. *)
Theorem spare_test_on_trained_frame (df0 predictors : ref)
    (to_predict pos_group kernel : string) (df : table)
    (preds : list string) (X : list (list value)) (var a b : string)
    (col : list value) (w w' u : world) (out : model * metaData)
    (scores : list cell) :
  nth_error (frames w) df0 = Some df ->
  nth_error (lists w) predictors = Some preds ->
  wf_table df ->
  NoDup (remove_first to_predict preds) ->
  frame_values df (map LStr (remove_first to_predict preds)) = Some X ->
  existsb (existsb isna) X = false ->
  In var (remove_first to_predict preds) ->
  var <> "predicted"%string ->
  is_object df var = true ->
  series df (LStr var) = Some col ->
  unique col = [VStr a; VStr b] ->
  spare_train run_SVC run_SVR df_sample df0 predictors to_predict pos_group
              kernel w = (w', Ok out) ->
  spare_test df0 out w' <> (u, Ok scores).
Proof.
  intros Hdf Hl Hwf Hnd HX Hna Hvar Hnp Hobj Hcol Hu H Htest.
  apply spare_train_full in H.
  destruct H as (df_ & preds_ & preds' & tg & es & d & w3 & dfd & age & ages
                 & dfE & cmap & w5 & o & X_ & cv & Hdf' & Hl' & Hsub & Hdet
                 & Hp & HX' & Hdrop & Hc3 & H3 & Hage & Hages & Hconv & Hn
                 & Hlab & Hfit & F5 & Hlen & -> & Hcv & ->).
  rewrite Hdf in Hdf'. inversion Hdf'. subst df_.
  rewrite Hl in Hl'. inversion Hl'. subst preds_.
  assert (Hp' : preds' = remove_first to_predict preds).
  { rewrite Hp. destruct (existsb (String.eqb to_predict) preds) eqn:E;
      [reflexivity | symmetry; apply remove_first_absent, E]. }
  clear Hp. subst preds'.
  rewrite HX in HX'. inversion HX'. subst X_.
  rewrite Hna in Hdrop. destruct Hdrop as (-> & F3 & ->).
  set (preds' := remove_first to_predict preds) in *.
  assert (Hcols : forall v, In v preds' -> In (LStr v) (labels df)).
  { intros v Hv.
    apply (proj1 (issubset_forall (map LStr preds) df) Hsub).
    apply in_map. apply (count_occ_In string_dec).
    apply (count_occ_In string_dec) in Hv. unfold preds' in Hv.
    rewrite count_occ_remove_first in Hv.
    destruct (String.eqb v to_predict); lia. }
  (* the encoding of the run *)
  unfold convert_categoricals in Hconv.
  rewrite (bind_ok _ (@get_frame_run df0 df w3 H3)) in Hconv.
  set (vars := filter (is_object df) preds') in *.
  set (cmap0 := dict_of String.eqb (map (fun v => (v, @None cat_map)) vars))
    in *.
  assert (Hndv : NoDup vars) by (apply NoDup_filter, Hnd).
  assert (Hinv : forall v, In v vars -> In (LStr v) (labels df)).
  { intros v Hv. apply Hcols. apply filter_In in Hv. apply Hv. }
  assert (Hvv : In var vars) by (apply filter_In; auto).
  destruct (@encode_categoricals_spec vars df0 cmap0 w3 df H3 Hwf Hndv Hinv)
    as (cmap_ & dfE_ & Hrun & _ & HwfE & _ & _ & _ & Hcode).
  rewrite Hconv in Hrun.
  pose proof (f_equal fst Hrun) as Hput. cbn [fst] in Hput.
  pose proof (f_equal snd Hrun) as Hcm. cbn [snd] in Hcm.
  inversion Hcm as [Hcm']. subst cmap_.
  apply (@put_frame_inj df0 dfE dfE_ w3 (nth_error_lt _ _ H3)) in Hput.
  subst dfE_.
  specialize (Hcode var col Hvv Hcol). rewrite Hu in Hcode. cbn in Hcode.
  destruct Hcode as [Hget HserE].
  destruct (@encode_categoricals_entries vars df0 cmap0 cmap w3 _ Hconv)
    as [Hkeys _].
  specialize (Hkeys (@dict_of_NoDup _ _ _ String.eqb_eq _)).
  apply (@dict_get_In _ _ _ String.eqb_eq) in Hget.
  (* the frame that inference reads *)
  set (F := set_column dfE (LStr "predicted") Float64 (out_predicted o)) in *.
  assert (Hd5 : df0 < length (frames w5)).
  { rewrite F5. cbn. rewrite replace_nth_length.
    apply (nth_error_lt _ _ H3). }
  assert (HF : nth_error (frames (put_frame df0 F w5)) df0 = Some F)
    by (apply put_frame_get, Hd5).
  assert (HlabF : forall v, In v preds' -> In (LStr v) (labels F)).
  { intros v Hv. apply labels_set_column_incl. rewrite Hlab.
    apply Hcols, Hv. }
  assert (HserF : series F (LStr var)
                  = Some (series_map (two_codes [VStr a; VStr b]) col)).
  { unfold F. rewrite series_set_column_any; try assumption.
    - rewrite Hlab. apply Hcols, Hvar.
    - intros E. inversion E. contradiction. }
  apply spare_test_inv in Htest.
  destruct Htest as (F_ & df1 & w1 & HF' & Hrec & Htest).
  rewrite HF in HF'. inversion HF'. subst F_. cbn [snd md_predictors] in Hrec.
  rewrite reconcile_present in Hrec.
  2:{ apply issubset_forall. intros l Hin. apply in_map_iff in Hin.
      destruct Hin as (v & <- & Hv). apply HlabF, Hv. }
  inversion Hrec. subst w1 df1.
  apply test_reconciled_inv in Htest.
  destruct Htest as (? & ? & ? & ? & ? & df2 & ? & ? & _ & _ & _ & _ & _ & _
                     & Hreplay & _).
  cbn [md_categorical_var_map] in Hreplay.
  pose proof (@replay_categoricals_checked cmap F df2 u u Hreplay Hkeys var
                _ _ Hget HserF) as Hcheck.
  destruct col as [|c0 col']; [discriminate|].
  cbn in Hcheck.
  destruct (value_eqb c0 (VStr a)); [|destruct (value_eqb c0 (VStr b))];
    cbn in Hcheck; discriminate.
Qed.

End TrainThenTest.

Lemma spare_test_on_trained_frame_witness :
  match snd (spare_test 0 (Sample.outcome Sample.dx_run)
                        (fst Sample.dx_run)) with
  | Ok _ => False
  | _ => True
  end.
Proof.
  destruct (spare_test 0 (Sample.outcome Sample.dx_run) (fst Sample.dx_run))
    as [u [scores| |e]] eqn:E; cbn [snd]; [|exact I|exact I].
  refine (@spare_test_on_trained_frame Sample.run_SVC Sample.run_SVR
            Sample.df_sample 0 0 "DX"%string "AD"%string "linear"%string
            Sample.train_dx Sample.dx_predictors
            (repeat [VStr "F"; VNum (inject_Z 1)]%string 6
             ++ repeat [VStr "M"; VNum (inject_Z 1)]%string 6
             ++ repeat [VStr "F"; VNum (inject_Z 2)]%string 10)
            "Sex"%string "F"%string "M"%string
            (repeat (VStr "F"%string) 6 ++ repeat (VStr "M"%string) 6
             ++ repeat (VStr "F"%string) 10)
            (Sample.store Sample.train_dx Sample.dx_predictors)
            (fst Sample.dx_run) u (Sample.outcome Sample.dx_run) scores
            eq_refl eq_refl _ _ _ _ _ _ _ _ _ _ E).
  - repeat constructor.
  - vm_compute. repeat constructor; cbn; intuition discriminate.
  - vm_compute. reflexivity.
  - vm_compute. reflexivity.
  - vm_compute. auto.
  - discriminate.
  - vm_compute. reflexivity.
  - vm_compute. reflexivity.
  - vm_compute. reflexivity.
  - vm_compute. reflexivity.
Defined.

(** ** The linear decision value *)

Lemma fold_fadd_some (ps : list Q) :
  fold_right fadd (Some 0%Q) (map Some ps) = Some (Qsum ps).
Proof.
  induction ps as [|p ps IH]; cbn; [reflexivity|].
  rewrite IH. reflexivity.
Qed.

Lemma fold_fadd_none (cs : list cell) :
  In None cs -> fold_right fadd (Some 0%Q) cs = None.
Proof.
  induction cs as [|c cs IH]; intros H; [destruct H|].
  cbn. destruct H as [->|H]; [reflexivity|].
  rewrite (IH H). destruct c; reflexivity.
Qed.

(** X23.  Line 187 on one row of the scaled data, for a row with as many
    entries as the machine has coefficients: the decision value is the
    dot product with the coefficients plus the intercept when every entry
    is a number, and NaN as soon as one entry is NaN. *)
Theorem linear_decision_row (m : svm) (X : list cell) :
  length X = length (coef_ m) ->
  (forall xs, X = map Some xs ->
     linear_decision m X
     = Some (Some (Qsum (map (fun xc => fst xc * snd xc)%Q
                             (combine xs (coef_ m)))
                   + intercept_ m)%Q)) /\
  (In None X -> linear_decision m X = Some None).
Proof.
  intros Hlen. unfold linear_decision, broadcast_mul.
  rewrite (proj2 (Nat.eqb_eq _ _) Hlen). cbv beta iota. split.
  - intros xs ->.
    assert (E : map (fun xc => fmul (fst xc) (Some (snd xc)))
                    (combine (map Some xs) (coef_ m))
                = map Some (map (fun xc => (fst xc * snd xc)%Q)
                                (combine xs (coef_ m)))).
    { clear Hlen. generalize (coef_ m) as cs.
      induction xs as [|x xs IH]; intros [|c cs]; cbn; try reflexivity.
      rewrite IH. reflexivity. }
    f_equal.
    apply (f_equal (fun c => fadd c (Some (intercept_ m)))
                   (eq_trans (f_equal (fold_right fadd (Some 0%Q)) E)
                             (fold_fadd_some _))).
  - intros Hin. f_equal.
    apply (f_equal (fun c => fadd c (Some (intercept_ m)))
                   (y := None)).
    apply fold_fadd_none.
    revert Hlen Hin. generalize (coef_ m) as cs.
    induction X as [|x X IH]; intros [|c cs] Hlen Hin; cbn in *;
      try discriminate; [destruct Hin|].
    destruct Hin as [->|Hin]; [left; reflexivity|].
    right. apply IH; [lia | exact Hin].
Qed.

Lemma linear_decision_row_witness :
  linear_decision (Sample.linear_svm 2) [None] = Some None.
Proof.
  apply (proj2 (@linear_decision_row (Sample.linear_svm 2) [None] eq_refl)).
  left. reflexivity.
Defined.

(** ** The names of the files *)

Lemma split_not_nil (sep : ascii) (s : string) : split sep s <> [].
Proof.
  destruct s as [|c rest]; cbn; [discriminate|].
  destruct (Ascii.eqb c sep); [discriminate|].
  destruct (split sep rest); discriminate.
Qed.

Lemma split_free (sep : ascii) (s : string) :
  has_char sep s = false -> split sep s = [s].
Proof.
  induction s as [|c rest IH]; cbn; [reflexivity|].
  intros H. apply orb_false_iff in H. destruct H as [Hc Hrest].
  rewrite Hc, (IH Hrest). reflexivity.
Qed.

(** [(a + sep + b).split(sep) = a.split(sep) + b.split(sep)] *)
Lemma split_app (sep : ascii) (a b : string) :
  split sep (a ++ String sep b) = split sep a ++ split sep b.
Proof.
  induction a as [|c a IH]; cbn.
  - rewrite Ascii.eqb_refl. reflexivity.
  - destruct (Ascii.eqb c sep); [rewrite IH; reflexivity|].
    rewrite IH. destruct (split sep a) as [|h t] eqn:E;
      [exfalso; apply (split_not_nil sep a E) | reflexivity].
Qed.

Lemma has_char_app (c : ascii) (a b : string) :
  has_char c (a ++ b) = has_char c a || has_char c b.
Proof.
  induction a as [|x a IH]; cbn; [reflexivity|].
  rewrite IH, orb_assoc. reflexivity.
Qed.

Lemma replace_dots_free (s : string) :
  has_char "."%char (replace_dots s) = false.
Proof.
  induction s as [|c rest IH]; cbn; [reflexivity|].
  rewrite IH, orb_false_r.
  destruct (Ascii.eqb c "."%char) eqn:E; [reflexivity | exact E].
Qed.

Lemma replace_dots_slash (s : string) :
  has_char "/"%char (replace_dots s) = has_char "/"%char s.
Proof.
  induction s as [|c rest IH]; cbn; [reflexivity|].
  rewrite IH. destruct (Ascii.eqb c "."%char) eqn:E; [|reflexivity].
  apply Ascii.eqb_eq in E. subst c. reflexivity.
Qed.

Lemma last_app_nonempty (A : Type) (l l' : list A) (d : A) :
  l' <> [] -> last (l ++ l') d = last l' d.
Proof.
  intros H. induction l as [|x l IH]; [reflexivity|].
  cbn [app]. destruct (l ++ l') as [|y r] eqn:E.
  - destruct l; [cbn in E; contradiction | discriminate].
  - cbn [last]. exact IH.
Qed.

(** X24.  How the two file names fit (lines 114-117, 198 and 201).  With
    a model name free of ['/'] and ['.'], the scores of a model written by
    [spare_train] go to [SPAREs_from_mdl_<name>.csv], whatever the two
    output directories are.  The default name never holds a ['.'] (this
    is what the replacement of line 115 is for), so for it the condition
    is that the target holds no ['/']. *)
Theorem csv_file_of_mdl_file (out_path save_path mdl_name : string)
    (ty : spare_type) (to_predict : string) :
  has_char "/"%char (model_name mdl_name ty to_predict) = false ->
  (mdl_name <> ""%string -> has_char "."%char mdl_name = false) ->
  has_char "."%char (model_name mdl_name ty to_predict) = false /\
  csv_file save_path (mdl_file out_path mdl_name ty to_predict)
  = (save_path ++ "/SPAREs_from_mdl_" ++ model_name mdl_name ty to_predict
       ++ ".csv")%string.
Proof.
  intros Hslash Hdot.
  assert (Hd : has_char "."%char (model_name mdl_name ty to_predict) = false).
  { unfold model_name in *. destruct (String.eqb mdl_name "") eqn:E.
    - rewrite !has_char_app. cbn [has_char String.append].
      destruct ty; cbn; rewrite replace_dots_free; reflexivity.
    - apply Hdot. intros ->. discriminate. }
  split; [exact Hd|].
  set (name := model_name mdl_name ty to_predict) in *.
  unfold csv_file, mdl_file. fold name.
  change (out_path ++ "/mdl_" ++ name ++ ".pkl.gz")%string
    with (out_path ++ String "/" ("mdl_" ++ name ++ ".pkl.gz"))%string.
  rewrite split_app.
  rewrite last_app_nonempty by apply split_not_nil.
  rewrite (split_free "/" ("mdl_" ++ name ++ ".pkl.gz")).
  2:{ cbn. rewrite has_char_app, Hslash. reflexivity. }
  cbn [last].
  change ("mdl_" ++ name ++ ".pkl.gz")%string
    with (String "m" (String "d" (String "l" (String "_"
            (name ++ String "." "pkl.gz")))))%string.
  change (String "m" (String "d" (String "l" (String "_"
            (name ++ String "." "pkl.gz")))))%string
    with (("mdl_" ++ name) ++ String "." "pkl.gz")%string.
  rewrite split_app, (split_free "." ("mdl_" ++ name)).
  2:{ cbn. exact Hd. }
  reflexivity.
Qed.

Lemma csv_file_of_mdl_file_witness :
  csv_file "./Out" (mdl_file "./Mdl" "" Classification "DX.v2")
  = "./Out/SPAREs_from_mdl_SPARE_classification_DX_v2.csv"%string.
Proof.
  destruct (@csv_file_of_mdl_file "./Mdl" "./Out" "" Classification "DX.v2")
    as [_ H].
  - reflexivity.
  - intros H. exfalso. apply H. reflexivity.
  - exact H.
Defined.

(** ** The statements on columns and maps, on sample inputs *)

Lemma reconcile_only_renames_witness :
  rows Cases.reconciled_table = rows Sample.test_table /\
  labels Cases.reconciled_table
  = [LStr "PTID"; LStr "Age"; LStr "ROI_101"]%string.
Proof.
  destruct (@reconcile_only_renames ["ROI_101"%string] Sample.test_table
              Cases.reconciled_table (Sample.store Sample.test_table [])
              (fst Cases.reconciled))
    as (Hrows & _).
  - vm_compute. reflexivity.
  - split; [exact Hrows | reflexivity].
Defined.

Lemma categorical_round_trip_witness :
  exists cmap dfE dfR,
    convert_categoricals 0 ["Sex"%string]
      (Sample.store Sample.sex_table ["Sex"%string])
    = (put_frame 0 dfE (Sample.store Sample.sex_table ["Sex"%string]),
       Ok cmap) /\
    replay_categoricals cmap Sample.sex_table
      (Sample.store Sample.sex_table ["Sex"%string])
    = (Sample.store Sample.sex_table ["Sex"%string], Ok dfR) /\
    series dfR (LStr "Sex") = series dfE (LStr "Sex").
Proof.
  destruct (@categorical_round_trip 0 ["Sex"%string]
              (Sample.store Sample.sex_table ["Sex"%string])
              (Sample.store Sample.sex_table ["Sex"%string])
              Sample.sex_table eq_refl)
    as (cmap & dfE & dfR & H1 & H2 & _ & _ & H3).
  - repeat constructor.
  - constructor; [intros [] | constructor].
  - intros var [<-|[]]. right. left. reflexivity.
  - exists cmap, dfE, dfR. split; [exact H1|]. split; [exact H2 | apply H3].
Defined.

Lemma convert_categoricals_twice_witness :
  exists cmap1 dfE cmap2,
    convert_categoricals 0 ["Sex"%string]
      (Sample.store Sample.sex_table ["Sex"%string])
    = (put_frame 0 dfE (Sample.store Sample.sex_table ["Sex"%string]),
       Ok cmap1) /\
    convert_categoricals 0 ["Sex"%string]
      (put_frame 0 dfE (Sample.store Sample.sex_table ["Sex"%string]))
    = (put_frame 0 dfE (Sample.store Sample.sex_table ["Sex"%string]),
       Ok cmap2) /\
    forall var m, ~ In (var, Some m) cmap2.
Proof.
  destruct (@convert_categoricals_twice 0 ["Sex"%string]
              (Sample.store Sample.sex_table ["Sex"%string])
              Sample.sex_table eq_refl)
    as (cmap1 & dfE & cmap2 & H1 & H2 & _ & H3).
  - repeat constructor.
  - constructor; [intros [] | constructor].
  - intros var [<-|[]]. right. left. reflexivity.
  - exists cmap1, dfE, cmap2. split; [exact H1|]. split; [exact H2 | exact H3].
Defined.
